(** * Event recommendation engine (src/app.js): model and verification

    A shallow embedding of the scoring-and-selection pipeline of
    [app.js]: signal extraction, per-user weight normalisation, the
    bounded top-k heap scan, the final sort and the greedy category
    diversity re-rank, together with the Haversine distance.

    Numbers. A JavaScript number is modelled by [num]: a real number
    ([Fin r]), one of the two infinities, or [NaN].  Arithmetic on finite
    values is exact real arithmetic (binary64 rounding and the sign of
    zero are not modelled); every operation follows the ECMAScript rules
    for [NaN] and the infinities, because these do flow through the code.
    The exact reals idealise one function visibly, [calculateDistance]:
    module [Binary64] embeds it a second time on binary64 floats.

    Exceptions.  A function that can raise a [TypeError] (reading a
    property of [undefined]) returns an [option]; [None] is the throw. *)

From Stdlib Require Import Reals Lra Lia ZArith String Ascii.
From Stdlib Require Floats.
From stdpp Require Import gmap strings list sorting.

Set Default Proof Using "Type".

(** ** JavaScript numbers *)

Inductive num : Type :=
  | NaN
  | NegInfinity
  | Fin (r : R)
  | Infinity.

#[global] Instance R_eq_dec : EqDecision R := Req_dec_T.
#[global] Instance Rlt_decision : RelDecision Rlt := Rlt_dec.
#[global] Instance Rle_decision : RelDecision Rle := Rle_dec.

#[global] Instance num_eq_dec : EqDecision num.
Proof. solve_decision. Defined.

(** [Number.isFinite] *)
Definition Number_isFinite (x : num) : bool :=
  match x with Fin _ => true | _ => false end.

(** [a < b] *)
Definition num_lt (a b : num) : bool :=
  match a, b with
  | NaN, _ | _, NaN => false
  | Fin x, Fin y => bool_decide (x < y)%R
  | NegInfinity, NegInfinity => false
  | NegInfinity, _ => true
  | _, NegInfinity => false
  | Infinity, _ => false
  | Fin _, Infinity => true
  end.

(** [a > b] *)
Definition num_gt (a b : num) : bool := num_lt b a.

(** [a === b] on numbers: [NaN] is not equal to itself. *)
Definition num_eqb (a b : num) : bool :=
  match a, b with
  | NaN, _ | _, NaN => false
  | _, _ => bool_decide (a = b)
  end.

(** [a !== b] *)
Definition num_neqb (a b : num) : bool := negb (num_eqb a b).

(** [a <= b] *)
Definition num_le (a b : num) : bool := num_lt a b || num_eqb a b.

(** [a >= b] *)
Definition num_ge (a b : num) : bool := num_le b a.

(** [-a] *)
Definition num_neg (a : num) : num :=
  match a with
  | NaN => NaN
  | NegInfinity => Infinity
  | Fin x => Fin (- x)
  | Infinity => NegInfinity
  end.

(** [a + b] *)
Definition num_add (a b : num) : num :=
  match a, b with
  | NaN, _ | _, NaN => NaN
  | Fin x, Fin y => Fin (x + y)
  | Infinity, NegInfinity | NegInfinity, Infinity => NaN
  | Infinity, _ | _, Infinity => Infinity
  | NegInfinity, _ | _, NegInfinity => NegInfinity
  end.

(** [a - b] *)
Definition num_sub (a b : num) : num := num_add a (num_neg b).

(** The infinity whose sign is that of the finite factor [x]; an infinity
    times zero is [NaN]. *)
Definition signed_inf (x : R) (positive : bool) : num :=
  if bool_decide (0 < x)%R then (if positive then Infinity else NegInfinity)
  else if bool_decide (x < 0)%R then (if positive then NegInfinity else Infinity)
  else NaN.

(** [a * b] *)
Definition num_mul (a b : num) : num :=
  match a, b with
  | NaN, _ | _, NaN => NaN
  | Fin x, Fin y => Fin (x * y)
  | Fin x, Infinity | Infinity, Fin x => signed_inf x true
  | Fin x, NegInfinity | NegInfinity, Fin x => signed_inf x false
  | Infinity, Infinity | NegInfinity, NegInfinity => Infinity
  | Infinity, NegInfinity | NegInfinity, Infinity => NegInfinity
  end.

(** [a / b]; the zero divisor is the positive zero. *)
Definition num_div (a b : num) : num :=
  match a, b with
  | NaN, _ | _, NaN => NaN
  | Fin x, Fin y =>
      if bool_decide (y = 0)%R then signed_inf x true else Fin (x / y)
  | Fin _, _ => Fin 0
  | Infinity, Fin y => if bool_decide (y < 0)%R then NegInfinity else Infinity
  | NegInfinity, Fin y => if bool_decide (y < 0)%R then Infinity else NegInfinity
  | _, _ => NaN
  end.

(** [a ** 2] *)
Definition num_sq (a : num) : num := num_mul a a.

(** [Math.max(a, b)] and [Math.min(a, b)]: [NaN] if either argument is. *)
Definition Math_max (a b : num) : num :=
  match a, b with
  | NaN, _ | _, NaN => NaN
  | _, _ => if num_lt a b then b else a
  end.

Definition Math_min (a b : num) : num :=
  match a, b with
  | NaN, _ | _, NaN => NaN
  | _, _ => if num_lt b a then b else a
  end.

Definition Math_exp (a : num) : num :=
  match a with
  | NaN => NaN
  | NegInfinity => Fin 0
  | Fin x => Fin (exp x)
  | Infinity => Infinity
  end.

Definition Math_sin (a : num) : num :=
  match a with Fin x => Fin (sin x) | _ => NaN end.

Definition Math_cos (a : num) : num :=
  match a with Fin x => Fin (cos x) | _ => NaN end.

Definition Math_sqrt (a : num) : num :=
  match a with
  | Fin x => if bool_decide (x < 0)%R then NaN else Fin (sqrt x)
  | Infinity => Infinity
  | _ => NaN
  end.

(** [Math.atan2(y, x)] on finite arguments, by quadrant; the calls in
    this program pass two square roots, hence finite arguments. *)
Definition atan2 (y x : R) : R :=
  if bool_decide (0 < x)%R then atan (y / x)
  else if bool_decide (x < 0)%R then
    (if bool_decide (y < 0)%R then atan (y / x) - PI else atan (y / x) + PI)%R
  else if bool_decide (0 < y)%R then (PI / 2)%R
  else if bool_decide (y < 0)%R then (- PI / 2)%R
  else 0%R.

Definition Math_atan2 (y x : num) : num :=
  match y, x with
  | Fin a, Fin b => Fin (atan2 a b)
  | NaN, _ | _, NaN => NaN
  | Fin a, Infinity => Fin 0
  | Fin a, NegInfinity => if bool_decide (a < 0)%R then Fin (- PI) else Fin PI
  | Infinity, Fin _ => Fin (PI / 2)
  | NegInfinity, Fin _ => Fin (- PI / 2)
  | Infinity, Infinity => Fin (PI / 4)
  | Infinity, NegInfinity => Fin (3 * PI / 4)
  | NegInfinity, Infinity => Fin (- PI / 4)
  | NegInfinity, NegInfinity => Fin (- 3 * PI / 4)
  end.

(** [x || 0] on a value read from a [Map]: [undefined], [0] and [NaN] are
    falsy. *)
Definition num_or0 (x : option num) : num :=
  match x with
  | Some NaN | None => Fin 0
  | Some v => v
  end.

(** Truncation toward zero of a real, and the two's complement wrap of
    ECMAScript [ToInt32]; [x | 0] is [ToInt32(x)]. *)
Definition Rtrunc (r : R) : Z :=
  if bool_decide (0 <= r)%R then Int_part r else (- Int_part (- r))%Z.

Definition wrap32 (z : Z) : Z := ((z + 2 ^ 31) mod 2 ^ 32 - 2 ^ 31)%Z.

Definition toInt32 (x : num) : Z :=
  match x with
  | Fin r => wrap32 (Rtrunc r)
  | _ => 0%Z
  end.

(** ** Data model *)

(** [{lat, lng}]. *)
Record Location : Type := { lat : num; lng : num }.

(** An event record.  A field that is absent or of the wrong type is
    [None]: [ev_popularity] is [Some] exactly when
    [typeof ev.popularity === 'number'], [ev_categories] when
    [Array.isArray(ev.categories)]. *)
Record Event : Type := {
  ev_id : option string;
  ev_title : string;
  ev_categories : option (list string);
  ev_location : option Location;
  ev_popularity : option num;
}.

Record User : Type := {
  user_id : string;
  user_location : option Location;
  preferences : option (list string);
  attendedEvents : option (list string);
}.

(** Heap nodes: [{ score, distance, popularity, id, event }]. *)
Record Node : Type := {
  score : num;
  distance : num;
  popularity : num;
  node_id : string;
  event : Event;
}.

(** [CONFIG.weights] *)
Record Weights : Type := {
  w_pref : R;
  w_sim : R;
  w_geo : R;
  w_pop : R;
  w_cold : R;
}.

(** [CONFIG.diversity] *)
Record Diversity : Type := {
  enabled : bool;
  alpha : R;
  perCategoryCap : num;
}.

(** [CONFIG]; [hardGeoCutoffKm] is [None] for [null]. *)
Record Config : Type := {
  weights : Weights;
  distanceDecayKm : R;
  hardGeoCutoffKm : option num;
  diversity : Diversity;
}.

Definition CONFIG : Config := {|
  weights := {| w_pref := 35 / 100; w_sim := 30 / 100; w_geo := 20 / 100;
                w_pop := 15 / 100; w_cold := 10 / 100 |};
  distanceDecayKm := 1000;
  hardGeoCutoffKm := None;
  diversity := {| enabled := true; alpha := 8 / 100; perCategoryCap := Fin 3 |};
|}.

(** ** Math helpers *)

Definition EARTH_RADIUS_KM : num := Fin 6371.

(** On exact reals the product cannot overflow; [Binary64.toRad] is the
    function on binary64 floats. *)
Definition toRad (deg : num) : num := num_div (num_mul deg (Fin PI)) (Fin 180).

Definition hasValidLocation (loc : option Location) : bool :=
  match loc with
  | Some l => Number_isFinite (lat l) && Number_isFinite (lng l)
  | None => false
  end.

(** Jaccard similarity for arrays of strings. *)
Definition jaccard (arrA arrB : list string) : num :=
  if (length arrA =? 0) || (length arrB =? 0) then Fin 0
  else
    let setA : gset string := list_to_set arrA in
    let setB : gset string := list_to_set arrB in
    let inter := size (setA ∩ setB) in
    let union := size setA + size setB - inter in
    if union =? 0 then Fin 0 else Fin (INR inter / INR union).

(** Distance -> [0,1] proximity via exponential decay. *)
Definition proximityScoreFromKm (distanceKm d0 : num) : num :=
  if negb (Number_isFinite distanceKm) then Fin 0
  else
    let d := Math_max (Fin 0) distanceKm in
    Math_exp (num_div (num_neg d) d0).

(** ** Tiny binary min-heap *)

(** String comparison [a < b] of JavaScript, by code units. *)
Definition str_lt (a b : string) : bool := String.ltb a b.

(** [heapSwap] is only called with two indices that were just read. *)
Definition heapSwap (h : list Node) (i j : nat) : list Node :=
  match h !! i, h !! j with
  | Some a, Some b => <[j := a]> (<[i := b]> h)
  | _, _ => h
  end.

(** Comparator for the MIN-heap: "less" means WORSE. *)
Definition heapLess (a b : Node) : bool :=
  if num_neqb (score a) (score b) then num_lt (score a) (score b)
  else if num_neqb (distance a) (distance b) then num_gt (distance a) (distance b)
  else if num_neqb (popularity a) (popularity b)
       then num_lt (popularity a) (popularity b)
  else str_lt (node_id b) (node_id a).

(** The [while (i > 0)] loop of [heapSiftUp]; the index halves at every
    turn, so [fuel = i] turns suffice and at [fuel = 0] the index is 0. *)
Fixpoint heapSiftUp_loop (fuel : nat) (h : list Node) (i : nat)
    : option (list Node) :=
  match fuel with
  | 0 => Some h
  | S fuel' =>
      if i =? 0 then Some h
      else
        let p := (i - 1) / 2 in
        a ← h !! i;
        b ← h !! p;
        if negb (heapLess a b) then Some h
        else heapSiftUp_loop fuel' (heapSwap h i p) p
  end.

Definition heapSiftUp (h : list Node) (i : nat) : option (list Node) :=
  heapSiftUp_loop i h i.

(** The smaller of [h[c]] and [h[s]] for a child index [c], as in
    [if (c < n && heapLess(h[c], h[s])) s = c]. *)
Definition pickChild (h : list Node) (c s : nat) : option nat :=
  if c <? length h then
    a ← h !! c;
    b ← h !! s;
    Some (if heapLess a b then c else s)
  else Some s.

(** The [while (true)] loop of [heapSiftDown]; the index grows at every
    turn, so [fuel = n - i] turns suffice and at [fuel = 0] no child
    index is below [n]. *)
Fixpoint heapSiftDown_loop (fuel : nat) (h : list Node) (i : nat)
    : option (list Node) :=
  match fuel with
  | 0 => Some h
  | S fuel' =>
      let l := 2 * i + 1 in
      let r := 2 * i + 2 in
      s1 ← pickChild h l i;
      s ← pickChild h r s1;
      if s =? i then Some h
      else heapSiftDown_loop fuel' (heapSwap h i s) s
  end.

Definition heapSiftDown (h : list Node) (i : nat) : option (list Node) :=
  heapSiftDown_loop (length h - i) h i.

Definition heapPush (h : list Node) (node : Node) : option (list Node) :=
  let h' := h ++ [node] in
  heapSiftUp h' (length h' - 1).

(** [h[0] = node] on an empty array creates the element. *)
Definition heapReplaceRoot (h : list Node) (node : Node) : option (list Node) :=
  heapSiftDown (match h with [] => [node] | _ :: t => node :: t end) 0.

(** "Better" comparator in final ranking order. *)
Definition betterThan (a b : Node) : bool :=
  if num_neqb (score a) (score b) then num_gt (score a) (score b)
  else if num_neqb (distance a) (distance b) then num_lt (distance a) (distance b)
  else if num_neqb (popularity a) (popularity b)
       then num_gt (popularity a) (popularity b)
  else str_lt (node_id a) (node_id b).

(** ** Similarity counts *)

Definition buildSimilarCounts (attended : list string)
    (eventSimilarity : gmap string (list string)) : gmap string nat :=
  foldl (fun counts eid =>
           match eventSimilarity !! eid with
           | Some sims =>
               foldl (fun c sid => <[sid := default 0 (c !! sid) + 1]> c)
                     counts sims
           | None => counts
           end) ∅ attended.

(** ** Category popularity prior *)

(** [typeof e.popularity === 'number' ? Math.max(0, Math.min(1, e.popularity)) : 0],
    the expression of [buildCategoryPopularityMap] and of the scoring loop. *)
Definition clampedPopularity (p : option num) : num :=
  match p with
  | Some x => Math_max (Fin 0) (Math_min (Fin 1) x)
  | None => Fin 0
  end.

(** [Array.isArray(e?.categories) ? e.categories : []] *)
Definition categoriesOf (e : option Event) : list string :=
  match e with
  | Some ev => default [] (ev_categories ev)
  | None => []
  end.

Definition buildCategoryPopularityMap (events : list (option Event))
    : gmap string num :=
  foldl (fun tally e =>
           let pop := clampedPopularity (e ≫= ev_popularity) in
           foldl (fun t c => <[c := num_add (num_or0 (t !! c)) pop]> t)
                 tally (categoriesOf e))
        ∅ events.

(** [cats.reduce((s, c) => s + (popByCat.get(c) || 0), 0)] *)
Definition priorSum (popByCat : gmap string num) (cats : list string) : num :=
  foldl (fun s c => num_add s (num_or0 (popByCat !! c))) (Fin 0) cats.

Definition computeMaxPriorAcrossEvents (events : list (option Event))
    (popByCat : gmap string num) : num :=
  foldl (fun maxPrior e =>
           let sum := priorSum popByCat (categoriesOf e) in
           if num_gt sum maxPrior then sum else maxPrior)
        (Fin 0) events.

(** ** Core public functions *)

(** Haversine distance in kilometres, on exact reals: the pipeline below
    uses this function.  What binary64 returns can differ from it, up to
    [NaN] for valid points; [Binary64.calculateDistance] is the function
    on binary64 floats. *)
Definition calculateDistance (point1 point2 : option Location) : num :=
  if negb (hasValidLocation point1) || negb (hasValidLocation point2)
  then Infinity
  else
    match point1, point2 with
    | Some p1, Some p2 =>
        let lat1 := toRad (lat p1) in
        let lat2 := toRad (lat p2) in
        let dLat := num_sub lat2 lat1 in
        let dLng := toRad (num_sub (lng p2) (lng p1)) in
        let a :=
          num_add
            (num_sq (Math_sin (num_div dLat (Fin 2))))
            (num_mul (num_mul (Math_cos lat1) (Math_cos lat2))
                     (num_sq (Math_sin (num_div dLng (Fin 2))))) in
        let c :=
          num_mul (Fin 2)
                  (Math_atan2 (Math_sqrt a) (Math_sqrt (num_sub (Fin 1) a))) in
        num_mul EARTH_RADIUS_KM c
    | _, _ => Infinity
    end.

(** ** The distance in binary64

    The functions above compute on exact reals.  [calculateDistance] is
    the one function of [app.js] in which binary64 itself decides what
    is returned: the product in [toRad] can overflow, and the rounded
    [a] can exceed 1.  This module embeds [toRad], [hasValidLocation]
    and [calculateDistance] a second time, on the binary64 floats of
    the kernel.  [*], [/], [+], [-] and [Math.sqrt] are the IEEE 754
    operations.  [Math.sin], [Math.cos], [Math.atan2] and [**] are
    implementation-approximated in ECMAScript: they are the fields of a
    [Host], wrapped so that the results which the standard fixes are
    fixed here too. *)

Module Binary64.
Import Floats.
#[local] Open Scope float_scope.

(** [Math.PI], the double nearest to the real number. *)
Definition PI : float := 0x1.921fb54442d18p+1.

Definition EARTH_RADIUS_KM : float := 6371.

Definition Infinity : float := infinity.

Record Location : Type := { lat : float; lng : float }.

(** What a JavaScript engine is free to choose. *)
Record Host : Type := {
  host_sin : float -> float;
  host_cos : float -> float;
  host_atan2 : float -> float -> float;
  host_pow : float -> float -> float;
}.

Definition isNaN (x : float) : bool := is_nan x.

Definition is_poszero (x : float) : bool := is_zero x && negb (get_sign x).

(** [Math.sin]: [NaN] and the zeros are returned as they are, an
    infinity gives [NaN]. *)
Definition Math_sin (host : Host) (x : float) : float :=
  if is_nan x || is_zero x then x
  else if is_infinity x then nan
  else host_sin host x.

(** [Math.cos]: [NaN] unless the argument is finite, 1 at the zeros. *)
Definition Math_cos (host : Host) (x : float) : float :=
  if negb (is_finite x) then nan
  else if is_zero x then 1
  else host_cos host x.

(** [Math.atan2]: [NaN] if an argument is [NaN]; a zero [y] with [x]
    positive or [+0] is returned as it is; a finite non-zero [y] with
    [x = +Infinity] gives the zero of the sign of [y]. *)
Definition Math_atan2 (host : Host) (y x : float) : float :=
  if is_nan y || is_nan x then nan
  else if is_zero y && ((0 <? x) || is_poszero x) then y
  else if is_finite y && negb (is_zero y) && (x =? infinity)
       then (if 0 <? y then 0 else -0)
  else host_atan2 host y x.

(** [x ** 2]: [NaN] for [NaN], [+Infinity] for the infinities, [+0] for
    the zeros. *)
Definition pow2 (host : Host) (x : float) : float :=
  if is_nan x then nan
  else if is_infinity x then infinity
  else if is_zero x then 0
  else host_pow host x 2.

Definition toRad (deg : float) : float := (deg * PI) / 180.

Definition hasValidLocation (loc : option Location) : bool :=
  match loc with
  | Some l => is_finite (lat l) && is_finite (lng l)
  | None => false
  end.

(** The quantity [a] of [calculateDistance]. *)
Definition haversine (host : Host) (p1 p2 : Location) : float :=
  let lat1 := toRad (lat p1) in
  let lat2 := toRad (lat p2) in
  let dLat := lat2 - lat1 in
  let dLng := toRad (lng p2 - lng p1) in
  pow2 host (Math_sin host (dLat / 2))
  + Math_cos host lat1 * Math_cos host lat2
    * pow2 host (Math_sin host (dLng / 2)).

Definition calculateDistance (host : Host) (point1 point2 : option Location)
    : float :=
  if negb (hasValidLocation point1) || negb (hasValidLocation point2)
  then Infinity
  else
    match point1, point2 with
    | Some p1, Some p2 =>
        let a := haversine host p1 p2 in
        let c := 2 * Math_atan2 host (sqrt a) (sqrt (1 - a)) in
        EARTH_RADIUS_KM * c
    | _, _ => Infinity
    end.

End Binary64.

(** ** [getRecommendedEvents] *)

(** The [active] object: which signals take part for this user. *)
Record Active : Type := {
  act_pref : bool;
  act_sim : bool;
  act_geo : bool;
  act_pop : bool;
  act_cold : bool;
}.

Section Recommend.

(** The process-wide [CONFIG] object. *)
Variable cfg : Config.

(** [String.prototype.localeCompare] of the host: negative, zero or
    positive. *)
Variable localeCompare : string -> string -> Z.

Variable user : User.
Variable events : list (option Event).
Variable eventSimilarity : gmap string (list string).

Definition prefs : list string := default [] (preferences user).
Definition attended : list string := default [] (attendedEvents user).

Definition hasPrefs : bool := 0 <? length prefs.
Definition hasHistory : bool := 0 <? length attended.
Definition hasGeo : bool := hasValidLocation (user_location user).
Definition coldStart : bool := negb hasPrefs && negb hasHistory.

Definition similarCounts : gmap string nat :=
  buildSimilarCounts attended eventSimilarity.

Definition popByCat : gmap string num := buildCategoryPopularityMap events.

Definition maxPrior : num :=
  if coldStart then computeMaxPriorAcrossEvents events popByCat else Fin 0.

Definition active : Active := {|
  act_pref := hasPrefs;
  act_sim := hasHistory;
  act_geo := hasGeo;
  act_pop := true;
  act_cold := coldStart;
|}.

(** The keys of [CONFIG.weights] in insertion order, with the flag of
    [active] and the configured weight. *)
Definition weightTable : list (bool * R) :=
  [ (act_pref active, w_pref (weights cfg));
    (act_sim active, w_sim (weights cfg));
    (act_geo active, w_geo (weights cfg));
    (act_pop active, w_pop (weights cfg));
    (act_cold active, w_cold (weights cfg)) ].

Definition weightSum : R :=
  let s := foldl (fun s '(on, w) => if on : bool then (s + w)%R else s)
                 0%R weightTable in
  if bool_decide (s <= 0)%R then 1%R else s.

Definition prefScore (ev : Event) : num :=
  if hasPrefs then jaccard prefs (default [] (ev_categories ev)) else Fin 0.

Definition simScore (eid : string) : num :=
  let simCount := default 0 (similarCounts !! eid) in
  if hasHistory
  then Math_min (Fin 1)
                (num_div (Fin (INR simCount)) (Fin (INR (length attended))))
  else Fin 0.

(** [hasGeo && hasValidLocation(ev.location)] *)
Definition located (ev : Event) : bool :=
  hasGeo && hasValidLocation (ev_location ev).

Definition distanceKm (ev : Event) : num :=
  if located ev then calculateDistance (user_location user) (ev_location ev)
  else Infinity.

(** The [continue] of the optional hard cutoff. *)
Definition beyondCutoff (ev : Event) : bool :=
  located ev &&
  match hardGeoCutoffKm cfg with
  | Some c => Number_isFinite c && num_gt (distanceKm ev) c
  | None => false
  end.

Definition geoScore (ev : Event) : num :=
  if act_geo active
  then proximityScoreFromKm (distanceKm ev) (Fin (distanceDecayKm cfg))
  else Fin 0.

Definition coldScore (ev : Event) : num :=
  if coldStart then
    let sum := priorSum popByCat (default [] (ev_categories ev)) in
    if num_gt maxPrior (Fin 0) then num_div sum maxPrior else Fin 0
  else Fin 0.

(** [combined], after [combined /= weightSum]. *)
Definition combined (ev : Event) (eid : string) : num :=
  let popularity := clampedPopularity (ev_popularity ev) in
  let w := weights cfg in
  let term (on : bool) (wt : R) (v : num) : num :=
    if on then num_mul (Fin wt) v else Fin 0 in
  num_div
    (num_add
       (num_add
          (num_add
             (num_add (term (act_pref active) (w_pref w) (prefScore ev))
                      (term (act_sim active) (w_sim w) (simScore eid)))
             (term (act_geo active) (w_geo w) (geoScore ev)))
          (term (act_pop active) (w_pop w) popularity))
       (term (act_cold active) (w_cold w) (coldScore ev)))
    (Fin weightSum).

(** The body of the scoring loop up to the creation of [node]; [None]
    is a [continue]. *)
Definition scoreEvent (e : option Event) : option Node :=
  match e with
  | None => None
  | Some ev =>
      match ev_id ev with
      | None => None
      | Some eid =>
          if String.eqb eid "" then None
          else if bool_decide (eid ∈ attended) then None
          else if beyondCutoff ev then None
          else
            Some {| score := combined ev eid;
                    distance := if Number_isFinite (distanceKm ev)
                                then distanceKm ev else Infinity;
                    popularity := clampedPopularity (ev_popularity ev);
                    node_id := eid;
                    event := ev |}
      end
  end.

(** One turn of the scoring loop on the heap of capacity [k]. *)
Definition scanStep (k : nat) (heap : list Node) (e : option Event)
    : option (list Node) :=
  match scoreEvent e with
  | None => Some heap
  | Some node =>
      if length heap <? k then heapPush heap node
      else
        root ← heap !! 0;
        if betterThan node root then heapReplaceRoot heap node
        else Some heap
  end.

(** The bounded top-k heap scan: [for (const ev of events) ...]. *)
Fixpoint scanEvents (k : nat) (heap : list Node) (evs : list (option Event))
    : option (list Node) :=
  match evs with
  | [] => Some heap
  | e :: evs' => heap' ← scanStep k heap e; scanEvents k heap' evs'
  end.

(** The comparator of the final [heap.sort]. *)
Definition rankCompare (a b : Node) : num :=
  if num_neqb (score b) (score a) then num_sub (score b) (score a)
  else if num_neqb (distance a) (distance b)
       then num_sub (distance a) (distance b)
  else if num_neqb (popularity b) (popularity a)
       then num_sub (popularity b) (popularity a)
  else Fin (IZR (localeCompare (node_id a) (node_id b))).

End Recommend.

(** [Array.prototype.sort(cmp)]: a stable sort; an element goes after the
    ones it does not precede ([cmp] positive), and a [NaN] from the
    comparator counts as zero. *)
Fixpoint sortInsert (cmp : Node -> Node -> num) (x : Node) (l : list Node)
    : list Node :=
  match l with
  | [] => [x]
  | y :: l' =>
      if num_gt (cmp x y) (Fin 0) then y :: sortInsert cmp x l' else x :: l
  end.

Definition Array_sort (cmp : Node -> Node -> num) (l : list Node) : list Node :=
  foldr (sortInsert cmp) [] l.

(** ** Diversity re-rank *)

Section Rerank.

Variable nodes : list Node.
Variable alpha : R.
Variable perCategoryCap : num.

Definition penaltyFor (catCounts : gmap string nat) (ev : Event) : num :=
  let cats := default [] (ev_categories ev) in
  if length cats =? 0 then Fin 0
  else
    let maxCount :=
      foldl (fun m c => Nat.max m (default 0 (catCounts !! c))) 0 cats in
    let capPenalty :=
      if Number_isFinite perCategoryCap
         && num_ge (Fin (INR maxCount)) perCategoryCap
      then Fin (1 / 2) else Fin 0 in
    num_add (num_mul (Fin alpha) (Fin (INR maxCount))) capPenalty.

(** The inner loop [for (let i = 0; i < N; i++)], from index [i] on the
    rest of [nodes] and of [used]; the state is [(bestIdx, bestVal)],
    with [None] for the index [-1]. *)
Fixpoint scanBest (catCounts : gmap string nat) (i : nat)
    (ns : list Node) (us : list bool) (best : option nat * num)
    : option nat * num :=
  match ns, us with
  | node :: ns', u :: us' =>
      scanBest catCounts (S i) ns' us'
        (if u then best
         else
           let val := num_sub (score node) (penaltyFor catCounts (event node)) in
           if num_gt val (snd best) then (Some i, val) else best)
  | _, _ => best
  end.

(** The outer loop [for (let step = 0; step < N; step++)].  With
    [bestIdx = -1], [nodes[bestIdx]] is [undefined] and
    [chosen.event] throws. *)
Fixpoint rerankLoop (steps : nat) (used : list bool) (out : list Node)
    (catCounts : gmap string nat) : option (list Node) :=
  match steps with
  | 0 => Some out
  | S steps' =>
      match fst (scanBest catCounts 0 nodes used (None, NegInfinity)) with
      | None => None
      | Some bestIdx =>
          chosen ← nodes !! bestIdx;
          let cats := default [] (ev_categories (event chosen)) in
          rerankLoop steps' (<[bestIdx := true]> used) (out ++ [chosen])
            (foldl (fun m c => <[c := default 0 (m !! c) + 1]> m)
                   catCounts cats)
      end
  end.

Definition rerankWithCategoryDiversity : option (list Node) :=
  let N := length nodes in
  rerankLoop N (replicate N false) [] ∅.

End Rerank.

Section Pipeline.

Variable cfg : Config.
Variable localeCompare : string -> string -> Z.

(** [k = Math.min(Math.max(0, limit | 0), events.length)] *)
Definition capacity (limit : num) (events : list (option Event)) : nat :=
  Nat.min (Z.to_nat (Z.max 0 (toInt32 limit))) (length events).

(** [limit] is [None] when the argument is omitted. *)
Definition getRecommendedEvents (user : User) (events : list (option Event))
    (eventSimilarity : gmap string (list string)) (limit : option num)
    : option (list Event) :=
  let limit := default (Fin 5) limit in
  if (length events =? 0) || num_le limit (Fin 0) then Some []
  else
    let k := capacity limit events in
    if k =? 0 then Some []
    else
      heap ← scanEvents cfg user events eventSimilarity k [] events;
      if length heap =? 0 then Some []
      else
        let nodes := Array_sort (rankCompare localeCompare) heap in
        diversified ←
          (if enabled (diversity cfg) && (1 <? length nodes)
           then rerankWithCategoryDiversity nodes (alpha (diversity cfg))
                  (perCategoryCap (diversity cfg))
           else Some nodes);
        Some (map event diversified).

End Pipeline.

(** * Specification vocabulary *)

(** ** The ranking order *)

(** A node whose three numeric keys are numbers that compare. *)
Definition comparable (n : Node) : Prop :=
  score n <> NaN /\ distance n <> NaN /\ popularity n <> NaN.

(** The key of a node in the ranking order. *)
Definition key (n : Node) : num * num * num * string :=
  (score n, distance n, popularity n, node_id n).

(** [heapLess] spelled out as a lexicographic order. *)
Definition worse (a b : Node) : Prop :=
  num_lt (score a) (score b) = true \/
  (score a = score b /\
   (num_lt (distance b) (distance a) = true \/
    (distance a = distance b /\
     (num_lt (popularity a) (popularity b) = true \/
      (popularity a = popularity b /\ str_lt (node_id b) (node_id a) = true))))).

(** ** Heap invariants *)

(** The element at index [a], if any, is not better than the one at
    index [b], if any. *)
Definition le_at (h : list Node) (a b : nat) : Prop :=
  forall x y, h !! a = Some x -> h !! b = Some y -> heapLess y x = false.

(** The min-heap property: no element is worse than its parent. *)
Definition heap_ok (h : list Node) : Prop :=
  forall j, 0 < j -> le_at h ((j - 1) / 2) j.

(** The transposition of two indices. *)
Definition transpose (i j k : nat) : nat :=
  if decide (k = i) then j else if decide (k = j) then i else k.

(** Heap order everywhere except between [i] and its parent, with the
    children of [i] not worse than the parent of [i]. *)
Definition up_inv (h : list Node) (i : nat) : Prop :=
  (forall j, 0 < j -> j <> i -> le_at h ((j - 1) / 2) j) /\
  (forall j, 0 < j -> 0 < i -> (j - 1) / 2 = i -> le_at h ((i - 1) / 2) j).

(** Heap order everywhere except between [i] and its children, with the
    children of [i] not worse than the parent of [i]. *)
Definition down_inv (h : list Node) (i : nat) : Prop :=
  (forall j, 0 < j -> (j - 1) / 2 <> i -> le_at h ((j - 1) / 2) j) /\
  (forall j, 0 < j -> 0 < i -> (j - 1) / 2 = i -> le_at h ((i - 1) / 2) j).

(** ** The reference: sort all candidates, then truncate *)

(** The total order of the ranking: score descending, then distance
    ascending, then popularity descending, then identifier ascending. *)
Definition rankedBefore (a b : Node) : bool :=
  num_gt (score a) (score b) ||
  (num_eqb (score a) (score b) &&
   (num_lt (distance a) (distance b) ||
    (num_eqb (distance a) (distance b) &&
     (num_gt (popularity a) (popularity b) ||
      (num_eqb (popularity a) (popularity b) &&
       str_lt (node_id a) (node_id b)))))).

(** Insertion sort by [rankedBefore]. *)
Fixpoint insertRanked (x : Node) (l : list Node) : list Node :=
  match l with
  | [] => [x]
  | y :: l' => if rankedBefore x y then x :: l else y :: insertRanked x l'
  end.

Definition sortRanked (l : list Node) : list Node := foldr insertRanked [] l.

Definition sortThenTruncate (k : nat) (l : list Node) : list Node :=
  take k (sortRanked l).

(** All eligible candidates, scored, in the order of [events]. *)
Definition candidates (cfg : Config) (user : User)
    (events : list (option Event)) (eventSimilarity : gmap string (list string))
    : list Node :=
  omap (scoreEvent cfg user events eventSimilarity) events.

(** [a] is ranked at least as high as [b], both comparable. *)
Definition ranked_ge (a b : Node) : Prop :=
  comparable a /\ comparable b /\ heapLess a b = false.

(** The same on keys. *)
Definition key_ge (k1 k2 : num * num * num * string) : Prop :=
  exists a b, key a = k1 /\ key b = k2 /\ ranked_ge a b.

(** The heap holds a best [k] of the nodes seen so far. *)
Definition selects (k : nat) (seen heap : list Node) : Prop :=
  heap_ok heap /\ length heap = Nat.min k (length seen) /\
  exists rest, seen ≡ₚ heap ++ rest /\
    forall x y, x ∈ rest -> y ∈ heap -> heapLess y x = false.

(** ** Re-rank invariants *)

(** A node that the inner loop can select: its score minus a finite
    penalty is above the initial [-Infinity]. *)
Definition selectable (n : Node) : Prop :=
  score n <> NaN /\ score n <> NegInfinity.

(** The nodes not yet marked in [used]. *)
Fixpoint unpicked (ns : list Node) (us : list bool) : list Node :=
  match ns, us with
  | n :: ns', u :: us' => if u then unpicked ns' us' else n :: unpicked ns' us'
  | _, _ => []
  end.

(** ** Numeric inputs *)

(** No event carries [NaN] as its popularity. *)
Definition numeric_popularity (events : list (option Event)) : Prop :=
  forall ev, Some ev ∈ events -> ev_popularity ev <> Some NaN.

(** A finite number. *)
Definition finite (x : num) : Prop := exists r, x = Fin r.

(** ** Eligible candidates *)

(** An eligible candidate: an event carrying an identifier that is not in
    the user's attended events and is not excluded by the hard geo
    cutoff. *)
Definition eligible (cfg : Config) (user : User) (e : option Event) : bool :=
  match e with
  | Some ev =>
      match ev_id ev with
      | Some eid =>
          negb (String.eqb eid "") && negb (bool_decide (eid ∈ attended user))
          && negb (beyondCutoff cfg user ev)
      | None => false
      end
  | None => false
  end.

Definition eligibleCandidateCount (cfg : Config) (user : User)
    (events : list (option Event)) : nat :=
  length (filter (fun e => eligible cfg user e = true) events).

(** ** The Haversine formula on the reals *)

(** The quantity [a] of [calculateDistance] on real arguments. *)
Definition haversine (lat1 lat2 dLng : R) : R :=
  (sin ((lat2 - lat1) / 2) * sin ((lat2 - lat1) / 2)
   + cos lat1 * cos lat2 * (sin (dLng / 2) * sin (dLng / 2)))%R.

(** ** Points and a host for the distance in binary64 *)

Module Binary64Inputs.
Import Floats Binary64.
#[local] Open Scope float_scope.

(** A point whose latitude is the number 1e308. *)
Definition hugePoint : Location :=
  {| lat := 0x1.1ccf385ebc8ap+1023; lng := 0 |}.

(** Two points that are nearly antipodal. *)
Definition southPoint : Location := {| lat := -12; lng := 0 |}.
Definition northPoint : Location := {| lat := 12; lng := 180 |}.

(** [toRad 12], [toRad 90], and the doubles nearest to the sine and
    the cosine of [toRad 12]. *)
Definition rad12 : float := 0x1.acee9f37bebd5p-3.
Definition rad90 : float := 0x1.921fb54442d18p+0.
Definition sin_rad12 : float := 0x1.a9cd9ac4258f5p-3.
Definition cos_rad12 : float := 0x1.f4cfc327a008p-1.

(** The host returns the double nearest to the exact result at the six
    arguments that the distance from [southPoint] to [northPoint]
    asks for. *)
Definition nearestAt12 (host : Host) : Prop :=
  host_sin host rad12 = sin_rad12 /\
  host_sin host rad90 = 1 /\
  host_cos host rad12 = cos_rad12 /\
  host_cos host (- rad12) = cos_rad12 /\
  host_pow host sin_rad12 2 = sin_rad12 * sin_rad12 /\
  host_pow host 1 2 = 1.

(** A host that is [nearestAt12]. *)
Definition tableHost : Host :=
  {| host_sin x := if x =? rad12 then sin_rad12
                   else if x =? rad90 then 1 else x;
     host_cos x := if (x =? rad12) || (x =? - rad12) then cos_rad12 else 1;
     host_atan2 y x := y / x;
     host_pow x y := x * x |}.

(** [1 < x], the test that [a] has left the domain of the formula. *)
Definition exceedsOne (x : float) : bool := 1 <? x.

End Binary64Inputs.

(** ** The normalised weighted sum *)





(** No configured weight is negative. *)
Definition weights_nonneg (cfg : Config) : Prop :=
  (0 <= w_pref (weights cfg) /\ 0 <= w_sim (weights cfg) /\
   0 <= w_geo (weights cfg) /\ 0 <= w_pop (weights cfg) /\
   0 <= w_cold (weights cfg))%R.

(** ** Concrete inputs *)

(** The code-unit order, standing for the collation of the host. *)
Definition codeUnitCompare (a b : string) : Z :=
  match String.compare a b with Lt => -1 | Eq => 0 | Gt => 1 end.

(** An event with an identifier and a popularity, and nothing else. *)
Definition plainEvent (eid : string) (pop : num) : Event :=
  {| ev_id := Some eid; ev_title := ""; ev_categories := None;
     ev_location := None; ev_popularity := Some pop |}.

(** A user with one preference, no history and no location. *)
Definition fan : User :=
  {| user_id := "u1"; user_location := None;
     preferences := Some ["music"]; attendedEvents := None |}.

(** The same user after attending [e1]. *)
Definition regular : User :=
  {| user_id := "u2"; user_location := None;
     preferences := Some ["music"]; attendedEvents := Some ["e1"] |}.

(** A user with a valid location. *)
Definition localUser : User :=
  {| user_id := "u3"; user_location := Some {| lat := Fin 0; lng := Fin 0 |};
     preferences := None; attendedEvents := None |}.

(** A node whose score is [NaN]. *)
Definition nanNode : Node :=
  {| score := NaN; distance := Infinity; popularity := NaN; node_id := "n1";
     event := plainEvent "n1" NaN |}.

(** One [NaN] popularity in front of two numeric ones. *)
Definition nanFirst : list (option Event) :=
  [Some (plainEvent "n1" NaN); Some (plainEvent "a" (Fin (1 / 2)));
   Some (plainEvent "b" (Fin (9 / 10)))].

(** The node that [fan] builds from a plain event. *)
Definition plainNode (s : num) (eid : string) (pop : num) : Node :=
  {| score := s; distance := Infinity;
     popularity := clampedPopularity (Some pop);
     node_id := eid; event := plainEvent eid pop |}.

(** An event tagged with a category, with a [NaN] popularity. *)
Definition taggedNaN : Event :=
  {| ev_id := Some "n1"; ev_title := ""; ev_categories := Some ["music"];
     ev_location := None; ev_popularity := Some NaN |}.

(** A scored node of one category, for runs of the re-rank. *)
Definition catNode (s : R) (eid cat : string) : Node :=
  {| score := Fin s; distance := Infinity; popularity := Fin 0; node_id := eid;
     event := {| ev_id := Some eid; ev_title := ""; ev_categories := Some [cat];
                 ev_location := None; ev_popularity := None |} |}.


(** ** Vocabulary of the further properties *)

(** All identifiers listed as similar to an attended event, with
    repetitions. *)
Definition similarTo (attended : list string)
    (eventSimilarity : gmap string (list string)) : list string :=
  attended ≫= (fun eid => default [] (eventSimilarity !! eid)).

(** The number of occurrences of [x] in [l]. *)
Definition occurrences (x : string) (l : list string) : nat :=
  length (filter (fun y => y = x) l).

(** The real value of a finite number. *)
Definition realOf (x : num) : R :=
  match x with Fin r => r | _ => 0%R end.

(** The popularity mass of category [c]: every listing of [c] by an
    event adds the clamped popularity of the event. *)
Definition categoryMass (c : string) (events : list (option Event)) : R :=
  foldr (fun e acc =>
           (INR (occurrences c (categoriesOf e))
            * realOf (clampedPopularity (e ≫= ev_popularity)) + acc)%R)
        0%R events.

(** A map of finite, non-negative tallies. *)
Definition tallies (m : gmap string num) : Prop :=
  forall c, exists r, num_or0 (m !! c) = Fin r /\ (0 <= r)%R.

(** A collation that orders identifiers as [<] does, by code units. *)
Definition codeUnitCollation (localeCompare : string -> string -> Z) : Prop :=
  forall a b,
    ((localeCompare a b < 0)%Z <-> str_lt a b = true) /\
    ((0 < localeCompare a b)%Z <-> str_lt b a = true).

(** The scores do not increase along the list. *)
Definition scoreGe (a b : Node) : Prop := num_ge (score a) (score b) = true.

(** [CONFIG] with the diversity re-rank switched off. *)
Definition plainConfig : Config :=
  {| weights := weights CONFIG;
     distanceDecayKm := distanceDecayKm CONFIG;
     hardGeoCutoffKm := hardGeoCutoffKm CONFIG;
     diversity := {| enabled := false; alpha := alpha (diversity CONFIG);
                     perCategoryCap := perCategoryCap (diversity CONFIG) |} |}.



(** A heap of three nodes: the worst at the root, both children
    better. *)
Definition threeHeap : list Node :=
  [catNode 1 "e1" "music"; catNode 2 "e2" "art"; catNode 3 "e3" "music"].

(** An event with a category and a popularity. *)
Definition taggedEvent (eid cat : string) (pop : R) : Event :=
  {| ev_id := Some eid; ev_title := ""; ev_categories := Some [cat];
     ev_location := None; ev_popularity := Some (Fin pop) |}.

(** Three events of two categories. *)
Definition priorEvents : list (option Event) :=
  [Some (taggedEvent "e1" "music" (1 / 2)); Some (taggedEvent "e2" "art" 1);
   Some (taggedEvent "e3" "music" (1 / 4))].


(** The value that the inner loop of the re-rank compares: the score
    minus the penalty under the current category counts. *)
Definition rerankValue (alpha : R) (perCategoryCap : num)
    (catCounts : gmap string nat) (n : Node) : num :=
  num_sub (score n) (penaltyFor alpha perCategoryCap catCounts (event n)).

(** The soft cap cannot fire before any category was chosen: it is not
    finite, or it is above 0. *)
Definition capAboveZero (perCategoryCap : num) : Prop :=
  Number_isFinite perCategoryCap && num_ge (Fin 0) perCategoryCap = false.

(** * Verification *)

(** ** Facts on JavaScript numbers *)

Ltac rdec :=
  repeat (case_bool_decide; simpl in * ); try done; try lra.

Lemma num_lt_irrefl a : num_lt a a = false.
Proof. destruct a; simpl; rdec. Qed.

Lemma num_lt_trans a b c :
  num_lt a b = true -> num_lt b c = true -> num_lt a c = true.
Proof. destruct a, b, c; simpl; rdec. Qed.

Lemma num_lt_asym a b : num_lt a b = true -> num_lt b a = false.
Proof. destruct a, b; simpl; rdec. Qed.

Lemma num_trichotomy a b :
  a <> NaN -> b <> NaN -> num_lt a b = true \/ a = b \/ num_lt b a = true.
Proof.
  destruct a as [| |x|], b as [| |y|]; simpl; intros; try done; auto.
  destruct (Rtotal_order x y) as [?|[->|?]]; rdec; auto.
Qed.

Lemma num_neqb_false a b : num_neqb a b = false -> a = b /\ a <> NaN.
Proof.
  unfold num_neqb, num_eqb.
  destruct a, b; simpl; try done; case_bool_decide; simpl; try done; intros _; split; done.
Qed.

Lemma num_neqb_true a b : num_neqb a b = true -> a <> NaN -> a <> b.
Proof.
  unfold num_neqb, num_eqb. intros H Ha ->.
  destruct b; simpl in *; try done; case_bool_decide; done.
Qed.

Lemma num_neqb_refl a : a <> NaN -> num_neqb a a = false.
Proof.
  unfold num_neqb, num_eqb. destruct a; try done; intros _;
    rewrite bool_decide_eq_true_2; done.
Qed.

Lemma num_neqb_sym a b : num_neqb a b = num_neqb b a.
Proof.
  unfold num_neqb, num_eqb.
  destruct a, b; simpl; try done; f_equal; apply bool_decide_ext; split; congruence.
Qed.

(** ** The code-unit order on strings *)

Lemma ascii_compare_lt_trans a b c :
  Ascii.compare a b = Lt -> Ascii.compare b c = Lt -> Ascii.compare a c = Lt.
Proof.
  unfold Ascii.compare. rewrite !N.compare_lt_iff. lia.
Qed.

Lemma string_compare_refl s : String.compare s s = Eq.
Proof.
  induction s as [|a s IH]; simpl; [done|].
  unfold Ascii.compare. rewrite N.compare_refl. done.
Qed.

Lemma string_compare_lt_trans s1 : forall s2 s3,
  String.compare s1 s2 = Lt -> String.compare s2 s3 = Lt ->
  String.compare s1 s3 = Lt.
Proof.
  induction s1 as [|a s1 IH]; intros [|b s2] [|c s3]; simpl; try done.
  destruct (Ascii.compare a b) eqn:Hab; try done;
    destruct (Ascii.compare b c) eqn:Hbc; try done; intros H1 H2.
  - apply Ascii.compare_eq_iff in Hab, Hbc. subst.
    unfold Ascii.compare. rewrite N.compare_refl. eauto.
  - apply Ascii.compare_eq_iff in Hab. subst. rewrite Hbc. done.
  - apply Ascii.compare_eq_iff in Hbc. subst. rewrite Hab. done.
  - rewrite (ascii_compare_lt_trans _ _ _ Hab Hbc). done.
Qed.

Lemma str_lt_irrefl s : str_lt s s = false.
Proof. unfold str_lt, String.ltb. rewrite string_compare_refl. done. Qed.

Lemma str_lt_trans a b c :
  str_lt a b = true -> str_lt b c = true -> str_lt a c = true.
Proof.
  unfold str_lt, String.ltb.
  destruct (String.compare a b) eqn:H1; try done.
  destruct (String.compare b c) eqn:H2; try done.
  rewrite (string_compare_lt_trans _ _ _ H1 H2). done.
Qed.

Lemma str_lt_trichotomy a b :
  str_lt a b = true \/ a = b \/ str_lt b a = true.
Proof.
  unfold str_lt, String.ltb. rewrite (String.compare_antisym b a).
  destruct (String.compare a b) eqn:H; simpl; auto.
  apply String.compare_eq_iff in H. auto.
Qed.

(** ** The ranking order on nodes *)

Lemma betterThan_heapLess a b : betterThan a b = heapLess b a.
Proof.
  unfold betterThan, heapLess, num_gt.
  rewrite !(num_neqb_sym (score a)), !(num_neqb_sym (distance a)),
    !(num_neqb_sym (popularity a)). done.
Qed.

Lemma heapLess_worse a b :
  comparable a -> comparable b -> heapLess a b = true <-> worse a b.
Proof.
  intros (Ha1 & Ha2 & Ha3) (Hb1 & Hb2 & Hb3). unfold heapLess, worse, num_gt.
  destruct (num_neqb (score a) (score b)) eqn:E1.
  { apply num_neqb_true in E1; [|done]. intuition congruence. }
  apply num_neqb_false in E1 as [E1 _]. rewrite E1, num_lt_irrefl.
  destruct (num_neqb (distance a) (distance b)) eqn:E2.
  { apply num_neqb_true in E2; [|done]. intuition congruence. }
  apply num_neqb_false in E2 as [E2 _]. rewrite E2, num_lt_irrefl.
  destruct (num_neqb (popularity a) (popularity b)) eqn:E3.
  { apply num_neqb_true in E3; [|done]. intuition congruence. }
  apply num_neqb_false in E3 as [E3 _]. rewrite E3, num_lt_irrefl.
  intuition congruence.
Qed.

Lemma heapLess_irrefl a : heapLess a a = false.
Proof.
  unfold heapLess, num_gt. rewrite !num_lt_irrefl, str_lt_irrefl.
  repeat case_match; done.
Qed.

Lemma worse_trans a b c : worse a b -> worse b c -> worse a c.
Proof.
  unfold worse. intros H1 H2.
  destruct H1 as [H1|[E1 H1]], H2 as [H2|[E2 H2]].
  - left. eapply num_lt_trans; eauto.
  - left. congruence.
  - left. congruence.
  - right. split; [congruence|].
    destruct H1 as [H1|[F1 H1]], H2 as [H2|[F2 H2]].
    + left. eapply num_lt_trans; eauto.
    + left. congruence.
    + left. congruence.
    + right. split; [congruence|].
      destruct H1 as [H1|[G1 H1]], H2 as [H2|[G2 H2]].
      * left. eapply num_lt_trans; eauto.
      * left. congruence.
      * left. congruence.
      * right. split; [congruence|]. eapply str_lt_trans; eauto.
Qed.

Lemma heapLess_trans a b c :
  comparable a -> comparable b -> comparable c ->
  heapLess a b = true -> heapLess b c = true -> heapLess a c = true.
Proof.
  intros Ha Hb Hc. rewrite !heapLess_worse by done. apply worse_trans.
Qed.

Lemma heapLess_connected a b :
  comparable a -> comparable b ->
  heapLess a b = false -> heapLess b a = false -> key a = key b.
Proof.
  intros Ha Hb H1 H2.
  assert (N1 : ~ worse a b) by (rewrite <- heapLess_worse by done; congruence).
  assert (N2 : ~ worse b a) by (rewrite <- heapLess_worse by done; congruence).
  destruct Ha as (Ha1 & Ha2 & Ha3), Hb as (Hb1 & Hb2 & Hb3).
  unfold key.
  assert (forall P : Prop, worse a b \/ worse b a -> P) as Habs.
  { intros P [H|H]; [destruct (N1 H)|destruct (N2 H)]. }
  destruct (num_trichotomy (score a) (score b)) as [?|[E1|?]]; try done;
    [apply Habs; left; by left| |apply Habs; right; by left].
  destruct (num_trichotomy (distance a) (distance b)) as [?|[E2|?]]; try done;
    [apply Habs; right; right; by auto| |apply Habs; left; right; by auto].
  destruct (num_trichotomy (popularity a) (popularity b)) as [?|[E3|?]];
    try done;
    [apply Habs; left; right; by auto 6| |apply Habs; right; right; by auto 6].
  destruct (str_lt_trichotomy (node_id a) (node_id b)) as [?|[E4|?]];
    [apply Habs; right; right; by auto 8| |apply Habs; left; right; by auto 8].
  congruence.
Qed.


(** ** The binary heap *)

Lemma parent_spec i :
  0 < i -> i = 2 * ((i - 1) / 2) + 1 \/ i = 2 * ((i - 1) / 2) + 2.
Proof.
  intros Hi. pose proof (Nat.div_mod_eq (i - 1) 2) as H.
  pose proof (Nat.mod_upper_bound (i - 1) 2). lia.
Qed.

Lemma parent_of_child i j :
  j = 2 * i + 1 \/ j = 2 * i + 2 -> (j - 1) / 2 = i.
Proof.
  intros Hj. assert (0 < j) as Hp by lia.
  pose proof (parent_spec j Hp). lia.
Qed.

(** Order facts on nodes: [heapLess y x = false] reads "x is at most y". *)
Lemma heapLess_key a a' b b' :
  key a = key a' -> key b = key b' -> heapLess a b = heapLess a' b'.
Proof.
  unfold key, heapLess. intros [= -> -> -> ->] [= -> -> -> ->]. done.
Qed.

Lemma heapLess_asym a b :
  comparable a -> comparable b -> heapLess a b = true -> heapLess b a = false.
Proof.
  intros Ha Hb H. destruct (heapLess b a) eqn:E; [|done].
  pose proof (heapLess_trans _ _ _ Ha Hb Ha H E) as F.
  rewrite heapLess_irrefl in F. done.
Qed.

Lemma not_heapLess_trans x y z :
  comparable x -> comparable y -> comparable z ->
  heapLess y x = false -> heapLess z y = false -> heapLess z x = false.
Proof.
  intros Hx Hy Hz H1 H2. destruct (heapLess z x) eqn:E; [|done].
  destruct (heapLess y z) eqn:F.
  - rewrite (heapLess_trans _ _ _ Hy Hz Hx F E) in H1. done.
  - rewrite (heapLess_key y z x x) in H1; [congruence| |done].
    apply heapLess_connected; done.
Qed.

Lemma heapLess_not_trans x y z :
  comparable x -> comparable y -> comparable z ->
  heapLess x y = true -> heapLess z y = false -> heapLess z x = false.
Proof.
  intros Hx Hy Hz H1 H2.
  eapply (not_heapLess_trans x y z); eauto using heapLess_asym.
Qed.

Lemma le_at_trans h a b c :
  Forall comparable h -> b < length h ->
  le_at h a b -> le_at h b c -> le_at h a c.
Proof.
  intros Hc Hb H1 H2 x z Hx Hz.
  destruct (lookup_lt_is_Some_2 h b Hb) as [y Hy].
  rewrite Forall_lookup in Hc.
  eapply (not_heapLess_trans x y z); eauto.
Qed.

Lemma le_at_refl h a : le_at h a a.
Proof. intros x y Hx Hy. simplify_eq. apply heapLess_irrefl. Qed.

Lemma heapSwap_length h i j : length (heapSwap h i j) = length h.
Proof.
  unfold heapSwap. repeat case_match; rewrite ?length_insert; done.
Qed.

Lemma heapSwap_lookup h i j k :
  i < length h -> j < length h ->
  heapSwap h i j !! k = h !! transpose i j k.
Proof.
  intros Hi Hj. unfold heapSwap, transpose.
  destruct (lookup_lt_is_Some_2 h i Hi) as [a Ha].
  destruct (lookup_lt_is_Some_2 h j Hj) as [b Hb].
  rewrite Ha, Hb.
  destruct (decide (k = j)) as [->|Hkj].
  - rewrite list_lookup_insert_eq by (rewrite length_insert; done).
    case_decide; congruence.
  - rewrite list_lookup_insert_ne by done.
    destruct (decide (k = i)) as [->|Hki].
    + rewrite list_lookup_insert_eq by done. done.
    + rewrite list_lookup_insert_ne by done. done.
Qed.

Lemma heapSwap_Permutation h i j : heapSwap h i j ≡ₚ h.
Proof.
  unfold heapSwap. destruct (h !! i) eqn:Hi; [|done].
  destruct (h !! j) eqn:Hj; [|done].
  apply Permutation_insert_swap; done.
Qed.

Lemma le_at_swap h i j a b :
  i < length h -> j < length h ->
  le_at (heapSwap h i j) a b <-> le_at h (transpose i j a) (transpose i j b).
Proof.
  intros Hi Hj. unfold le_at.
  setoid_rewrite (heapSwap_lookup h i j _ Hi Hj). done.
Qed.

Lemma le_at_oob_r h a b : length h <= b -> le_at h a b.
Proof.
  intros Hb x y _ Hy. apply lookup_lt_Some in Hy. lia.
Qed.

Lemma le_at_oob_l h a b : length h <= a -> le_at h a b.
Proof.
  intros Hb x y Hx _. apply lookup_lt_Some in Hx. lia.
Qed.

(** *** Sifting up *)

Lemma heapSiftUp_loop_S fuel h i :
  heapSiftUp_loop (S fuel) h i =
  if i =? 0 then Some h
  else
    a ← h !! i;
    b ← h !! ((i - 1) / 2);
    if negb (heapLess a b) then Some h
    else heapSiftUp_loop fuel (heapSwap h i ((i - 1) / 2)) ((i - 1) / 2).
Proof. done. Qed.

Lemma heapSiftUp_loop_ok fuel : forall h i,
  Forall comparable h -> i <= fuel -> i < length h -> up_inv h i ->
  exists h', heapSiftUp_loop fuel h i = Some h' /\ h' ≡ₚ h /\ heap_ok h'.
Proof.
  induction fuel as [|fuel IH]; intros h i Hc Hf Hi [U1 U2].
  { exists h. split_and!; [done..|]. intros j Hj. apply U1; lia. }
  rewrite heapSiftUp_loop_S.
  destruct (Nat.eqb_spec i 0) as [->|Hi0].
  { exists h. split_and!; [done..|]. intros j Hj. apply U1; lia. }
  pose proof (parent_spec i ltac:(lia)) as Hp.
  set (p := (i - 1) / 2) in *. clearbody p.
  assert (p < i) as Hpi by lia.
  destruct (lookup_lt_is_Some_2 h i Hi) as [a Ha].
  destruct (lookup_lt_is_Some_2 h p ltac:(lia)) as [b Hb].
  rewrite Ha, Hb. simpl.
  destruct (heapLess a b) eqn:Hab; simpl.
  2:{ exists h. split_and!; [done..|]. intros j Hj.
      destruct (decide (j = i)) as [->|]; [|by apply U1].
      pose proof (parent_spec i Hj) as Hq.
      assert ((i - 1) / 2 = p) as -> by lia.
      intros x y Hx Hy. simplify_eq. done. }
  assert (Hip : le_at h i p).
  { intros x y Hx Hy. simplify_eq. rewrite Forall_lookup in Hc.
    eapply heapLess_asym; eauto. }
  destruct (IH (heapSwap h i p) p) as (h' & Hr & Hperm & Hok).
  - rewrite heapSwap_Permutation. done.
  - lia.
  - rewrite heapSwap_length. lia.
  - split.
    + intros j Hj Hjp. apply le_at_swap; [lia..|].
      pose proof (parent_spec j Hj) as Hpj.
      pose proof (U1 j Hj) as U1j. pose proof (U2 j Hj) as U2j.
      revert Hpj U1j U2j. generalize ((j - 1) / 2). intros q Hpj U1j U2j.
      unfold transpose. repeat case_decide; simplify_eq; try lia.
      * (* parent j = i *) apply U2j; [lia|done].
      * (* j = i *) done.
      * (* parent j = p *)
        apply (le_at_trans h i p j); [done|lia|done|]. apply U1j. done.
      * apply U1j. done.
    + intros j Hj Hp0 Hjp. apply le_at_swap; [lia..|].
      pose proof (parent_spec p Hp0) as Hpp.
      pose proof (U1 p Hp0 ltac:(lia)) as U1p.
      revert Hpp U1p. generalize ((p - 1) / 2). intros q Hpp U1p.
      pose proof (U1 j Hj) as U1j. pose proof (parent_spec j Hj) as Hpj.
      rewrite Hjp in U1j, Hpj. clear Hjp.
      unfold transpose. repeat case_decide; try lia.
      * (* j = i *) done.
      * apply (le_at_trans h q p j); [done|lia|done|]. apply U1j. done.
  - exists h'. split_and!; [done| |done].
    rewrite Hperm. apply heapSwap_Permutation.
Qed.

Lemma heapPush_ok h node :
  Forall comparable h -> comparable node -> heap_ok h ->
  exists h', heapPush h node = Some h' /\ h' ≡ₚ node :: h /\ heap_ok h'.
Proof.
  intros Hc Hn Hok. unfold heapPush, heapSiftUp.
  rewrite length_app. simpl.
  replace (length h + 1 - 1) with (length h) by lia.
  destruct (heapSiftUp_loop_ok (length h) (h ++ [node]) (length h))
    as (h' & Hr & Hperm & Hok').
  - apply Forall_app. split; [done|]. by apply Forall_singleton.
  - done.
  - rewrite length_app. simpl. lia.
  - split.
    + intros j Hj Hne.
      destruct (decide (j < length h)) as [Hlt|Hge].
      * intros x y Hx Hy.
        pose proof (parent_spec j Hj).
        rewrite lookup_app_l in Hx by lia. rewrite lookup_app_l in Hy by lia.
        eapply Hok; eauto.
      * apply le_at_oob_r. rewrite length_app. simpl. lia.
    + intros j Hj Hi Hpar. apply le_at_oob_r. rewrite length_app. simpl.
      pose proof (parent_spec j Hj). lia.
  - exists h'. split_and!; [done| |done].
    rewrite Hperm. rewrite Permutation_app_comm. done.
Qed.

(** *** Sifting down *)

Lemma heapSiftDown_loop_S fuel h i :
  heapSiftDown_loop (S fuel) h i =
  s1 ← pickChild h (2 * i + 1) i;
  s ← pickChild h (2 * i + 2) s1;
  if s =? i then Some h else heapSiftDown_loop fuel (heapSwap h i s) s.
Proof. done. Qed.

Lemma pickChild_spec h c s :
  Forall comparable h -> s < length h ->
  exists s', pickChild h c s = Some s' /\
    ((s' = c /\ c < length h /\ le_at h c s /\ ~ le_at h s c) \/
     (s' = s /\ le_at h s c)).
Proof.
  intros Hc Hs. unfold pickChild.
  destruct (Nat.ltb_spec c (length h)) as [Hlt|Hge].
  - destruct (lookup_lt_is_Some_2 h c Hlt) as [a Ha].
    destruct (lookup_lt_is_Some_2 h s Hs) as [b Hb].
    rewrite Ha, Hb. simpl. rewrite Forall_lookup in Hc.
    destruct (heapLess a b) eqn:Hab; eexists; (split; [done|]).
    + left. split_and!; [done..| |].
      * intros x y Hx Hy. simplify_eq. eapply heapLess_asym; eauto.
      * intros H. specialize (H _ _ Hb Ha). congruence.
    + right. split; [done|]. intros x y Hx Hy. simplify_eq. done.
  - eexists. split; [done|]. right. split; [done|]. by apply le_at_oob_r.
Qed.

(** The index picked by one turn of the loop: [i] itself when neither
    child is worse, otherwise the worst of the children. *)
Lemma pick_smallest h i :
  Forall comparable h -> i < length h ->
  exists s, (pickChild h (2 * i + 1) i ≫= pickChild h (2 * i + 2)) = Some s /\
    ((s = i /\ le_at h i (2 * i + 1) /\ le_at h i (2 * i + 2)) \/
     ((s = 2 * i + 1 \/ s = 2 * i + 2) /\ s < length h /\
      le_at h s i /\ le_at h s (2 * i + 1) /\ le_at h s (2 * i + 2))).
Proof.
  intros Hc Hi.
  destruct (pickChild_spec h (2 * i + 1) i Hc Hi)
    as (s1 & Hs1 & [(-> & Hl & Hli & _)|(-> & Hil)]); rewrite Hs1.
  - destruct (pickChild_spec h (2 * i + 2) (2 * i + 1) Hc Hl)
      as (s & Hs & [(-> & Hr & Hrl & _)|(-> & Hlr)]);
      eexists; (split; [exact Hs|]); right.
    + split_and!; [auto|done| |done|apply le_at_refl].
      apply (le_at_trans h _ (2 * i + 1)); done.
    + split_and!; [auto|done|done|apply le_at_refl|done].
  - destruct (pickChild_spec h (2 * i + 2) i Hc Hi)
      as (s & Hs & [(-> & Hr & Hri & _)|(-> & Hir)]);
      eexists; (split; [exact Hs|]).
    + right. split_and!; [auto|done|done| |apply le_at_refl].
      apply (le_at_trans h _ i); done.
    + left. done.
Qed.

Lemma heapSiftDown_loop_pick fuel h i s :
  (pickChild h (2 * i + 1) i ≫= pickChild h (2 * i + 2)) = Some s ->
  heapSiftDown_loop (S fuel) h i =
  if s =? i then Some h else heapSiftDown_loop fuel (heapSwap h i s) s.
Proof.
  intros (s1 & H1 & H2)%bind_Some. rewrite heapSiftDown_loop_S, H1.
  transitivity
    (pickChild h (2 * i + 2) s1 ≫=
     fun s => if s =? i then Some h
              else heapSiftDown_loop fuel (heapSwap h i s) s); [done|].
  rewrite H2. done.
Qed.

Lemma heapSiftDown_loop_ok fuel : forall h i,
  Forall comparable h -> length h - i <= fuel -> i < length h ->
  down_inv h i ->
  exists h', heapSiftDown_loop fuel h i = Some h' /\ h' ≡ₚ h /\ heap_ok h'.
Proof.
  induction fuel as [|fuel IH]; intros h i Hc Hf Hi [D1 D2]; [lia|].
  destruct (pick_smallest h i Hc Hi) as (s & Hs & Hcase).
  rewrite (heapSiftDown_loop_pick _ _ _ _ Hs).
  destruct Hcase as [(-> & Hl & Hr)|(Hsc & Hsn & Hsi & Hsl & Hsr)].
  - rewrite Nat.eqb_refl. exists h. split_and!; [done..|].
    intros j Hj. destruct (decide ((j - 1) / 2 = i)) as [Hp|Hp]; [|by apply D1].
    pose proof (parent_spec j Hj) as Hpj. rewrite Hp in Hpj |- *.
    destruct Hpj as [->| ->]; done.
  - destruct (Nat.eqb_spec s i) as [->|Hne]; [lia|].
    destruct (IH (heapSwap h i s) s) as (h' & Hr & Hperm & Hok).
    + rewrite heapSwap_Permutation. done.
    + rewrite heapSwap_length. lia.
    + rewrite heapSwap_length. lia.
    + split.
      * intros j Hj Hjs. apply le_at_swap; [lia..|].
        pose proof (parent_spec j Hj) as Hpj.
        pose proof (D1 j Hj) as D1j. pose proof (D2 j Hj) as D2j.
        revert Hjs Hpj D1j D2j. generalize ((j - 1) / 2).
        intros q Hjs Hpj D1j D2j.
        unfold transpose. repeat case_decide; try lia.
        all: try (subst q; destruct Hpj as [->| ->]; done).
        -- (* j = i, the parent of i is untouched *)
           subst j. pose proof (D2 s ltac:(lia) Hj) as D2s.
           pose proof (parent_spec i Hj) as Hpi.
           assert ((i - 1) / 2 = q) as Hq by lia. rewrite Hq in D2s.
           apply D2s. apply parent_of_child. lia.
        -- apply D1j. done.
      * intros j Hj Hs0 Hjs. apply le_at_swap; [lia..|].
        pose proof (parent_spec j Hj) as Hpj. rewrite Hjs in Hpj.
        pose proof (D1 j Hj) as D1j. rewrite Hjs in D1j. clear Hjs.
        assert ((s - 1) / 2 = i) as -> by (apply parent_of_child; lia).
        unfold transpose. repeat case_decide; try lia.
        apply D1j. lia.
    + exists h'. split_and!; [done| |done].
      rewrite Hperm. apply heapSwap_Permutation.
Qed.

Lemma heapReplaceRoot_ok root h node :
  Forall comparable (root :: h) -> comparable node -> heap_ok (root :: h) ->
  exists h', heapReplaceRoot (root :: h) node = Some h' /\
             h' ≡ₚ node :: h /\ heap_ok h'.
Proof.
  intros Hc Hn Hok. unfold heapReplaceRoot, heapSiftDown.
  apply heapSiftDown_loop_ok.
  - apply Forall_cons in Hc as [_ Hc]. by apply Forall_cons.
  - lia.
  - simpl. lia.
  - split; [|lia].
    intros j Hj Hp. pose proof (parent_spec j Hj) as Hpj.
    pose proof (Hok j Hj) as H. revert Hp Hpj H.
    generalize ((j - 1) / 2). intros q Hp Hpj H.
    destruct j as [|j]; [lia|]. destruct q as [|q]; [lia|]. exact H.
Qed.

(** *** The heap operations never throw and only reorder *)

Lemma heapSiftUp_loop_perm fuel : forall h i,
  i < length h ->
  exists h', heapSiftUp_loop fuel h i = Some h' /\ h' ≡ₚ h.
Proof.
  induction fuel as [|fuel IH]; intros h i Hi; [by exists h|].
  rewrite heapSiftUp_loop_S.
  destruct (Nat.eqb_spec i 0) as [->|Hi0]; [by exists h|].
  pose proof (parent_spec i ltac:(lia)) as Hp.
  set (p := (i - 1) / 2) in *. clearbody p.
  destruct (lookup_lt_is_Some_2 h i Hi) as [a Ha].
  destruct (lookup_lt_is_Some_2 h p ltac:(lia)) as [b Hb].
  rewrite Ha, Hb. simpl.
  destruct (heapLess a b); simpl; [|by exists h].
  destruct (IH (heapSwap h i p) p) as (h' & Hr & Hperm).
  { rewrite heapSwap_length. lia. }
  exists h'. split; [done|]. rewrite Hperm. apply heapSwap_Permutation.
Qed.

Lemma heapPush_perm h node :
  exists h', heapPush h node = Some h' /\ h' ≡ₚ node :: h.
Proof.
  unfold heapPush, heapSiftUp.
  destruct (heapSiftUp_loop_perm (length (h ++ [node]) - 1) (h ++ [node])
              (length (h ++ [node]) - 1)) as (h' & Hr & Hperm).
  { rewrite length_app. simpl. lia. }
  exists h'. split; [done|]. rewrite Hperm, Permutation_app_comm. done.
Qed.

Lemma pickChild_lt h c s :
  s < length h -> exists s', pickChild h c s = Some s' /\ s' < length h /\
                             (s' = c \/ s' = s).
Proof.
  intros Hs. unfold pickChild.
  destruct (Nat.ltb_spec c (length h)) as [Hlt|Hge]; [|eauto].
  destruct (lookup_lt_is_Some_2 h c Hlt) as [a ->].
  destruct (lookup_lt_is_Some_2 h s Hs) as [b ->]. simpl.
  destruct (heapLess a b); eauto.
Qed.

Lemma heapSiftDown_loop_perm fuel : forall h i,
  i < length h ->
  exists h', heapSiftDown_loop fuel h i = Some h' /\ h' ≡ₚ h.
Proof.
  induction fuel as [|fuel IH]; intros h i Hi; [by exists h|].
  destruct (pickChild_lt h (2 * i + 1) i Hi) as (s1 & H1 & Hs1 & _).
  destruct (pickChild_lt h (2 * i + 2) s1 Hs1) as (s & H2 & Hs & _).
  rewrite (heapSiftDown_loop_pick _ _ _ s) by (rewrite H1; exact H2).
  destruct (s =? i); [by exists h|].
  destruct (IH (heapSwap h i s) s) as (h' & Hr & Hperm).
  { rewrite heapSwap_length. done. }
  exists h'. split; [done|]. rewrite Hperm. apply heapSwap_Permutation.
Qed.

Lemma heapReplaceRoot_perm root h node :
  exists h', heapReplaceRoot (root :: h) node = Some h' /\ h' ≡ₚ node :: h.
Proof.
  unfold heapReplaceRoot, heapSiftDown.
  apply heapSiftDown_loop_perm. simpl. lia.
Qed.

(** *** The root of a heap is its worst element *)

Lemma heap_ok_root h :
  Forall comparable h -> heap_ok h -> forall j, le_at h 0 j.
Proof.
  intros Hc Hok j. induction (lt_wf j) as [j _ IH].
  destruct (decide (j = 0)) as [->|Hj]; [apply le_at_refl|].
  destruct (decide (j < length h)) as [Hlt|]; [|apply le_at_oob_r; lia].
  pose proof (parent_spec j ltac:(lia)) as Hp.
  apply (le_at_trans h 0 ((j - 1) / 2) j); [done|lia| |].
  - apply IH. lia.
  - apply Hok. lia.
Qed.

Lemma heap_root_worst root h x :
  Forall comparable (root :: h) -> heap_ok (root :: h) -> x ∈ root :: h ->
  heapLess x root = false.
Proof.
  intros Hc Hok [j Hj]%list_elem_of_lookup.
  apply (heap_ok_root _ Hc Hok j root x); done.
Qed.


(** ** The reference: sort all candidates, then truncate *)

Lemma rankedBefore_betterThan a b : rankedBefore a b = betterThan a b.
Proof.
  unfold rankedBefore, betterThan, num_neqb, num_gt.
  destruct (num_eqb (score a) (score b)) eqn:E1; simpl.
  2:{ by rewrite orb_false_r. }
  apply negb_false_iff, num_neqb_false in E1 as [-> _].
  rewrite num_lt_irrefl. simpl.
  destruct (num_eqb (distance a) (distance b)) eqn:E2; simpl.
  2:{ by rewrite orb_false_r. }
  apply negb_false_iff, num_neqb_false in E2 as [-> _].
  rewrite num_lt_irrefl. simpl.
  destruct (num_eqb (popularity a) (popularity b)) eqn:E3; simpl.
  2:{ by rewrite orb_false_r. }
  apply negb_false_iff, num_neqb_false in E3 as [-> _].
  rewrite num_lt_irrefl. done.
Qed.

Lemma insertRanked_perm x l : insertRanked x l ≡ₚ x :: l.
Proof.
  induction l as [|y l IH]; simpl; [done|].
  destruct (rankedBefore x y); [done|]. rewrite IH. apply Permutation_swap.
Qed.

Lemma sortRanked_perm l : sortRanked l ≡ₚ l.
Proof.
  induction l as [|x l IH]; simpl; [done|].
  rewrite insertRanked_perm, IH. done.
Qed.

Lemma sortRanked_length l : length (sortRanked l) = length l.
Proof. by rewrite sortRanked_perm. Qed.

Lemma insertRanked_sorted x l :
  comparable x -> Forall comparable l ->
  StronglySorted ranked_ge l -> StronglySorted ranked_ge (insertRanked x l).
Proof.
  intros Hx Hc Hs. induction Hs as [|y l Hs IH Hy]; simpl.
  { repeat constructor. }
  apply Forall_cons in Hc as [Hcy Hc].
  rewrite rankedBefore_betterThan, betterThan_heapLess.
  destruct (heapLess y x) eqn:E.
  - constructor; [by constructor|].
    assert (ranked_ge x y) as Hxy by (split_and!; eauto using heapLess_asym).
    constructor; [done|].
    eapply Forall_impl; [exact Hy|]. intros z (_ & Hz & Hyz).
    split_and!; [done..|].
    destruct Hxy as (_ & _ & Hxy).
    eapply (not_heapLess_trans z y x); done.
  - constructor; [by apply IH|].
    rewrite insertRanked_perm. constructor; [|done]. by split_and!.
Qed.

Lemma sortRanked_sorted l :
  Forall comparable l -> StronglySorted ranked_ge (sortRanked l).
Proof.
  induction l as [|x l IH]; intros Hc; simpl; [constructor|].
  apply Forall_cons in Hc as [Hx Hc].
  apply insertRanked_sorted; [done| |by apply IH].
  by rewrite sortRanked_perm.
Qed.

Lemma key_ge_antisym k1 k2 : key_ge k1 k2 -> key_ge k2 k1 -> k1 = k2.
Proof.
  intros (a & b & <- & <- & Ha & Hb & Hab) (b' & a' & Kb & Ka & _ & _ & Hba).
  rewrite (heapLess_key b' b a' a Kb Ka) in Hba.
  by apply heapLess_connected.
Qed.

(** Two rankings of the same nodes carry the same keys in the same
    order. *)
Lemma ranking_unique l1 l2 :
  StronglySorted ranked_ge l1 -> StronglySorted ranked_ge l2 -> l1 ≡ₚ l2 ->
  key <$> l1 = key <$> l2.
Proof.
  intros H1 H2 Hp.
  apply (StronglySorted_unique_strong key_ge).
  - intros. by apply key_ge_antisym.
  - eapply StronglySorted_fmap; [|exact H1]. intros x y ?. by exists x, y.
  - eapply StronglySorted_fmap; [|exact H2]. intros x y ?. by exists x, y.
  - by rewrite Hp.
Qed.

Lemma node_id_key (l : list Node) : node_id <$> l = snd <$> (key <$> l).
Proof. rewrite <- list_fmap_compose. done. Qed.

(** A heap that [selects] carries the keys of the first [k] nodes of the
    full ranking. *)
Lemma selects_sortThenTruncate k seen heap :
  Forall comparable seen -> selects k seen heap ->
  key <$> sortRanked heap = key <$> sortThenTruncate k seen.
Proof.
  intros Hc (Hok & Hlen & rest & Hperm & Hrest).
  assert (Forall comparable heap /\ Forall comparable rest) as [Hch Hcr].
  { rewrite Hperm in Hc. by apply Forall_app in Hc. }
  assert (key <$> (sortRanked heap ++ sortRanked rest) = key <$> sortRanked seen)
    as Heq.
  { apply ranking_unique.
    - apply StronglySorted_app_2; [|by apply sortRanked_sorted..].
      intros y x Hy Hx. rewrite sortRanked_perm in Hy, Hx.
      rewrite Forall_forall in Hch, Hcr. split_and!; auto.
    - apply sortRanked_sorted. done.
    - rewrite !sortRanked_perm. done. }
  unfold sortThenTruncate. rewrite fmap_take, <- Heq, fmap_app.
  destruct (decide (k <= length seen)) as [Hk|Hk].
  - rewrite take_app_length'; [done|].
    rewrite length_fmap, sortRanked_length. lia.
  - assert (rest = []) as ->.
    { pose proof (Permutation_length Hperm) as Hl. rewrite length_app in Hl.
      apply length_zero_iff_nil. lia. }
    simpl. rewrite app_nil_r, take_ge; [done|].
    rewrite length_fmap, sortRanked_length. lia.
Qed.

(** ** The scan *)

Section Scan.

Variable cfg : Config.
Variable user : User.
Variable events : list (option Event).
Variable eventSimilarity : gmap string (list string).

#[local] Abbreviation score_of := (scoreEvent cfg user events eventSimilarity).
#[local] Abbreviation step := (scanStep cfg user events eventSimilarity).
#[local] Abbreviation scan := (scanEvents cfg user events eventSimilarity).

(** One turn never throws; it keeps the heap, grows it by the node, or
    trades its root for the node. *)
Lemma scanStep_cases k heap e :
  0 < k -> length heap <= k ->
  exists heap', step k heap e = Some heap' /\
    match score_of e with
    | None => heap' = heap
    | Some node =>
        (length heap < k /\ heap' ≡ₚ node :: heap) \/
        (length heap = k /\
         exists root t, heap = root :: t /\
           ((betterThan node root = true /\ heap' ≡ₚ node :: t) \/
            (betterThan node root = false /\ heap' = heap)))
    end.
Proof.
  intros Hk Hlen. unfold scanStep.
  destruct (score_of e) as [node|]; [|by exists heap].
  destruct (Nat.ltb_spec (length heap) k) as [Hlt|Hge].
  - destruct (heapPush_perm heap node) as (h' & -> & Hp). eauto.
  - destruct heap as [|root t]; [simpl in *; lia|]. simpl.
    destruct (betterThan node root) eqn:Hb.
    + destruct (heapReplaceRoot_perm root t node) as (h' & -> & Hp).
      exists h'. split; [done|]. right. split; [simpl in *; lia|].
      exists root, t. eauto.
    + exists (root :: t). split; [done|]. right. split; [simpl in *; lia|].
      exists root, t. eauto.
Qed.

Lemma scanStep_selects k seen heap e :
  0 < k -> Forall comparable seen ->
  (forall node, score_of e = Some node -> comparable node) ->
  selects k seen heap ->
  exists heap', step k heap e = Some heap' /\
    selects k (from_option (fun n => n :: seen) seen (score_of e)) heap'.
Proof.
  intros Hk Hc Hn (Hok & Hlen & rest & Hperm & Hrest).
  assert (Forall comparable heap /\ Forall comparable rest) as [Hch Hcr].
  { rewrite Hperm in Hc. by apply Forall_app in Hc. }
  unfold scanStep.
  destruct (score_of e) as [node|] eqn:Hs; simpl.
  2:{ exists heap. split; [done|]. split_and!; [done..|]. by exists rest. }
  specialize (Hn node eq_refl).
  destruct (Nat.ltb_spec (length heap) k) as [Hlt|Hge].
  - assert (rest = []) as ->.
    { pose proof (Permutation_length Hperm) as Hl. rewrite length_app in Hl.
      apply length_zero_iff_nil. lia. }
    destruct (heapPush_ok heap node Hch Hn Hok) as (h' & -> & Hp & Hok').
    exists h'. split; [done|]. split_and!; [done| |].
    + rewrite Hp. simpl. rewrite Hperm, length_app. simpl. lia.
    + exists []. split; [|by intros ?? ?%elem_of_nil].
      rewrite app_nil_r in *. by rewrite Hp, Hperm.
  - destruct heap as [|root t]; [simpl in *; lia|]. simpl.
    assert (forall y, y ∈ root :: t -> heapLess y root = false) as Hroot.
    { intros y Hy. by apply (heap_root_worst root t). }
    apply Forall_cons in Hch as Hch'. destruct Hch' as [Hcroot Hct].
    rewrite Forall_forall in Hct, Hcr.
    rewrite betterThan_heapLess.
    destruct (heapLess root node) eqn:Hb.
    + destruct (heapReplaceRoot_ok root t node Hch Hn Hok)
        as (h' & -> & Hp & Hok').
      exists h'. split; [done|]. split_and!; [done| |].
      * rewrite Hp. simpl in *. lia.
      * exists (root :: rest). split.
        { rewrite Hp, Hperm. simpl. f_equiv. apply Permutation_middle. }
        intros x y Hx Hy. rewrite Hp in Hy.
        apply elem_of_cons in Hx as [->|Hx], Hy as [->|Hy].
        -- by apply heapLess_asym.
        -- apply Hroot. by right.
        -- apply (not_heapLess_trans x root node); auto.
           ++ apply Hrest; [done|by left].
           ++ by apply heapLess_asym.
        -- apply Hrest; [done|by right].
    + exists (root :: t). split; [done|]. split_and!; [done| |].
      * simpl in *. lia.
      * exists (node :: rest). split.
        { rewrite Hperm. apply (Permutation_middle (root :: t)). }
        intros x y Hx Hy.
        apply elem_of_cons in Hx as [->|Hx]; [|by apply Hrest].
        assert (comparable y).
        { apply elem_of_cons in Hy as [->|Hy]; auto. }
        eapply (not_heapLess_trans node root y); eauto.
Qed.

Lemma scanEvents_selects k : forall evs seen heap,
  0 < k -> Forall comparable seen ->
  Forall comparable (omap score_of evs) ->
  selects k seen heap ->
  exists heap', scan k heap evs = Some heap' /\
    selects k (reverse (omap score_of evs) ++ seen) heap'.
Proof.
  induction evs as [|e evs IH]; intros seen heap Hk Hc Hn Hsel; simpl.
  { by exists heap. }
  simpl in Hn.
  destruct (scanStep_selects k seen heap e Hk Hc) as (h1 & -> & Hsel1);
    [|done|].
  { intros node Hs. rewrite Hs in Hn.
    by apply Forall_cons in Hn as [? _]. }
  simpl. destruct (score_of e) as [node|] eqn:Hs; simpl in *.
  - apply Forall_cons in Hn as [Hnode Hn].
    destruct (IH (node :: seen) h1 Hk) as (h' & -> & Hsel'); [by constructor|done..|].
    exists h'. split; [done|].
    by rewrite reverse_cons, <- app_assoc.
  - by apply IH.
Qed.

(** The scan never throws, whatever the keys. *)
Lemma scanEvents_total k : forall evs heap,
  0 < k -> length heap <= k ->
  exists heap', scan k heap evs = Some heap' /\
    length heap' = Nat.min k (length heap + length (omap score_of evs)) /\
    forall x, x ∈ heap' -> x ∈ heap \/ x ∈ omap score_of evs.
Proof.
  induction evs as [|e evs IH]; intros heap Hk Hlen; simpl.
  { exists heap. split_and!; [done|lia|auto]. }
  destruct (scanStep_cases k heap e Hk Hlen) as (h1 & -> & Hcase). simpl.
  destruct (score_of e) as [node|] eqn:Hs; simpl.
  - assert (length h1 = Nat.min k (S (length heap)) /\
            forall x, x ∈ h1 -> x = node \/ x ∈ heap) as [Hl1 Hin1].
    { destruct Hcase as [[Hlt Hp]|(Heq & root & t & -> & [[_ Hp]|[_ ->]])].
      - split; [rewrite Hp; simpl; lia|].
        intros x. rewrite Hp. by intros [->|?]%elem_of_cons; auto.
      - split; [rewrite Hp; simpl in *; lia|].
        intros x. rewrite Hp.
        intros [->|?]%elem_of_cons; [auto|right; by right].
      - split; [simpl in *; lia|auto]. }
    destruct (IH h1 Hk ltac:(lia)) as (h' & -> & Hl & Hin).
    exists h'. split_and!; [done|unfold omap in *; lia|].
    intros x Hx. destruct (Hin x Hx) as [H1|H2].
    + destruct (Hin1 x H1) as [->|?]; [right; by left|by left].
    + right. by right.
  - subst h1. by apply IH.
Qed.

End Scan.


(** ** The diversity re-rank *)

Lemma num_lt_NaN_r a : num_lt a NaN = false.
Proof. by destruct a. Qed.

Lemma unpicked_replicate ns : unpicked ns (replicate (length ns) false) = ns.
Proof. induction ns as [|n ns IH]; simpl; [done|]. by rewrite IH. Qed.

Lemma unpicked_insert ns : forall us j n,
  ns !! j = Some n -> us !! j = Some false ->
  unpicked ns us ≡ₚ n :: unpicked ns (<[j := true]> us).
Proof.
  induction ns as [|x ns IH]; intros [|u us] [|j] n Hn Hu; simplify_eq/=.
  - done.
  - destruct u; rewrite (IH us j n Hn Hu); [done|]. apply Permutation_swap.
Qed.

Lemma unpicked_lookup ns : forall us,
  unpicked ns us <> [] ->
  exists m n, ns !! m = Some n /\ us !! m = Some false.
Proof.
  induction ns as [|x ns IH]; intros [|u us] H; simpl in *; try done.
  destruct u.
  - destruct (IH us H) as (m & n & ? & ?). by exists (S m), n.
  - by exists 0, x.
Qed.

Section RerankFacts.

Variable alpha : R.
Variable perCategoryCap : num.

#[local] Abbreviation penalty := (penaltyFor alpha perCategoryCap).
#[local] Abbreviation best_of := (scanBest alpha perCategoryCap).

Lemma penaltyFor_finite catCounts ev :
  exists p, penalty catCounts ev = Fin p.
Proof.
  unfold penaltyFor. destruct (_ =? 0); [by eexists|].
  simpl. destruct (_ && _); by eexists.
Qed.

Lemma selectable_val catCounts n :
  selectable n ->
  num_gt (num_sub (score n) (penalty catCounts (event n))) NegInfinity
  = true.
Proof.
  intros [H1 H2]. destruct (penaltyFor_finite catCounts (event n)) as [p ->].
  destruct (score n); done.
Qed.

(** The index found by the inner loop is that of an unused node whose
    score is not [NaN]. *)
Lemma scanBest_sound catCounts ns : forall us i best j,
  fst (best_of catCounts i ns us best) = Some j ->
  fst best = Some j \/
  exists m n, j = i + m /\ ns !! m = Some n /\ us !! m = Some false /\
              score n <> NaN.
Proof.
  induction ns as [|n ns IH]; intros [|u us] i best j H; simpl in H; auto.
  apply IH in H as [H|(m & x & -> & Hx & Hu & Hs)].
  - destruct u; [by left|].
    destruct (num_gt _ _) eqn:Hgt; [|by left].
    simpl in H. simplify_eq. right. exists 0, n.
    split_and!; [lia|done|done|].
    intros Hnan. rewrite Hnan in Hgt. unfold num_gt, num_sub in Hgt.
    simpl in Hgt. by rewrite num_lt_NaN_r in Hgt.
  - right. exists (S m), x. split_and!; [lia|done..].
Qed.

(** The inner loop finds an index as soon as an unused node is
    selectable. *)
Lemma scanBest_complete catCounts ns : forall us i best,
  (fst best = None -> snd best = NegInfinity) ->
  (is_Some (fst best) \/
   exists m n, ns !! m = Some n /\ us !! m = Some false /\ selectable n) ->
  is_Some (fst (best_of catCounts i ns us best)).
Proof.
  induction ns as [|n ns IH]; intros [|u us] i best Hinv H; simpl.
  1-3: destruct H as [H|(m & x & Hx & Hu & _)]; try done;
       by destruct m.
  apply IH.
  - destruct u; [done|]. destruct (num_gt _ _); [done|]. done.
  - destruct H as [H|(m & x & Hx & Hu & Hsel)].
    + left. destruct u; [done|]. by destruct (num_gt _ _).
    + destruct m as [|m]; simplify_eq/=; [|right; by exists m, x].
      left. destruct (fst best) eqn:Hb.
      * by destruct (num_gt _ _); simpl; rewrite ?Hb.
      * rewrite (Hinv eq_refl), selectable_val by done. done.
Qed.

End RerankFacts.

Section RerankLoop.

Variable nodes : list Node.
Variable alpha : R.
Variable perCategoryCap : num.

#[local] Abbreviation loop := (rerankLoop nodes alpha perCategoryCap).

(** Whenever the loop returns, it has appended the unused nodes, in
    some order, to [out]. *)
Lemma rerankLoop_sound steps : forall used out catCounts res,
  length used = length nodes ->
  length (unpicked nodes used) = steps ->
  loop steps used out catCounts = Some res ->
  res ≡ₚ out ++ unpicked nodes used /\
  forall x, x ∈ res -> x ∈ out \/ score x <> NaN.
Proof.
  induction steps as [|steps IH]; intros used out cc res Hlen Hcnt H; simpl in H.
  { simplify_eq. apply length_zero_iff_nil in Hcnt. rewrite Hcnt.
    rewrite app_nil_r. auto. }
  destruct (fst (scanBest alpha perCategoryCap cc 0 nodes used
                   (None, NegInfinity))) as [j|] eqn:Hbest; [|done].
  apply scanBest_sound in Hbest as [?|(m & chosen & -> & Hn & Hu & Hs)];
    [done|].
  simpl in H. rewrite Hn in H.
  simpl in H. pose proof (unpicked_insert nodes used m chosen Hn Hu) as Hp.
  apply IH in H as [H Hsc].
  - split; [rewrite H, Hp, <- app_assoc; simpl; done|].
    intros x Hx. destruct (Hsc x Hx) as [Hin|?]; [|by right].
    apply elem_of_app in Hin as [?|Hin]; [by left|].
    apply list_elem_of_singleton in Hin as ->. by right.
  - by rewrite length_insert.
  - apply Permutation_length in Hp. simpl in Hp. lia.
Qed.

(** With selectable nodes only, the loop returns. *)
Lemma rerankLoop_complete steps : forall used out catCounts,
  Forall selectable nodes ->
  length used = length nodes ->
  length (unpicked nodes used) = steps ->
  is_Some (loop steps used out catCounts).
Proof.
  induction steps as [|steps IH]; intros used out cc Hsel Hlen Hcnt; simpl.
  { done. }
  destruct (scanBest_complete alpha perCategoryCap cc nodes used 0
              (None, NegInfinity)) as [j Hbest]; [done| |].
  { right. destruct (unpicked_lookup nodes used) as (m & n & Hn & Hu).
    { intros E. rewrite E in Hcnt. done. }
    exists m, n. split_and!; [done..|].
    rewrite Forall_lookup in Hsel. eauto. }
  rewrite Hbest.
  apply scanBest_sound in Hbest as [?|(m & chosen & -> & Hn & Hu & _)];
    [done|].
  simpl. rewrite Hn. simpl.
  pose proof (unpicked_insert nodes used m chosen Hn Hu) as Hp.
  apply IH; [done|by rewrite length_insert|].
  apply Permutation_length in Hp. simpl in Hp. lia.
Qed.

End RerankLoop.

(** Whenever the re-rank returns, its output is a permutation of its
    input, and no score in it is [NaN]. *)
Lemma rerank_sound nodes alpha cap out :
  rerankWithCategoryDiversity nodes alpha cap = Some out ->
  out ≡ₚ nodes /\ Forall (fun n => score n <> NaN) nodes.
Proof.
  unfold rerankWithCategoryDiversity. intros H.
  apply rerankLoop_sound in H as [Hp Hs].
  - rewrite unpicked_replicate in Hp. simpl in Hp. split; [done|].
    rewrite <- Hp. apply Forall_forall. intros x Hx.
    destruct (Hs x Hx) as [Hin|?]; [by apply elem_of_nil in Hin|done].
  - by rewrite length_replicate.
  - by rewrite unpicked_replicate.
Qed.

(** A [NaN] score anywhere in the input makes the re-rank throw. *)
Lemma rerank_throws_on_NaN nodes alpha cap n :
  n ∈ nodes -> score n = NaN ->
  rerankWithCategoryDiversity nodes alpha cap = None.
Proof.
  intros Hn Hs.
  destruct (rerankWithCategoryDiversity nodes alpha cap) as [out|] eqn:E;
    [|done].
  apply rerank_sound in E as [_ Hall].
  rewrite Forall_forall in Hall. by destruct (Hall n Hn).
Qed.

(** On selectable nodes the re-rank returns a permutation of its input. *)
Lemma rerank_permutation nodes alpha cap :
  Forall selectable nodes ->
  exists out, rerankWithCategoryDiversity nodes alpha cap = Some out /\
              out ≡ₚ nodes.
Proof.
  intros Hsel.
  destruct (rerankLoop_complete nodes alpha cap (length nodes)
              (replicate (length nodes) false) [] ∅ Hsel) as [out Hout].
  - by rewrite length_replicate.
  - by rewrite unpicked_replicate.
  - exists out. split; [done|]. by apply rerank_sound in Hout as [? _].
Qed.


(** ** Scores are numbers when popularities are *)

Lemma Math_min_1_not_NaN x : x <> NaN -> Math_min (Fin 1) x <> NaN.
Proof. destruct x; simpl; try done. intros _. by case_bool_decide. Qed.

Lemma clampedPopularity_range p :
  p <> Some NaN ->
  exists r, clampedPopularity p = Fin r /\ (0 <= r <= 1)%R.
Proof.
  intros Hp. destruct p as [[| |x|]|]; simpl; try done.
  - exists 0%R. split; [|lra]. rdec.
  - repeat case_bool_decide; simpl; repeat case_bool_decide;
      eexists; (split; [done|lra]).
  - exists 1%R. split; [|lra]. rdec.
  - exists 0%R. split; [done|lra].
Qed.

Lemma jaccard_finite a b : finite (jaccard a b).
Proof. unfold jaccard. repeat case_match; by eexists. Qed.

Lemma num_add_finite a b : finite a -> finite b -> finite (num_add a b).
Proof. intros [x ->] [y ->]. by eexists. Qed.

Lemma num_mul_finite a b : finite a -> finite b -> finite (num_mul a b).
Proof. intros [x ->] [y ->]. by eexists. Qed.

Lemma num_div_finite a y : finite a -> y <> 0%R -> finite (num_div a (Fin y)).
Proof.
  intros [x ->] Hy. simpl. rewrite bool_decide_eq_false_2 by done. by eexists.
Qed.

Lemma proximityScoreFromKm_finite d d0 :
  d0 <> 0%R -> finite (proximityScoreFromKm d (Fin d0)).
Proof.
  intros Hd0. unfold proximityScoreFromKm.
  destruct d as [| |x|]; simpl; try by eexists.
  case_bool_decide; simpl; rewrite bool_decide_eq_false_2 by done; by eexists.
Qed.

Lemma num_or0_finite (m : gmap string num) c :
  map_Forall (fun _ v => finite v) m -> finite (num_or0 (m !! c)).
Proof.
  intros Hm. destruct (m !! c) as [v|] eqn:E; [|by eexists].
  destruct (Hm c v E) as [r ->]. by eexists.
Qed.

Lemma buildCategoryPopularityMap_finite events :
  numeric_popularity events ->
  map_Forall (fun _ v => finite v) (buildCategoryPopularityMap events).
Proof.
  unfold buildCategoryPopularityMap, numeric_popularity.
  generalize (∅ : gmap string num) (map_Forall_empty (M := gmap string)
    (fun (_ : string) (v : num) => finite v)).
  induction events as [|e events IH]; intros tally Ht Hnum; simpl; [done|].
  apply IH; [|intros ev Hev; apply Hnum; by right].
  assert (finite (clampedPopularity (e ≫= ev_popularity))) as Hpop.
  { destruct (clampedPopularity_range (e ≫= ev_popularity)) as (r & -> & _);
      [|by eexists].
    destruct e as [ev|]; simpl; [|done]. apply Hnum. by left. }
  generalize (categoriesOf e). intros cats. revert tally Ht.
  induction cats as [|c cats IHc]; intros tally Ht; simpl; [done|].
  apply IHc. apply map_Forall_insert_2; [|done].
  apply num_add_finite; [|done]. by apply num_or0_finite.
Qed.

Lemma priorSum_finite m cats :
  map_Forall (fun _ v => finite v) m -> finite (priorSum m cats).
Proof.
  intros Hm. unfold priorSum.
  assert (finite (Fin 0)) as H0 by (by eexists). revert H0.
  generalize (Fin 0). induction cats as [|c cats IH]; intros s Hs; simpl; [done|].
  apply IH. apply num_add_finite; [done|]. by apply num_or0_finite.
Qed.

Lemma computeMaxPriorAcrossEvents_finite events m :
  map_Forall (fun _ v => finite v) m ->
  finite (computeMaxPriorAcrossEvents events m).
Proof.
  intros Hm. unfold computeMaxPriorAcrossEvents.
  assert (finite (Fin 0)) as H0 by (by eexists). revert H0.
  generalize (Fin 0). induction events as [|e events IH]; intros s Hs; simpl;
    [done|].
  apply IH. destruct (num_gt _ _); [|done]. by apply priorSum_finite.
Qed.

Section Scores.

Variable cfg : Config.
Variable user : User.
Variable events : list (option Event).
Variable eventSimilarity : gmap string (list string).

Lemma weightSum_pos : (0 < weightSum cfg user)%R.
Proof. unfold weightSum. case_bool_decide; lra. Qed.

Lemma prefScore_finite ev : finite (prefScore user ev).
Proof.
  unfold prefScore. destruct (hasPrefs user); [|by eexists].
  apply jaccard_finite.
Qed.

Lemma simScore_finite eid : finite (simScore user eventSimilarity eid).
Proof.
  unfold simScore, hasHistory.
  destruct (Nat.ltb_spec 0 (length (attended user))) as [Hlt|]; [|by eexists].
  simpl. rewrite bool_decide_eq_false_2.
  2:{ apply not_0_INR. lia. }
  simpl. case_bool_decide; by eexists.
Qed.

Lemma geoScore_finite ev :
  distanceDecayKm cfg <> 0%R -> finite (geoScore cfg user ev).
Proof.
  intros Hd. unfold geoScore. destruct (act_geo _); [|by eexists].
  by apply proximityScoreFromKm_finite.
Qed.

Lemma coldScore_finite ev :
  numeric_popularity events -> finite (coldScore user events ev).
Proof.
  intros Hnum. unfold coldScore. destruct (coldStart user) eqn:Hcold;
    [|by eexists].
  pose proof (buildCategoryPopularityMap_finite events Hnum) as Hm.
  destruct (priorSum_finite (popByCat events)
              (default [] (ev_categories ev)) Hm) as [s Hs].
  unfold maxPrior. rewrite Hcold.
  destruct (computeMaxPriorAcrossEvents_finite events (popByCat events) Hm)
    as [m Hmax].
  rewrite Hs, Hmax. unfold num_gt. simpl.
  case_bool_decide; [|by eexists].
  rewrite bool_decide_eq_false_2 by lra. by eexists.
Qed.

Lemma combined_finite ev eid :
  distanceDecayKm cfg <> 0%R -> numeric_popularity events ->
  ev_popularity ev <> Some NaN ->
  finite (combined cfg user events eventSimilarity ev eid).
Proof.
  intros Hd Hnum Hpop. unfold combined.
  apply num_div_finite; [|pose proof weightSum_pos; lra].
  assert (forall (on : bool) w v, finite v ->
            finite (if on then num_mul (Fin w) v else Fin 0)) as Hterm.
  { intros [] w v Hv; [|by eexists]. apply num_mul_finite; [by eexists|done]. }
  repeat apply num_add_finite; apply Hterm.
  - apply prefScore_finite.
  - apply simScore_finite.
  - by apply geoScore_finite.
  - destruct (clampedPopularity_range _ Hpop) as (r & -> & _). by eexists.
  - by apply coldScore_finite.
Qed.

(** What a scored candidate is made of. *)
Lemma scoreEvent_Some e node :
  scoreEvent cfg user events eventSimilarity e = Some node ->
  exists ev eid,
    e = Some ev /\ ev_id ev = Some eid /\ (eid <> ""%string) /\
    (eid ∉ attended user) /\ beyondCutoff cfg user ev = false /\
    event node = ev /\ node_id node = eid /\
    score node = combined cfg user events eventSimilarity ev eid /\
    popularity node = clampedPopularity (ev_popularity ev) /\
    distance node = (if Number_isFinite (distanceKm user ev)
                     then distanceKm user ev else Infinity).
Proof.
  unfold scoreEvent. destruct e as [ev|]; [|done].
  destruct (ev_id ev) as [eid|] eqn:Hid; [|done].
  destruct (String.eqb_spec eid "") as [|Hne]; [done|].
  case_bool_decide as Hatt; [done|].
  destruct (beyondCutoff cfg user ev) eqn:Hcut; [done|].
  intros [= <-]. exists ev, eid. simpl. split_and!; done.
Qed.

Lemma scoreEvent_numeric e node :
  distanceDecayKm cfg <> 0%R -> numeric_popularity events -> e ∈ events ->
  scoreEvent cfg user events eventSimilarity e = Some node ->
  comparable node /\ selectable node.
Proof.
  intros Hd Hnum He Hs.
  apply scoreEvent_Some in Hs
    as (ev & eid & -> & _ & _ & _ & _ & _ & _ & Hsc & Hpop & Hdist).
  assert (ev_popularity ev <> Some NaN) as Hp by by apply Hnum.
  destruct (combined_finite ev eid Hd Hnum Hp) as [s Hs].
  destruct (clampedPopularity_range _ Hp) as (p & Hp' & _).
  unfold comparable, selectable. rewrite Hsc, Hs, Hpop, Hp', Hdist.
  split_and!; try done. by destruct (distanceKm user ev).
Qed.

Lemma candidates_numeric :
  distanceDecayKm cfg <> 0%R -> numeric_popularity events ->
  Forall (fun n => comparable n /\ selectable n)
         (candidates cfg user events eventSimilarity).
Proof.
  intros Hd Hnum. apply Forall_forall. intros node Hn.
  apply list_elem_of_omap in Hn as (e & He & Hs).
  by eapply scoreEvent_numeric.
Qed.

End Scores.


(** ** The pipeline *)

Lemma sortInsert_perm cmp x l : sortInsert cmp x l ≡ₚ x :: l.
Proof.
  induction l as [|y l IH]; cbn [sortInsert]; [done|].
  destruct (num_gt (cmp x y) (Fin 0)); [|done].
  rewrite IH. apply Permutation_swap.
Qed.

Lemma Array_sort_perm cmp l : Array_sort cmp l ≡ₚ l.
Proof.
  induction l as [|x l IH]; simpl; [done|].
  unfold Array_sort in *. simpl. rewrite sortInsert_perm, IH. done.
Qed.

Lemma scoreEvent_eligible cfg user events sim e :
  is_Some (scoreEvent cfg user events sim e) <-> eligible cfg user e = true.
Proof.
  unfold scoreEvent, eligible. destruct e as [ev|]; [|by rewrite is_Some_alt].
  destruct (ev_id ev) as [eid|]; [|by rewrite is_Some_alt].
  destruct (String.eqb eid ""); simpl; [by rewrite is_Some_alt|].
  case_bool_decide; simpl; [by rewrite is_Some_alt|].
  destruct (beyondCutoff cfg user ev); simpl; by rewrite is_Some_alt.
Qed.

Lemma omap_scoreEvent_length cfg user events sim evs :
  length (omap (scoreEvent cfg user events sim) evs) =
  length (filter (fun e => eligible cfg user e = true) evs).
Proof.
  induction evs as [|e evs IH]; simpl; [done|].
  pose proof (scoreEvent_eligible cfg user events sim e) as He.
  rewrite filter_cons. case_decide as Hel.
  - apply He in Hel as [n ->]. simpl. f_equal. exact IH.
  - destruct (scoreEvent cfg user events sim e) eqn:Hs; [|exact IH].
    exfalso. apply Hel, He. by eexists.
Qed.

Lemma candidates_length cfg user events sim :
  length (candidates cfg user events sim) =
  eligibleCandidateCount cfg user events.
Proof. apply omap_scoreEvent_length. Qed.

Lemma eligibleCandidateCount_le cfg user events :
  eligibleCandidateCount cfg user events <= length events.
Proof. unfold eligibleCandidateCount. apply length_filter. Qed.

Section PipelineFacts.

Variable cfg : Config.
Variable localeCompare : string -> string -> Z.
Variable user : User.
Variable events : list (option Event).
Variable eventSimilarity : gmap string (list string).

(** The result, when there is one, lists the events of a permutation of
    the heap left by the scan. *)
Lemma getRecommendedEvents_Some limit out :
  getRecommendedEvents cfg localeCompare user events eventSimilarity limit
  = Some out ->
  out = [] \/
  exists heap nodes,
    scanEvents cfg user events eventSimilarity
      (capacity (default (Fin 5) limit) events) [] events = Some heap /\
    0 < capacity (default (Fin 5) limit) events /\
    nodes ≡ₚ heap /\ out = event <$> nodes.
Proof.
  unfold getRecommendedEvents.
  destruct (_ || _); [intros [= <-]; by left|].
  destruct (Nat.eqb_spec (capacity (default (Fin 5) limit) events) 0) as [|Hk];
    [intros [= <-]; by left|].
  destruct (scanEvents _ _ _ _ _ _ _) as [heap|]; [|done]. simpl.
  destruct (length heap =? 0); [intros [= <-]; by left|].
  destruct (_ && _).
  - destruct (rerankWithCategoryDiversity _ _ _) as [d|] eqn:Hd; [|done].
    simpl. intros [= <-]. right. exists heap, d. split_and!; [done|lia| |done].
    apply rerank_sound in Hd as [Hd _]. by rewrite Hd, Array_sort_perm.
  - simpl. intros [= <-]. right. eexists heap, _.
    split_and!; [done|lia| |done]. apply Array_sort_perm.
Qed.

End PipelineFacts.

(** C1: no event returned by [getRecommendedEvents] has an identifier
    contained in [user.attendedEvents]. *)
Theorem C1_attended_events_excluded cfg localeCompare user events
    eventSimilarity limit out :
  getRecommendedEvents cfg localeCompare user events eventSimilarity limit
  = Some out ->
  forall ev eid atts,
    ev ∈ out -> ev_id ev = Some eid -> attendedEvents user = Some atts ->
    eid ∉ atts.
Proof.
  intros Hout ev eid atts Hev Hid Hatts.
  apply getRecommendedEvents_Some in Hout
    as [->|(heap & nodes & Hscan & Hk & Hperm & ->)].
  { by apply elem_of_nil in Hev. }
  apply list_elem_of_fmap in Hev as (node & -> & Hnode).
  rewrite Hperm in Hnode.
  destruct (scanEvents_total cfg user events eventSimilarity
              (capacity (default (Fin 5) limit) events) events [] Hk)
    as (heap' & Hscan' & _ & Hin); [simpl; lia|].
  rewrite Hscan in Hscan'. simplify_eq.
  destruct (Hin node Hnode) as [H|H]; [by apply elem_of_nil in H|].
  apply list_elem_of_omap in H as (e & _ & Hs).
  apply scoreEvent_Some in Hs
    as (ev & eid' & _ & Hid' & _ & Hnot & _ & Hevn & _).
  rewrite Hevn in Hid. simplify_eq.
  unfold attended in Hnot. by rewrite Hatts in Hnot.
Qed.

(** ** The limit and its 32-bit coercion *)

Lemma Int_part_IZR z : Int_part (IZR z) = z.
Proof. symmetry. apply Int_part_spec. lra. Qed.

Lemma Rtrunc_IZR z : Rtrunc (IZR z) = z.
Proof.
  unfold Rtrunc. case_bool_decide; [apply Int_part_IZR|].
  rewrite <- opp_IZR, Int_part_IZR. lia.
Qed.

Lemma wrap32_small n : (0 <= n < 2 ^ 31)%Z -> wrap32 n = n.
Proof. intros Hn. unfold wrap32. rewrite Z.mod_small; lia. Qed.

Lemma toInt32_small n : (0 <= n < 2 ^ 31)%Z -> toInt32 (Fin (IZR n)) = n.
Proof. intros Hn. simpl. rewrite Rtrunc_IZR. by apply wrap32_small. Qed.

Lemma num_le_IZR_0 n : num_le (Fin (IZR n)) (Fin 0) = bool_decide (n <= 0)%Z.
Proof.
  unfold num_le, num_lt, num_eqb.
  destruct (decide (n <= 0)%Z) as [Hn|Hn].
  - rewrite (bool_decide_eq_true_2 (n <= 0)%Z) by done.
    apply IZR_le in Hn. apply orb_true_iff.
    destruct (decide (IZR n = 0%R)) as [->|Hne].
    + right. by apply bool_decide_eq_true_2.
    + left. apply bool_decide_eq_true_2. lra.
  - rewrite (bool_decide_eq_false_2 (n <= 0)%Z) by done.
    assert (0 < IZR n)%R as Hpos by (apply IZR_lt; lia).
    apply orb_false_iff. split; apply bool_decide_eq_false_2; [lra|].
    intros [= E]. lra.
Qed.

(** ** The heap scan against the full sort *)

(** When every popularity is a number (and the decay constant is not
    zero), the identifiers kept by the bounded heap scan are those of the
    first [k] candidates of the full ranking. *)
Lemma heap_scan_matches_full_sort cfg user events eventSimilarity k :
  distanceDecayKm cfg <> 0%R -> numeric_popularity events -> 0 < k ->
  exists heap,
    scanEvents cfg user events eventSimilarity k [] events = Some heap /\
    node_id <$> heap ≡ₚ
    node_id <$> sortThenTruncate k (candidates cfg user events eventSimilarity).
Proof.
  intros Hd Hnum Hk.
  pose proof (candidates_numeric cfg user events eventSimilarity Hd Hnum) as Hc.
  assert (Forall comparable (candidates cfg user events eventSimilarity)) as Hcmp.
  { eapply Forall_impl; [exact Hc|]. by intros n [? _]. }
  destruct (scanEvents_selects cfg user events eventSimilarity k events [] [])
    as (heap & Hscan & Hsel); [done|done|exact Hcmp| |].
  { split_and!; [|simpl; lia|].
    - intros j _ x y Hx. done.
    - exists []. split; [done|]. by intros ?? ?%elem_of_nil. }
  exists heap. split; [done|].
  rewrite app_nil_r in Hsel.
  fold (candidates cfg user events eventSimilarity) in Hsel.
  apply selects_sortThenTruncate in Hsel; [|by rewrite reverse_Permutation].
  rewrite <- (sortRanked_perm heap) at 1.
  rewrite !node_id_key, Hsel. unfold sortThenTruncate.
  rewrite !fmap_take.
  rewrite (ranking_unique (sortRanked (reverse _)) (sortRanked (candidates cfg user events eventSimilarity))).
  - done.
  - apply sortRanked_sorted. by rewrite reverse_Permutation.
  - by apply sortRanked_sorted.
  - by rewrite !sortRanked_perm, reverse_Permutation.
Qed.

(** ** The length of the result *)

(** C2, as amended: for a limit that is an integer in [0, 2^31), on
    events whose popularities are numbers, [getRecommendedEvents] returns
    a list of length min(limit, eligibleCandidateCount). *)
Theorem C2_length_is_min_limit_eligible cfg localeCompare user events
    eventSimilarity (n : Z) :
  distanceDecayKm cfg <> 0%R -> numeric_popularity events ->
  (0 <= n < 2 ^ 31)%Z ->
  exists out,
    getRecommendedEvents cfg localeCompare user events eventSimilarity
      (Some (Fin (IZR n))) = Some out /\
    Z.of_nat (length out) =
    Z.min n (Z.of_nat (eligibleCandidateCount cfg user events)).
Proof.
  intros Hd Hnum Hn. unfold getRecommendedEvents. simpl default.
  pose proof (eligibleCandidateCount_le cfg user events) as Hle.
  destruct (Nat.eqb_spec (length events) 0) as [Hlen|Hlen].
  { exists []. split; [done|]. simpl. lia. }
  rewrite num_le_IZR_0. simpl orb. case_bool_decide as Hn0.
  { exists []. split; [done|]. simpl. lia. }
  unfold capacity. rewrite toInt32_small by done.
  set (k := Nat.min (Z.to_nat (Z.max 0 n)) (length events)).
  assert (0 < k) as Hk by lia.
  destruct (Nat.eqb_spec k 0) as [|_]; [lia|].
  destruct (scanEvents_total cfg user events eventSimilarity k events [] Hk)
    as (heap & -> & Hhl & Hin); [simpl; lia|].
  simpl in Hhl. fold (candidates cfg user events eventSimilarity) in Hhl.
  rewrite candidates_length in Hhl. simpl.
  destruct (Nat.eqb_spec (length heap) 0) as [Hh0|Hh0].
  { exists []. split; [done|]. simpl. lia. }
  pose proof (Array_sort_perm (rankCompare localeCompare) heap) as Hsort.
  destruct (_ && _).
  - destruct (rerank_permutation (Array_sort (rankCompare localeCompare) heap)
                (alpha (diversity cfg)) (perCategoryCap (diversity cfg)))
      as (d & -> & Hperm).
    { rewrite Hsort. apply Forall_forall. intros x Hx.
      destruct (Hin x Hx) as [H|H]; [by apply elem_of_nil in H|].
      pose proof (candidates_numeric cfg user events eventSimilarity Hd Hnum)
        as Hc.
      rewrite Forall_forall in Hc. by apply Hc. }
    simpl. eexists. split; [done|].
    rewrite length_fmap, Hperm, Hsort. lia.
  - simpl. eexists. split; [done|]. rewrite length_fmap, Hsort. lia.
Qed.


(** ** The Haversine distance *)

Lemma sin_half_sq x : (sin (x / 2) * sin (x / 2) = (1 - cos x) / 2)%R.
Proof.
  replace x with (2 * (x / 2))%R at 3 by lra.
  rewrite cos_2a_sin. lra.
Qed.

Lemma haversine_bounds lat1 lat2 dLng :
  (0 <= haversine lat1 lat2 dLng <= 1)%R.
Proof.
  unfold haversine. rewrite !sin_half_sq, cos_minus.
  pose proof (COS_bound dLng) as Hl.
  pose proof (COS_bound (lat2 - lat1)) as Hm. rewrite cos_minus in Hm.
  pose proof (COS_bound (lat2 + lat1)) as Hp. rewrite cos_plus in Hp.
  set (c1 := cos lat1) in *. set (c2 := cos lat2) in *.
  set (s1 := sin lat1) in *. set (s2 := sin lat2) in *.
  set (t := cos dLng) in *. clearbody c1 c2 s1 s2 t.
  split; nra.
Qed.

Lemma atan2_nonneg y x : (0 <= y)%R -> (0 <= x)%R -> (0 <= atan2 y x)%R.
Proof.
  intros Hy Hx. unfold atan2. pose proof PI_RGT_0.
  repeat case_bool_decide; try lra.
  destruct (Req_dec y 0) as [->|Hne].
  - unfold Rdiv. rewrite Rmult_0_l, atan_0. lra.
  - left. rewrite <- atan_0. apply atan_increasing.
    apply Rdiv_lt_0_compat; lra.
Qed.

Lemma toRad_Fin x : toRad (Fin x) = Fin (x * PI / 180).
Proof.
  unfold toRad. simpl. rewrite bool_decide_eq_false_2 by lra. done.
Qed.

Lemma hasValidLocation_true loc :
  hasValidLocation loc = true ->
  exists la ln, loc = Some {| lat := Fin la; lng := Fin ln |}.
Proof.
  destruct loc as [[[| |la|] [| |ln|]]|]; simpl; try done. eauto.
Qed.

(** On valid points the code computes the textbook formula. *)
Lemma calculateDistance_valid la1 ln1 la2 ln2 :
  calculateDistance (Some {| lat := Fin la1; lng := Fin ln1 |})
                    (Some {| lat := Fin la2; lng := Fin ln2 |})
  = let a := haversine (la1 * PI / 180) (la2 * PI / 180)
                       ((ln2 - ln1) * PI / 180) in
    Fin (6371 * (2 * atan2 (sqrt a) (sqrt (1 - a)))).
Proof.
  pose proof (haversine_bounds (la1 * PI / 180) (la2 * PI / 180)
                ((ln2 - ln1) * PI / 180)) as Hb.
  unfold calculateDistance.
  cbn [hasValidLocation lat lng Number_isFinite andb negb orb].
  rewrite !toRad_Fin. cbn [num_sub num_neg num_add]. rewrite toRad_Fin.
  cbn [num_div]. rewrite !(bool_decide_eq_false_2 (2 = 0)%R) by lra.
  cbn [Math_sin Math_cos num_sq num_mul num_add num_sub num_neg Math_sqrt].
  cbv zeta. unfold haversine, Rminus in Hb |- *.
  match type of Hb with (0 <= ?E <= 1)%R => generalize dependent E end.
  intros a Ha. rewrite !bool_decide_eq_false_2 by lra. done.
Qed.

(** Over exact reals the contract that the specification gives for the
    distance holds: the sentinel [Infinity] if either argument lacks
    finite latitude and longitude; otherwise a non-negative finite number
    of kilometres, and exactly 0 from a valid point to itself.  The
    theorem after this one shows what binary64 makes of it. *)
Lemma calculateDistance_ideal_contract :
  (forall p1 p2,
     hasValidLocation p1 = false \/ hasValidLocation p2 = false ->
     calculateDistance p1 p2 = Infinity) /\
  (forall p1 p2,
     hasValidLocation p1 = true -> hasValidLocation p2 = true ->
     exists km, calculateDistance p1 p2 = Fin km /\ (0 <= km)%R) /\
  (forall p, hasValidLocation p = true -> calculateDistance p p = Fin 0).
Proof.
  split_and!.
  - intros p1 p2 H. unfold calculateDistance.
    destruct H as [-> | ->]; simpl; [done|]. by rewrite orb_true_r.
  - intros p1 p2 (la1 & ln1 & ->)%hasValidLocation_true
      (la2 & ln2 & ->)%hasValidLocation_true.
    rewrite calculateDistance_valid. cbv zeta.
    pose proof (haversine_bounds (la1 * PI / 180) (la2 * PI / 180)
                  ((ln2 - ln1) * PI / 180)) as Hb.
    eexists. split; [done|].
    set (a := haversine _ _ _) in *.
    pose proof (atan2_nonneg (sqrt a) (sqrt (1 - a))
                  (sqrt_pos _) (sqrt_pos _)). lra.
  - intros p (la & ln & ->)%hasValidLocation_true.
    rewrite calculateDistance_valid. cbv zeta. f_equal.
    unfold haversine.
    replace ((la * PI / 180 - la * PI / 180) / 2)%R with 0%R by lra.
    replace ((ln - ln) * PI / 180 / 2)%R with 0%R by lra.
    rewrite sin_0.
    replace (0 * 0 + cos (la * PI / 180) * cos (la * PI / 180) * (0 * 0))%R
      with 0%R by lra.
    rewrite Rminus_0_r, sqrt_0, sqrt_1. unfold atan2.
    rewrite bool_decide_eq_true_2 by lra.
    unfold Rdiv. rewrite Rmult_0_l, atan_0. lra.
Qed.

(** C7 does not hold of the code.  In binary64 [calculateDistance]
    returns the sentinel [Infinity] when an argument lacks finite
    latitude and longitude, as claimed; but for valid points it can
    return [NaN], which is neither 0 nor a non-negative finite number:
    - from [hugePoint] to itself, on every host: the point is valid, the
      product in [toRad] overflows, and [Infinity - Infinity] is [NaN];
    - from [southPoint] to [northPoint], on a host that returns the
      nearest doubles there: [a] rounds to a number above 1, and
      [Math.sqrt(1 - a)] is [NaN]. *)
Theorem C7_calculateDistance_returns_NaN :
  (forall host p1 p2,
     Binary64.hasValidLocation p1 = false \/
     Binary64.hasValidLocation p2 = false ->
     Binary64.calculateDistance host p1 p2 = Binary64.Infinity) /\
  (Binary64.hasValidLocation (Some Binary64Inputs.hugePoint) = true /\
   forall host,
     Binary64.isNaN
       (Binary64.calculateDistance host (Some Binary64Inputs.hugePoint)
          (Some Binary64Inputs.hugePoint)) = true) /\
  (Binary64.hasValidLocation (Some Binary64Inputs.southPoint) = true /\
   Binary64.hasValidLocation (Some Binary64Inputs.northPoint) = true /\
   forall host,
     Binary64Inputs.nearestAt12 host ->
     Binary64Inputs.exceedsOne
       (Binary64.haversine host Binary64Inputs.southPoint
          Binary64Inputs.northPoint) = true /\
     Binary64.isNaN
       (Binary64.calculateDistance host (Some Binary64Inputs.southPoint)
          (Some Binary64Inputs.northPoint)) = true).
Proof.
  split_and!.
  - intros host p1 p2 H. unfold Binary64.calculateDistance.
    destruct H as [-> | ->]; cbn [negb orb]; [done|]. by rewrite orb_true_r.
  - vm_compute. reflexivity.
  - intros host. vm_compute. reflexivity.
  - vm_compute. reflexivity.
  - vm_compute. reflexivity.
  - intros host (Hs12 & Hs90 & Hc12 & Hc12' & Hp12 & Hp1).
    vm_compute in Hs12, Hs90, Hc12, Hc12', Hp12, Hp1.
    split; vm_compute; rewrite ?Hs12, ?Hs90, ?Hc12, ?Hc12'; vm_compute;
      rewrite ?Hp12, ?Hp1; vm_compute; reflexivity.
Qed.

(** ** Proximity *)

Lemma proximityScoreFromKm_Fin d d0 :
  (0 < d)%R -> d0 <> 0%R ->
  proximityScoreFromKm (Fin d) (Fin d0) = Fin (exp (- d / d0)).
Proof.
  intros Hd Hd0. unfold proximityScoreFromKm. simpl.
  rewrite bool_decide_eq_true_2 by done. simpl.
  rewrite bool_decide_eq_false_2 by done. done.
Qed.

Lemma exp_le x y : (x <= y)%R -> (exp x <= exp y)%R.
Proof.
  intros [H| ->]; [|lra]. left. by apply exp_increasing.
Qed.

(** C9: for a fixed positive finite distance [d] and decay constants
    [0 < d0 <= d0'], the proximity score with [d0] is at most the one
    with [d0']. *)
Theorem C9_proximity_monotone_in_decay (d d0 d0' : R) :
  (0 < d)%R -> (0 < d0)%R -> (d0 <= d0')%R ->
  exists s s',
    proximityScoreFromKm (Fin d) (Fin d0) = Fin s /\
    proximityScoreFromKm (Fin d) (Fin d0') = Fin s' /\
    (s <= s')%R /\
    num_le (proximityScoreFromKm (Fin d) (Fin d0))
           (proximityScoreFromKm (Fin d) (Fin d0')) = true.
Proof.
  intros Hd H0 Hle.
  rewrite !proximityScoreFromKm_Fin by lra.
  assert (exp (- d / d0) <= exp (- d / d0'))%R as Hexp.
  { apply exp_le. unfold Rdiv. rewrite !Ropp_mult_distr_l_reverse.
    apply Ropp_le_contravar. apply Rmult_le_compat_l; [lra|].
    apply Rinv_le_contravar; lra. }
  eexists _, _. split_and!; [done..|].
  unfold num_le, num_lt, num_eqb.
  destruct Hexp as [Hlt|Heq].
  - by rewrite bool_decide_eq_true_2.
  - rewrite Heq, (bool_decide_eq_true_2 (Fin _ = Fin _)) by done.
    apply orb_true_r.
Qed.


(** ** The combined score against the normalised weighted sum *)





Lemma clampedPopularity_NaN_score cfg user events eventSimilarity ev eid :
  ev_popularity ev = Some NaN ->
  combined cfg user events eventSimilarity ev eid = NaN.
Proof.
  intros Hp. unfold combined. rewrite Hp. simpl.
  assert (forall x, num_add x NaN = NaN) as Hr by (by intros []).
  rewrite Hr. done.
Qed.


(** ** The limit argument *)

Lemma Int_part_nonneg x : (0 <= x)%R -> (0 <= Int_part x)%Z.
Proof.
  intros Hx. destruct (base_Int_part x) as [_ H].
  assert (-1 < IZR (Int_part x))%R as Hlt by lra.
  apply lt_IZR in Hlt. lia.
Qed.

Lemma Rtrunc_nonpos x : (x <= 0)%R -> (Rtrunc x <= 0)%Z.
Proof.
  intros Hx. unfold Rtrunc. case_bool_decide as H0.
  - assert (x = 0%R) as -> by lra. rewrite Int_part_IZR. done.
  - pose proof (Int_part_nonneg (- x) ltac:(lra)). lia.
Qed.

Lemma Rtrunc_pos x : (0 < x)%R -> Rtrunc x = Int_part x /\ (0 <= Rtrunc x)%Z.
Proof.
  intros Hx. unfold Rtrunc. rewrite bool_decide_eq_true_2 by lra.
  split; [done|]. apply Int_part_nonneg. lra.
Qed.

Lemma num_le_Fin_0 x : num_le (Fin x) (Fin 0) = bool_decide (x <= 0)%R.
Proof.
  unfold num_le, num_lt, num_eqb.
  destruct (decide (x <= 0)%R) as [Hx|Hx].
  - rewrite (bool_decide_eq_true_2 (x <= 0)%R) by done.
    apply orb_true_iff. destruct Hx as [Hlt| ->].
    + left. by apply bool_decide_eq_true_2.
    + right. by apply bool_decide_eq_true_2.
  - rewrite (bool_decide_eq_false_2 (x <= 0)%R) by done.
    apply orb_false_iff. split; apply bool_decide_eq_false_2; [lra|].
    intros [= E]. lra.
Qed.


(** A limit in [2^31, 2^32) wraps to a negative capacity request: the
    result is empty. *)
Lemma getRecommendedEvents_wrapped_limit cfg localeCompare user events
    eventSimilarity (n : Z) :
  (2 ^ 31 <= n < 2 ^ 32)%Z ->
  getRecommendedEvents cfg localeCompare user events eventSimilarity
    (Some (Fin (IZR n))) = Some [].
Proof.
  intros Hn. unfold getRecommendedEvents. simpl default.
  rewrite num_le_IZR_0, bool_decide_eq_false_2 by lia.
  destruct (length events =? 0); [done|]. simpl orb.
  unfold capacity. simpl toInt32. rewrite Rtrunc_IZR.
  assert (wrap32 n = (n - 2 ^ 32)%Z) as ->.
  { unfold wrap32.
    replace (n + 2 ^ 31)%Z with ((n - 2 ^ 31) + 1 * 2 ^ 32)%Z by lia.
    rewrite Z.mod_add by lia. rewrite Z.mod_small by lia. lia. }
  rewrite Z.max_l by lia. done.
Qed.


(** ** Missing locations *)

(** C3, as amended: whenever the user's or the candidate's location is
    missing or invalid, the candidate's distance is the [Infinity]
    sentinel and its proximity value is the number 0, never [NaN]; the
    geo signal is active exactly when the user's own location is valid,
    whatever the candidate's. *)
Theorem C3_missing_location_scores_zero cfg user ev :
  hasValidLocation (user_location user) = false \/
  hasValidLocation (ev_location ev) = false ->
  distanceKm user ev = Infinity /\
  geoScore cfg user ev = Fin 0 /\
  (if act_geo (active user)
   then num_mul (Fin (w_geo (weights cfg))) (geoScore cfg user ev)
   else Fin 0) = Fin 0 /\
  act_geo (active user) = hasValidLocation (user_location user).
Proof.
  intros H.
  assert (located user ev = false) as Hloc.
  { unfold located, hasGeo. destruct H as [-> | ->]; [done|apply andb_false_r]. }
  assert (distanceKm user ev = Infinity) as Hd.
  { unfold distanceKm. by rewrite Hloc. }
  assert (geoScore cfg user ev = Fin 0) as Hg.
  { unfold geoScore. rewrite Hd. by destruct (act_geo _). }
  split_and!; [done|done| |done].
  rewrite Hg. destruct (act_geo _); [|done]. simpl. f_equal. lra.
Qed.

(** ** Witnesses and counterexamples *)

Lemma numeric_popularity_plain (l : list (string * R)) :
  numeric_popularity ((fun p => Some (plainEvent (fst p) (Fin (snd p)))) <$> l).
Proof.
  intros ev (p & E & _)%list_elem_of_fmap. by simplify_eq.
Qed.

Lemma CONFIG_decay : distanceDecayKm CONFIG <> 0%R.
Proof. simpl. lra. Qed.

Lemma CONFIG_weights_nonneg : weights_nonneg CONFIG.
Proof. unfold weights_nonneg. simpl. lra. Qed.

(** Witness of C1: the attended event [e1] is left out. *)
Lemma C1_witness :
  getRecommendedEvents CONFIG codeUnitCompare regular
    [Some (plainEvent "e1" (Fin 1)); Some (plainEvent "e2" (Fin (1 / 2)))]
    ∅ (Some (Fin 1))
  = Some [plainEvent "e2" (Fin (1 / 2))] /\
  "e2" ∉ ["e1"].
Proof.
  assert (getRecommendedEvents CONFIG codeUnitCompare regular
            [Some (plainEvent "e1" (Fin 1)); Some (plainEvent "e2" (Fin (1 / 2)))]
            ∅ (Some (Fin 1))
          = Some [plainEvent "e2" (Fin (1 / 2))]) as Hrun.
  { unfold getRecommendedEvents. simpl default.
    rewrite num_le_Fin_0, bool_decide_eq_false_2 by lra.
    unfold capacity. rewrite (toInt32_small 1) by lia.
    vm_compute. reflexivity. }
  split; [exact Hrun|].
  apply (C1_attended_events_excluded _ _ _ _ _ _ _ Hrun
           (plainEvent "e2" (Fin (1 / 2))) "e2" ["e1"]).
  - apply list_elem_of_singleton. reflexivity.
  - reflexivity.
  - reflexivity.
Defined.

(** C2 as stated fails: with the non-negative integer limit 2^31 and one
    eligible candidate the result is empty, not of length 1. *)
Lemma C2_counterexample :
  exists out,
    getRecommendedEvents CONFIG codeUnitCompare fan
      [Some (plainEvent "e1" (Fin 1))] ∅ (Some (Fin (IZR (2 ^ 31)))) = Some out /\
    Z.of_nat (length out) <>
    Z.min (2 ^ 31)
          (Z.of_nat (eligibleCandidateCount CONFIG fan
                       [Some (plainEvent "e1" (Fin 1))])).
Proof.
  exists []. split.
  - apply getRecommendedEvents_wrapped_limit. lia.
  - vm_compute. discriminate.
Qed.

(** Witness of C2: limit 1 and two eligible candidates. *)
Lemma C2_witness :
  exists out,
    getRecommendedEvents CONFIG codeUnitCompare fan
      [Some (plainEvent "e1" (Fin 1)); Some (plainEvent "e2" (Fin (1 / 2)))]
      ∅ (Some (Fin (IZR 1))) = Some out /\
    Z.of_nat (length out) =
    Z.min 1 (Z.of_nat (eligibleCandidateCount CONFIG fan
               [Some (plainEvent "e1" (Fin 1));
                Some (plainEvent "e2" (Fin (1 / 2)))])).
Proof.
  apply (C2_length_is_min_limit_eligible CONFIG codeUnitCompare fan
           [Some (plainEvent "e1" (Fin 1)); Some (plainEvent "e2" (Fin (1 / 2)))]
           ∅ 1).
  - simpl. lra.
  - apply (numeric_popularity_plain [("e1", 1%R); ("e2", (1 / 2)%R)]).
  - lia.
Defined.

(** C3 as stated fails: for a user with a valid location and an event
    without one, the proximity value is the number 0 and the geo signal
    stays active. *)
Lemma C3_counterexample :
  ~ (hasValidLocation (ev_location (plainEvent "e1" (Fin 1))) = false ->
     geoScore CONFIG localUser (plainEvent "e1" (Fin 1)) <> Fin 0 /\
     act_geo (active localUser) = false).
Proof.
  intros H. destruct (H eq_refl) as [_ Hact]. discriminate Hact.
Qed.

(** Witness of C3: the event has no location. *)
Lemma C3_witness :
  distanceKm localUser (plainEvent "e1" (Fin 1)) = Infinity /\
  geoScore CONFIG localUser (plainEvent "e1" (Fin 1)) = Fin 0 /\
  (if act_geo (active localUser)
   then num_mul (Fin (w_geo (weights CONFIG)))
                (geoScore CONFIG localUser (plainEvent "e1" (Fin 1)))
   else Fin 0) = Fin 0 /\
  act_geo (active localUser) = hasValidLocation (user_location localUser).
Proof.
  apply (C3_missing_location_scores_zero CONFIG localUser
           (plainEvent "e1" (Fin 1))).
  right. reflexivity.
Defined.


(** Witness of C7: the distance between the two nearly antipodal points
    on [tableHost]. *)
Lemma C7_witness :
  Binary64Inputs.exceedsOne
    (Binary64.haversine Binary64Inputs.tableHost Binary64Inputs.southPoint
       Binary64Inputs.northPoint) = true /\
  Binary64.isNaN
    (Binary64.calculateDistance Binary64Inputs.tableHost
       (Some Binary64Inputs.southPoint)
       (Some Binary64Inputs.northPoint)) = true.
Proof.
  destruct C7_calculateDistance_returns_NaN as (_ & _ & _ & _ & Hnear).
  apply Hnear. vm_compute. repeat split; reflexivity.
Defined.

(** Witness of C9: 100 km with decay constants 500 and 1000. *)
Lemma C9_witness :
  exists s s',
    proximityScoreFromKm (Fin 100) (Fin 500) = Fin s /\
    proximityScoreFromKm (Fin 100) (Fin 1000) = Fin s' /\
    (s <= s')%R /\
    num_le (proximityScoreFromKm (Fin 100) (Fin 500))
           (proximityScoreFromKm (Fin 100) (Fin 1000)) = true.
Proof.
  apply (C9_proximity_monotone_in_decay 100 500 1000); lra.
Defined.


(** ** What a [NaN] popularity does *)

Lemma num_eqb_NaN_r a : num_eqb a NaN = false.
Proof. by destruct a. Qed.

(** Nothing is worse, and nothing is better, than a node whose score is
    [NaN]. *)
Lemma heapLess_NaN_r a b : score b = NaN -> heapLess a b = false.
Proof.
  intros Hb. unfold heapLess, num_neqb. by rewrite Hb, num_eqb_NaN_r, num_lt_NaN_r.
Qed.

Lemma betterThan_NaN_r a b : score b = NaN -> betterThan a b = false.
Proof.
  intros Hb. unfold betterThan, num_neqb, num_gt. by rewrite Hb, num_eqb_NaN_r.
Qed.

Lemma betterThan_NaN_l a b : score a = NaN -> betterThan a b = false.
Proof.
  intros Ha. unfold betterThan, num_neqb, num_gt. by rewrite Ha, num_lt_NaN_r.
Qed.

Lemma betterThan_score a b x y :
  score a = Fin x -> score b = Fin y -> (x < y)%R ->
  betterThan a b = false /\ betterThan b a = true.
Proof.
  intros Ha Hb Hxy. unfold betterThan, num_neqb, num_eqb, num_gt, num_lt.
  rewrite Ha, Hb.
  rewrite !(bool_decide_eq_false_2 (Fin _ = Fin _)) by (intros [= ?]; lra).
  simpl. rewrite bool_decide_eq_false_2, bool_decide_eq_true_2 by lra. done.
Qed.

(** The score that [fan] gives to a plain event. *)
Lemma fan_score events eid p :
  (0 <= p <= 1)%R ->
  combined CONFIG fan events ∅ (plainEvent eid (Fin p)) eid
  = Fin (3 / 10 * p).
Proof.
  intros Hp. unfold combined, weightSum. simpl.
  repeat (case_bool_decide; simpl); try lra; f_equal; lra.
Qed.

Lemma fan_scoreEvent events eid pop :
  eid <> "" ->
  scoreEvent CONFIG fan events ∅ (Some (plainEvent eid pop))
  = Some (plainNode (combined CONFIG fan events ∅ (plainEvent eid pop) eid)
                    eid pop).
Proof.
  intros Hne. unfold scoreEvent. cbn [plainEvent ev_id].
  destruct (String.eqb_spec eid "") as [|_]; [done|].
  rewrite bool_decide_eq_false_2 by apply not_elem_of_nil. done.
Qed.

Lemma nanFirst_candidates :
  candidates CONFIG fan nanFirst ∅
  = [plainNode NaN "n1" NaN; plainNode (Fin (3 / 10 * (1 / 2))) "a" (Fin (1 / 2));
     plainNode (Fin (3 / 10 * (9 / 10))) "b" (Fin (9 / 10))].
Proof.
  unfold candidates, nanFirst. cbn [omap list_omap].
  rewrite !fan_scoreEvent by done.
  rewrite clampedPopularity_NaN_score by done.
  rewrite !fan_score by lra. done.
Qed.

Lemma nanFirst_scan :
  scanEvents CONFIG fan nanFirst ∅ 2 [] nanFirst
  = Some [plainNode NaN "n1" NaN;
          plainNode (Fin (3 / 10 * (1 / 2))) "a" (Fin (1 / 2))].
Proof.
  unfold nanFirst at 2. cbn [scanEvents]. unfold scanStep.
  rewrite !fan_scoreEvent by done.
  rewrite (clampedPopularity_NaN_score _ _ _ _ (plainEvent "n1" NaN)) by done.
  rewrite !fan_score by lra.
  cbn [length Nat.ltb Nat.leb].
  change (heapPush [] (plainNode NaN "n1" NaN))
    with (Some [plainNode NaN "n1" NaN]).
  cbn [mbind option_bind length Nat.ltb Nat.leb].
  assert (heapPush [plainNode NaN "n1" NaN]
            (plainNode (Fin (3 / 10 * (1 / 2))) "a" (Fin (1 / 2)))
          = Some [plainNode NaN "n1" NaN;
                  plainNode (Fin (3 / 10 * (1 / 2))) "a" (Fin (1 / 2))]) as ->.
  { unfold heapPush, heapSiftUp. cbn [app length Nat.sub].
    rewrite heapSiftUp_loop_S. cbn [Nat.eqb]. simpl lookup.
    cbn [mbind option_bind]. by rewrite heapLess_NaN_r. }
  cbn [mbind option_bind length Nat.ltb Nat.leb]. simpl lookup.
  cbn [mbind option_bind]. by rewrite betterThan_NaN_r.
Qed.

Lemma nanFirst_full_sort :
  node_id <$> sortThenTruncate 2 (candidates CONFIG fan nanFirst ∅)
  = ["b"; "a"].
Proof.
  rewrite nanFirst_candidates.
  unfold sortThenTruncate, sortRanked. cbn [foldr insertRanked].
  rewrite !rankedBefore_betterThan.
  destruct (betterThan_score
              (plainNode (Fin (3 / 10 * (1 / 2))) "a" (Fin (1 / 2)))
              (plainNode (Fin (3 / 10 * (9 / 10))) "b" (Fin (9 / 10)))
              _ _ eq_refl eq_refl ltac:(lra)) as [-> _].
  cbn [insertRanked]. rewrite !rankedBefore_betterThan.
  rewrite !betterThan_NaN_l by done. done.
Qed.

(** With limit 1 the function returns, and what it returns depends on
    the order of the events. *)
Lemma nanPair_run :
  getRecommendedEvents CONFIG codeUnitCompare fan
    [Some (plainEvent "n1" NaN); Some (plainEvent "b" (Fin (9 / 10)))] ∅
    (Some (Fin 1))
  = Some [plainEvent "n1" NaN].
Proof.
  unfold getRecommendedEvents. simpl default.
  rewrite num_le_Fin_0, bool_decide_eq_false_2 by lra.
  unfold capacity. rewrite (toInt32_small 1) by lia.
  change (Nat.min (Z.to_nat (Z.max 0 1)) 2) with 1.
  cbn [length Nat.eqb orb scanEvents]. unfold scanStep.
  rewrite !fan_scoreEvent by done.
  rewrite (clampedPopularity_NaN_score _ _ _ _ (plainEvent "n1" NaN)) by done.
  rewrite fan_score by lra.
  vm_compute. reflexivity.
Qed.

Lemma nanPair_swapped_run :
  getRecommendedEvents CONFIG codeUnitCompare fan
    [Some (plainEvent "b" (Fin (9 / 10))); Some (plainEvent "n1" NaN)] ∅
    (Some (Fin 1))
  = Some [plainEvent "b" (Fin (9 / 10))].
Proof.
  unfold getRecommendedEvents. simpl default.
  rewrite num_le_Fin_0, bool_decide_eq_false_2 by lra.
  unfold capacity. rewrite (toInt32_small 1) by lia.
  change (Nat.min (Z.to_nat (Z.max 0 1)) 2) with 1.
  cbn [length Nat.eqb orb scanEvents]. unfold scanStep.
  rewrite !fan_scoreEvent by done.
  rewrite (clampedPopularity_NaN_score _ _ _ _ (plainEvent "n1" NaN)) by done.
  rewrite fan_score by lra.
  vm_compute. reflexivity.
Qed.

(** C4 fails on the code: with limit 2 and the events [nanFirst], the
    heap scan keeps the [NaN]-scored [n1] and [a], and drops [b], whose
    score is above that of [a], while the full sort truncated to 2 keeps
    [b] and [a]; with limit 1 the function returns the [NaN] event or
    [b] according to the order of the two events. *)
Theorem C4_heap_scan_keeps_NaN_node :
  capacity (Fin 2) nanFirst = 2 /\
  (exists heap,
     scanEvents CONFIG fan nanFirst ∅ 2 [] nanFirst = Some heap /\
     node_id <$> heap = ["n1"; "a"] /\
     node_id <$> sortThenTruncate 2 (candidates CONFIG fan nanFirst ∅)
     = ["b"; "a"]) /\
  getRecommendedEvents CONFIG codeUnitCompare fan
    [Some (plainEvent "n1" NaN); Some (plainEvent "b" (Fin (9 / 10)))] ∅
    (Some (Fin 1))
  = Some [plainEvent "n1" NaN] /\
  getRecommendedEvents CONFIG codeUnitCompare fan
    [Some (plainEvent "b" (Fin (9 / 10))); Some (plainEvent "n1" NaN)] ∅
    (Some (Fin 1))
  = Some [plainEvent "b" (Fin (9 / 10))].
Proof.
  split_and!.
  - unfold capacity. rewrite (toInt32_small 2) by lia. done.
  - eexists. split_and!; [apply nanFirst_scan|done|apply nanFirst_full_sort].
  - apply nanPair_run.
  - apply nanPair_swapped_run.
Qed.

(** C8 fails on the code: a popularity of [NaN] is a number for
    [typeof], the clamp returns it unchanged, and it enters the node's
    popularity (the ranking tiebreaker), the score and the category
    prior. *)
Theorem C8_NaN_popularity_is_not_clamped :
  clampedPopularity (Some NaN) = NaN /\
  scoreEvent CONFIG fan [Some (plainEvent "n1" NaN)] ∅
             (Some (plainEvent "n1" NaN)) = Some nanNode /\
  buildCategoryPopularityMap [Some taggedNaN] !! "music" = Some NaN.
Proof.
  split_and!.
  - done.
  - rewrite fan_scoreEvent by done.
    rewrite clampedPopularity_NaN_score by done. done.
  - unfold buildCategoryPopularityMap. simpl.
    by rewrite lookup_insert_eq.
Qed.

(** C6 fails on the code: on a node whose score is [NaN] the inner loop
    selects nothing, [bestIdx] stays [-1] and reading [chosen.event]
    throws; [getRecommendedEvents] throws with it on two events of [NaN]
    popularity. *)
Theorem C6_rerank_throws_on_NaN_score :
  rerankWithCategoryDiversity [nanNode] (alpha (diversity CONFIG))
    (perCategoryCap (diversity CONFIG)) = None /\
  getRecommendedEvents CONFIG codeUnitCompare fan
    [Some (plainEvent "n1" NaN); Some (plainEvent "n2" NaN)] ∅ (Some (Fin 5))
  = None.
Proof.
  split.
  - apply (rerank_throws_on_NaN _ _ _ nanNode); [|done].
    apply list_elem_of_singleton. done.
  - unfold getRecommendedEvents. simpl default.
    rewrite num_le_Fin_0, bool_decide_eq_false_2 by lra.
    unfold capacity. rewrite (toInt32_small 5) by lia.
    vm_compute. reflexivity.
Qed.

(** ** Two runs on ordinary inputs *)

Ltac js_step :=
  first
    [ rewrite bool_decide_eq_true_2
        by (cbn [INR]; first [lra | intros; f_equal; lra])
    | rewrite bool_decide_eq_false_2
        by (cbn [INR]; first [lra | intros [= ?]; lra])
    | progress cbn
    | progress unfold heapLess, betterThan, rankCompare, num_neqb, num_eqb,
        num_gt, num_lt, num_sub, num_add, num_neg, penaltyFor ].

Ltac map_step :=
  first
    [ rewrite lookup_empty
    | rewrite lookup_insert_eq
    | rewrite lookup_insert_ne by done
    | rewrite list_lookup_insert_eq by (cbn; lia)
    | rewrite bool_decide_eq_true_2
        by (cbn [INR]; first [lra | intros; f_equal; lra])
    | rewrite bool_decide_eq_false_2
        by (cbn [INR]; first [lra | intros [= ?]; lra])
    | progress cbn [foldl Datatypes.id default length Nat.eqb Nat.max INR
                    scanBest rerankLoop fst snd score event ev_categories
                    andb Number_isFinite mbind option_bind app replicate
                    Nat.ltb Nat.leb negb orb Nat.add Init.Nat.add]
    | progress unfold num_ge, num_le, num_gt, num_lt, num_eqb, num_sub,
        num_add, num_neg, num_mul, penaltyFor
    | progress simpl (@lookup nat Node (list Node) _ _ _)
    | progress simpl (@insert nat bool (list bool) _ _ _ _) ].

(** With the default limit, two events given in the wrong order come
    back ranked by score: the scan, the sort and the re-rank all run. *)
Example two_events_ranked :
  getRecommendedEvents CONFIG codeUnitCompare fan
    [Some (plainEvent "e2" (Fin (1 / 2))); Some (plainEvent "e1" (Fin 1))]
    ∅ None
  = Some [plainEvent "e1" (Fin 1); plainEvent "e2" (Fin (1 / 2))].
Proof.
  unfold getRecommendedEvents. simpl default.
  rewrite num_le_Fin_0, bool_decide_eq_false_2 by lra.
  unfold capacity. rewrite (toInt32_small 5) by lia.
  set (k := Nat.min _ _). vm_compute in k. subst k.
  cbn [length Nat.eqb orb scanEvents]. unfold scanStep.
  rewrite !fan_scoreEvent by done.
  rewrite !fan_score by lra.
  unfold plainNode, clampedPopularity, Math_max, Math_min.
  repeat js_step.
  reflexivity.
Qed.

(** With [alpha = 1] the second music event, penalised by the one
    already chosen, falls behind the art event. *)
Example rerank_diversifies :
  rerankWithCategoryDiversity
    [catNode (9 / 10) "m1" "music"; catNode (8 / 10) "m2" "music";
     catNode (5 / 10) "a1" "art"] 1 (Fin 3)
  = Some [catNode (9 / 10) "m1" "music"; catNode (5 / 10) "a1" "art";
          catNode (8 / 10) "m2" "music"].
Proof.
  unfold rerankWithCategoryDiversity, catNode.
  repeat map_step.
  reflexivity.
Qed.

(** * Further properties of the code *)

(** The solvers of stdpp clear hypotheses that are already gone. *)
Set Warnings "-clear-no-such-hyp".

(** ** Jaccard similarity *)

Lemma size_inclusion_exclusion (A B : gset string) :
  size A + size B - size (A ∩ B) = size (A ∪ B).
Proof.
  pose proof (size_union_alt A B) as ->.
  assert (size B = size (B ∖ A) + size (A ∩ B)) as ->; [|lia].
  pose proof (size_difference_alt B A) as ->.
  assert (size (B ∩ A) <= size B) by (apply subseteq_size; set_solver).
  replace (A ∩ B) with (B ∩ A) by set_solver. lia.
Qed.

Lemma list_to_set_nonempty (a : list string) :
  a <> [] -> 0 < size (list_to_set a : gset string).
Proof.
  destruct a as [|x a]; [done|]. intros _.
  assert (size (list_to_set (x :: a) : gset string) <> 0); [|lia].
  intros H%size_empty_inv. set_solver.
Qed.

Lemma length_eqb_0 {A} (l : list A) : (length l =? 0) = bool_decide (l = []).
Proof. by destruct l. Qed.

(** On two non-empty arrays the value is the size of the intersection
    over the size of the union of the two sets of elements. *)
Lemma jaccard_nonempty a b :
  a <> [] -> b <> [] ->
  jaccard a b =
  Fin (INR (size (list_to_set a ∩ list_to_set b : gset string)) /
       INR (size (list_to_set a ∪ list_to_set b : gset string))).
Proof.
  intros Ha Hb. unfold jaccard.
  rewrite !length_eqb_0, !bool_decide_eq_false_2 by done. cbn [orb].
  rewrite size_inclusion_exclusion.
  pose proof (list_to_set_nonempty a Ha).
  assert (size (list_to_set a : gset string)
          <= size (list_to_set a ∪ list_to_set b : gset string))
    by (apply subseteq_size; set_solver).
  destruct (Nat.eqb_spec (size (list_to_set a ∪ list_to_set b : gset string)) 0);
    [lia|done].
Qed.

Lemma jaccard_range a b :
  exists r, jaccard a b = Fin r /\ (0 <= r <= 1)%R.
Proof.
  destruct (decide (a = [])) as [->|Ha]; [exists 0%R; split; [done|lra]|].
  destruct (decide (b = [])) as [->|Hb].
  { exists 0%R. split; [|lra]. unfold jaccard. by rewrite orb_true_r. }
  eexists. split; [by apply jaccard_nonempty|].
  set (i := size _). set (u := size _).
  assert (i <= u) as Hiu by (apply subseteq_size; set_solver).
  assert (0 < u) as Hu.
  { pose proof (list_to_set_nonempty a Ha).
    assert (size (list_to_set a : gset string) <= u)
      by (apply subseteq_size; set_solver). lia. }
  apply le_INR in Hiu. apply lt_INR in Hu. simpl in Hu.
  pose proof (pos_INR i).
  split.
  - apply Rmult_le_pos; [done|]. left. by apply Rinv_0_lt_compat.
  - apply (Rmult_le_reg_r (INR u)); [done|].
    unfold Rdiv. rewrite Rmult_assoc, Rinv_l by lra. lra.
Qed.

(** X1: [jaccard] is 0 when an array is empty, and otherwise the size of the
    intersection over the size of the union of the two sets of elements,
    a number between 0 and 1. *)
Theorem X1_jaccard_is_intersection_over_union (a b : list string) :
  (a = [] \/ b = [] -> jaccard a b = Fin 0) /\
  (a <> [] -> b <> [] ->
   jaccard a b =
   Fin (INR (size (list_to_set a ∩ list_to_set b : gset string)) /
        INR (size (list_to_set a ∪ list_to_set b : gset string)))) /\
  exists r, jaccard a b = Fin r /\ (0 <= r <= 1)%R.
Proof.
  split_and!.
  - intros [-> | ->]; unfold jaccard; [done|].
    by rewrite orb_true_r.
  - apply jaccard_nonempty.
  - apply jaccard_range.
Qed.

(** Witness of X1. *)
Lemma X1_witness :
  jaccard ["music"; "art"] ["art"; "food"; "art"] = Fin (INR 1 / INR 3).
Proof.
  destruct (X1_jaccard_is_intersection_over_union
              ["music"; "art"] ["art"; "food"; "art"]) as (_ & H & _).
  rewrite H by done. reflexivity.
Defined.

(** X2: The value depends only on the two sets of elements, and not on which
    array comes first. *)
Theorem X2_jaccard_set_invariant (a a' b b' : list string) :
  (forall x, x ∈ a <-> x ∈ a') -> (forall x, x ∈ b <-> x ∈ b') ->
  jaccard a b = jaccard a' b' /\ jaccard a b = jaccard b a.
Proof.
  intros Ha Hb.
  assert (forall l l' : list string, (forall x, x ∈ l <-> x ∈ l') ->
            (l = [] <-> l' = []) /\
            (list_to_set l : gset string) = list_to_set l') as Hset.
  { intros l l' H. split.
    - destruct l as [|x l], l' as [|y l']; try done.
      + exfalso. apply (not_elem_of_nil y), H. left.
      + exfalso. apply (not_elem_of_nil x), H. left.
    - apply set_eq. intros x. rewrite !elem_of_list_to_set. apply H. }
  destruct (Hset a a' Ha) as [Ea Sa]. destruct (Hset b b' Hb) as [Eb Sb].
  split.
  - unfold jaccard. rewrite !length_eqb_0, Sa, Sb.
    rewrite (bool_decide_ext _ _ Ea), (bool_decide_ext _ _ Eb). done.
  - unfold jaccard. rewrite orb_comm.
    replace (list_to_set b ∩ list_to_set a : gset string)
      with (list_to_set a ∩ list_to_set b : gset string) by set_solver.
    rewrite (Nat.add_comm (size (list_to_set b : gset string))). done.
Qed.

(** Witness of X2. *)
Lemma X2_witness :
  jaccard ["music"; "art"] ["art"; "food"]
  = jaccard ["art"; "music"; "art"] ["food"; "art"] /\
  jaccard ["music"; "art"] ["art"; "food"]
  = jaccard ["art"; "food"] ["music"; "art"].
Proof.
  apply (X2_jaccard_set_invariant ["music"; "art"] ["art"; "music"; "art"]
           ["art"; "food"] ["food"; "art"]).
  - intros x. rewrite !elem_of_cons. set_solver.
  - intros x. rewrite !elem_of_cons. set_solver.
Defined.

(** X3: On non-empty arrays the value is 1 exactly when the two arrays have
    the same elements, and 0 exactly when they share none. *)
Theorem X3_jaccard_extremes (a b : list string) :
  a <> [] -> b <> [] ->
  (jaccard a b = Fin 1 <-> (forall x, x ∈ a <-> x ∈ b)) /\
  (jaccard a b = Fin 0 <-> (forall x, x ∈ a -> x ∉ b)).
Proof.
  intros Ha Hb. rewrite jaccard_nonempty by done.
  set (A := list_to_set a : gset string).
  set (B := list_to_set b : gset string).
  assert (0 < size (A ∪ B)) as Hu.
  { pose proof (list_to_set_nonempty a Ha).
    assert (size A <= size (A ∪ B)) by (apply subseteq_size; set_solver).
    unfold A in *. lia. }
  assert (0 < INR (size (A ∪ B)))%R as HU by (apply (lt_INR 0); lia).
  assert (forall x, x ∈ a <-> x ∈ A) as HA
    by (intros; unfold A; by rewrite elem_of_list_to_set).
  assert (forall x, x ∈ b <-> x ∈ B) as HB
    by (intros; unfold B; by rewrite elem_of_list_to_set).
  split; split.
  - intros [= H].
    assert (INR (size (A ∩ B)) = INR (size (A ∪ B))) as Heq.
    { apply (Rmult_eq_compat_r (INR (size (A ∪ B)))) in H.
      unfold Rdiv in H. rewrite Rmult_assoc, Rinv_l in H by lra. lra. }
    apply INR_eq in Heq.
    assert (A ∩ B = A ∪ B) as Hsets.
    { apply set_subseteq_size_eq; [set_solver|lia]. }
    intros x. rewrite HA, HB. set_solver.
  - intros H. assert (A = B) as <-.
    { apply set_eq. intros x. rewrite <- HA, <- HB. apply H. }
    replace (A ∩ A) with A by set_solver.
    replace (A ∪ A) with A in * by set_solver.
    f_equal. apply Rdiv_diag. lra.
  - intros [= H].
    assert (INR (size (A ∩ B)) = 0)%R as Heq.
    { apply (Rmult_eq_compat_r (INR (size (A ∪ B)))) in H.
      unfold Rdiv in H. rewrite Rmult_assoc, Rinv_l in H by lra. lra. }
    apply (INR_eq _ 0) in Heq. apply size_empty_inv in Heq.
    intros x. rewrite HA, HB. set_solver.
  - intros H. assert (A ∩ B = ∅) as ->.
    { apply set_eq. intros x. specialize (H x). rewrite HA, HB in H.
      set_solver. }
    rewrite size_empty. simpl. f_equal. lra.
Qed.

(** Witness of X3. *)
Lemma X3_witness :
  (jaccard ["music"; "art"] ["art"; "music"] = Fin 1 <->
   (forall x, x ∈ ["music"; "art"] <-> x ∈ ["art"; "music"])) /\
  (jaccard ["music"; "art"] ["art"; "music"] = Fin 0 <->
   (forall x, x ∈ ["music"; "art"] -> x ∉ ["art"; "music"])).
Proof.
  apply (X3_jaccard_extremes ["music"; "art"] ["art"; "music"]); done.
Defined.

(** ** Proximity *)

(** [proximityScoreFromKm] on a finite distance, for a non-zero decay
    constant: negative distances count as 0. *)
Lemma proximityScoreFromKm_exp d d0 :
  d0 <> 0%R ->
  proximityScoreFromKm (Fin d) (Fin d0) = Fin (exp (- Rmax 0 d / d0)).
Proof.
  intros Hd0. unfold proximityScoreFromKm.
  cbn [Number_isFinite negb Math_max num_lt].
  case_bool_decide as Hd; cbn [num_neg num_div];
    rewrite bool_decide_eq_false_2 by done; cbn [Math_exp]; do 2 f_equal.
  - rewrite Rmax_right by lra. done.
  - rewrite Rmax_left by lra. done.
Qed.

Lemma proximityScoreFromKm_range x d0 :
  (0 < d0)%R ->
  exists s, proximityScoreFromKm x (Fin d0) = Fin s /\ (0 <= s <= 1)%R.
Proof.
  intros Hd0. destruct x as [| |d|]; try (exists 0%R; split; [done|lra]).
  rewrite proximityScoreFromKm_exp by lra. eexists. split; [done|].
  split; [left; apply exp_pos|].
  rewrite <- exp_0. apply exp_le.
  pose proof (Rmax_l 0 d).
  assert (0 <= Rmax 0 d * / d0)%R.
  { apply Rmult_le_pos; [done|]. left. by apply Rinv_0_lt_compat. }
  unfold Rdiv. lra.
Qed.

(** X4: For a positive decay constant the proximity lies between 0 and 1; it
    is 0 for a distance that is not finite and 1 for a distance that is
    zero or negative. *)
Theorem X4_proximity_range (d0 : R) :
  (0 < d0)%R ->
  (forall x, exists s,
     proximityScoreFromKm x (Fin d0) = Fin s /\ (0 <= s <= 1)%R) /\
  (forall x, Number_isFinite x = false ->
     proximityScoreFromKm x (Fin d0) = Fin 0) /\
  (forall d, (d <= 0)%R -> proximityScoreFromKm (Fin d) (Fin d0) = Fin 1).
Proof.
  intros Hd0. split_and!.
  - intros x. by apply proximityScoreFromKm_range.
  - intros x Hx. unfold proximityScoreFromKm. by rewrite Hx.
  - intros d Hd. rewrite proximityScoreFromKm_exp by lra.
    rewrite Rmax_left by done. f_equal.
    replace (- 0 / d0)%R with 0%R by (unfold Rdiv; lra). apply exp_0.
Qed.

(** Witness of X4. *)
Lemma X4_witness :
  (exists s, proximityScoreFromKm (Fin 250) (Fin 1000) = Fin s /\
             (0 <= s <= 1)%R) /\
  proximityScoreFromKm Infinity (Fin 1000) = Fin 0 /\
  proximityScoreFromKm (Fin 0) (Fin 1000) = Fin 1.
Proof.
  destruct (X4_proximity_range 1000 ltac:(lra)) as (H1 & H2 & H3).
  split_and!; [apply H1|by apply H2|apply H3; lra].
Defined.

(** X5: A larger distance never gives a larger proximity. *)
Theorem X5_proximity_antitone_in_distance (d0 d d' : R) :
  (0 < d0)%R -> (d <= d')%R ->
  exists s s',
    proximityScoreFromKm (Fin d) (Fin d0) = Fin s /\
    proximityScoreFromKm (Fin d') (Fin d0) = Fin s' /\
    (s' <= s)%R.
Proof.
  intros Hd0 Hle. rewrite !proximityScoreFromKm_exp by lra.
  eexists _, _. split_and!; [done..|]. apply exp_le.
  assert (Rmax 0 d <= Rmax 0 d')%R by (apply Rle_max_compat_l; done).
  unfold Rdiv. rewrite <- !Ropp_mult_distr_l. apply Ropp_le_contravar.
  apply Rmult_le_compat_r; [|done]. left. by apply Rinv_0_lt_compat.
Qed.

(** Witness of X5. *)
Lemma X5_witness :
  exists s s',
    proximityScoreFromKm (Fin 100) (Fin 1000) = Fin s /\
    proximityScoreFromKm (Fin 2500) (Fin 1000) = Fin s' /\
    (s' <= s)%R.
Proof.
  apply (X5_proximity_antitone_in_distance 1000 100 2500); lra.
Defined.

(** ** The Haversine distance *)

Lemma haversine_sym lat1 lat2 dLng :
  haversine lat1 lat2 dLng = haversine lat2 lat1 (- dLng).
Proof.
  unfold haversine.
  replace ((lat1 - lat2) / 2)%R with (- ((lat2 - lat1) / 2))%R by lra.
  replace (- dLng / 2)%R with (- (dLng / 2))%R by lra.
  rewrite !sin_neg. lra.
Qed.

(** X6: The distance does not depend on the order of the two points. *)
Theorem X6_calculateDistance_symmetric (p1 p2 : option Location) :
  calculateDistance p1 p2 = calculateDistance p2 p1.
Proof.
  destruct (hasValidLocation p1) eqn:H1; cycle 1.
  { unfold calculateDistance. rewrite H1. simpl. by rewrite orb_true_r. }
  destruct (hasValidLocation p2) eqn:H2; cycle 1.
  { unfold calculateDistance. rewrite H2. simpl. by rewrite orb_true_r. }
  apply hasValidLocation_true in H1 as (la1 & ln1 & ->).
  apply hasValidLocation_true in H2 as (la2 & ln2 & ->).
  rewrite !calculateDistance_valid. cbv zeta.
  rewrite haversine_sym.
  replace (- ((ln2 - ln1) * PI / 180))%R with ((ln1 - ln2) * PI / 180)%R by lra.
  done.
Qed.

(** ** The two comparators *)

(** X8: On all nodes, [NaN] keys included, [betterThan(a, b)] is
    [heapLess(b, a)], and two nodes are never each better than the
    other. *)
Theorem X8_betterThan_is_converse_of_heapLess (a b : Node) :
  betterThan a b = heapLess b a /\
  (betterThan a b = true -> betterThan b a = false).
Proof.
  split; [apply betterThan_heapLess|].
  rewrite !betterThan_heapLess. unfold heapLess.
  rewrite (num_neqb_sym (score a)), (num_neqb_sym (distance a)),
    (num_neqb_sym (popularity a)).
  destruct (num_neqb (score b) (score a)).
  { apply num_lt_asym. }
  destruct (num_neqb (distance b) (distance a)).
  { unfold num_gt. apply num_lt_asym. }
  destruct (num_neqb (popularity b) (popularity a)).
  { apply num_lt_asym. }
  unfold str_lt, String.ltb.
  rewrite (String.compare_antisym (node_id b) (node_id a)).
  by destruct (String.compare (node_id a) (node_id b)).
Qed.

(** Witness of X8. *)
Lemma X8_witness :
  betterThan nanNode (catNode 1 "e1" "music")
  = heapLess (catNode 1 "e1" "music") nanNode /\
  (betterThan nanNode (catNode 1 "e1" "music") = true ->
   betterThan (catNode 1 "e1" "music") nanNode = false).
Proof.
  apply (X8_betterThan_is_converse_of_heapLess nanNode (catNode 1 "e1" "music")).
Defined.

(** X9: On nodes whose keys are not [NaN], [heapLess] is a strict total
    order on the keys: irreflexive, transitive, asymmetric, and two nodes
    neither of which is worse have the same key. *)
Theorem X9_heapLess_strict_total_order (a b c : Node) :
  comparable a -> comparable b -> comparable c ->
  heapLess a a = false /\
  (heapLess a b = true -> heapLess b c = true -> heapLess a c = true) /\
  (heapLess a b = true -> heapLess b a = false) /\
  (heapLess a b = false -> heapLess b a = false -> key a = key b).
Proof.
  intros Ha Hb Hc. split_and!.
  - apply heapLess_irrefl.
  - by apply heapLess_trans.
  - by apply heapLess_asym.
  - by apply heapLess_connected.
Qed.

Lemma catNode_comparable s eid cat : comparable (catNode s eid cat).
Proof. by repeat split. Qed.

(** Witness of X9. *)
Lemma X9_witness :
  heapLess (catNode 1 "e1" "music") (catNode 1 "e1" "music") = false /\
  (heapLess (catNode 1 "e1" "music") (catNode 2 "e2" "art") = true ->
   heapLess (catNode 2 "e2" "art") (catNode 3 "e3" "food") = true ->
   heapLess (catNode 1 "e1" "music") (catNode 3 "e3" "food") = true) /\
  (heapLess (catNode 1 "e1" "music") (catNode 2 "e2" "art") = true ->
   heapLess (catNode 2 "e2" "art") (catNode 1 "e1" "music") = false) /\
  (heapLess (catNode 1 "e1" "music") (catNode 2 "e2" "art") = false ->
   heapLess (catNode 2 "e2" "art") (catNode 1 "e1" "music") = false ->
   key (catNode 1 "e1" "music") = key (catNode 2 "e2" "art")).
Proof.
  apply (X9_heapLess_strict_total_order (catNode 1 "e1" "music")
           (catNode 2 "e2" "art") (catNode 3 "e3" "food"));
    apply catNode_comparable.
Defined.

(** ** The heap operations *)

Lemma heap_ok_singleton n : heap_ok [n].
Proof.
  intros j Hj x y _ Hy. destruct j; [lia|]. done.
Qed.

(** X10: [heapPush] never throws and never loses or duplicates a node; on
    nodes that compare it restores the heap order. *)
Theorem X10_heapPush_keeps_heap (h : list Node) (node : Node) :
  exists h',
    heapPush h node = Some h' /\ h' ≡ₚ node :: h /\
    (Forall comparable (node :: h) -> heap_ok h -> heap_ok h').
Proof.
  destruct (heapPush_perm h node) as (h' & Hrun & Hperm).
  exists h'. split_and!; [done..|].
  intros [Hn Hh]%Forall_cons Hok.
  destruct (heapPush_ok h node Hh Hn Hok) as (h'' & Hrun' & _ & Hok').
  rewrite Hrun in Hrun'. by injection Hrun' as <-.
Qed.

(** Witness of X10. *)
Lemma X10_witness :
  exists h',
    heapPush [catNode 1 "e1" "music"] (catNode 2 "e2" "art") = Some h' /\
    h' ≡ₚ [catNode 2 "e2" "art"; catNode 1 "e1" "music"] /\
    heap_ok h'.
Proof.
  destruct (X10_heapPush_keeps_heap [catNode 1 "e1" "music"]
              (catNode 2 "e2" "art")) as (h' & Hrun & Hperm & Hok).
  exists h'. split_and!; [exact Hrun|exact Hperm|].
  apply Hok.
  - repeat constructor; discriminate.
  - apply heap_ok_singleton.
Defined.

(** X11: [heapReplaceRoot] on a non-empty heap never throws, drops the old
    root and nothing else; on nodes that compare it restores the heap
    order. *)
Theorem X11_heapReplaceRoot_keeps_heap (root : Node) (h : list Node)
    (node : Node) :
  exists h',
    heapReplaceRoot (root :: h) node = Some h' /\ h' ≡ₚ node :: h /\
    (Forall comparable (node :: root :: h) -> heap_ok (root :: h) ->
     heap_ok h').
Proof.
  destruct (heapReplaceRoot_perm root h node) as (h' & Hrun & Hperm).
  exists h'. split_and!; [done..|].
  intros [Hn Hh]%Forall_cons Hok.
  destruct (heapReplaceRoot_ok root h node Hh Hn Hok) as (h'' & Hrun' & _ & Hok').
  rewrite Hrun in Hrun'. by injection Hrun' as <-.
Qed.

Lemma heapLess_catNode_above s s' eid eid' cat cat' :
  (s' < s)%R -> heapLess (catNode s eid cat) (catNode s' eid' cat') = false.
Proof.
  intros Hs. unfold heapLess, num_neqb, num_eqb. cbn [catNode score].
  rewrite (bool_decide_eq_false_2 (Fin s = Fin s')) by (intros [= E]; lra).
  cbn [negb]. apply bool_decide_eq_false_2. lra.
Qed.

Lemma heap_ok_three a b c :
  heapLess b a = false -> heapLess c a = false -> heap_ok [a; b; c].
Proof.
  intros Hb Hc j Hj x y Hx Hy.
  destruct j as [|[|[|j]]]; [lia| | |done]; simpl in Hx, Hy; by simplify_eq.
Qed.

Lemma threeHeap_ok : heap_ok threeHeap.
Proof. apply heap_ok_three; apply heapLess_catNode_above; lra. Qed.

Lemma threeHeap_comparable : Forall comparable threeHeap.
Proof. repeat constructor; apply catNode_comparable. Qed.

(** Witness of X11. *)
Lemma X11_witness :
  exists h',
    heapReplaceRoot threeHeap (catNode 5 "e5" "art") = Some h' /\
    h' ≡ₚ [catNode 5 "e5" "art"; catNode 2 "e2" "art"; catNode 3 "e3" "music"] /\
    heap_ok h'.
Proof.
  destruct (X11_heapReplaceRoot_keeps_heap (catNode 1 "e1" "music")
              [catNode 2 "e2" "art"; catNode 3 "e3" "music"]
              (catNode 5 "e5" "art")) as (h' & Hrun & Hperm & Hok).
  exists h'. split_and!; [exact Hrun|exact Hperm|].
  apply Hok.
  - constructor; [apply catNode_comparable|apply threeHeap_comparable].
  - apply threeHeap_ok.
Defined.

(** X12: In a heap of nodes that compare, no node is worse than the root. *)
Theorem X12_heap_root_is_worst (root : Node) (h : list Node) (x : Node) :
  Forall comparable (root :: h) -> heap_ok (root :: h) -> x ∈ root :: h ->
  heapLess x root = false /\ betterThan root x = false.
Proof.
  intros Hc Hok Hx. rewrite betterThan_heapLess.
  split; by apply (heap_root_worst root h x).
Qed.

(** Witness of X12. *)
Lemma X12_witness :
  heapLess (catNode 3 "e3" "music") (catNode 1 "e1" "music") = false /\
  betterThan (catNode 1 "e1" "music") (catNode 3 "e3" "music") = false.
Proof.
  apply (X12_heap_root_is_worst (catNode 1 "e1" "music")
           [catNode 2 "e2" "art"; catNode 3 "e3" "music"]
           (catNode 3 "e3" "music")).
  - apply threeHeap_comparable.
  - apply threeHeap_ok.
  - right. right. left.
Defined.

(** ** Similarity counts *)

Lemma occurrences_cons x y l :
  occurrences x (y :: l) = (if decide (y = x) then 1 else 0) + occurrences x l.
Proof.
  unfold occurrences. rewrite filter_cons. by case_decide.
Qed.

Lemma occurrences_app x l1 l2 :
  occurrences x (l1 ++ l2) = occurrences x l1 + occurrences x l2.
Proof. unfold occurrences. by rewrite filter_app, length_app. Qed.

Lemma occurrences_0 x l : occurrences x l = 0 <-> x ∉ l.
Proof.
  induction l as [|y l IH]; [by split; [intros _; apply not_elem_of_nil|]|].
  rewrite occurrences_cons, not_elem_of_cons.
  case_decide as Hyx; subst; split; try lia; try tauto.
  intros Hocc. split; [congruence|]. apply IH. lia.
Qed.

Lemma countSimilar_inner sims : forall (c : gmap string nat) sid,
  foldl (fun c sid => <[sid := default 0 (c !! sid) + 1]> c) c sims !! sid
  = (if decide (occurrences sid sims = 0) then c !! sid
     else Some (default 0 (c !! sid) + occurrences sid sims)).
Proof.
  induction sims as [|s sims IH]; intros c sid; [done|].
  cbn [foldl]. rewrite IH, occurrences_cons.
  destruct (decide (s = sid)) as [->|Hne].
  - rewrite lookup_insert_eq. cbn [default]. cbv [Datatypes.id].
    repeat case_decide; try lia; f_equal; lia.
  - rewrite lookup_insert_ne by done. done.
Qed.

Lemma buildSimilarCounts_acc sim attended : forall (c : gmap string nat) sid,
  foldl (fun counts eid =>
           match sim !! eid with
           | Some sims =>
               foldl (fun c sid => <[sid := default 0 (c !! sid) + 1]> c)
                     counts sims
           | None => counts
           end) c attended !! sid
  = (if decide (occurrences sid (similarTo attended sim) = 0) then c !! sid
     else Some (default 0 (c !! sid) + occurrences sid (similarTo attended sim))).
Proof.
  induction attended as [|eid attended IH]; intros c sid; [done|].
  cbn [foldl]. rewrite IH. unfold similarTo in *. cbn [mbind list_bind].
  rewrite occurrences_app.
  destruct (sim !! eid) as [sims|].
  - change (default [] (Some sims)) with sims.
    rewrite countSimilar_inner.
    repeat case_decide; try lia; try done;
      try change (default 0 (Some ?x)) with x; f_equal; lia.
  - change (default [] None) with (@nil string).
    change (occurrences sid []) with 0. done.
Qed.

(** X13: The count of [sid] is the number of times the similarity lists of
    the attended events name it; an identifier that is never named has
    no entry. *)
Theorem X13_buildSimilarCounts_counts (attended : list string)
    (eventSimilarity : gmap string (list string)) (sid : string) :
  default 0 (buildSimilarCounts attended eventSimilarity !! sid)
  = occurrences sid (similarTo attended eventSimilarity) /\
  (buildSimilarCounts attended eventSimilarity !! sid = None <->
   sid ∉ similarTo attended eventSimilarity).
Proof.
  unfold buildSimilarCounts. rewrite buildSimilarCounts_acc, lookup_empty.
  rewrite <- occurrences_0.
  case_decide as H; [by rewrite H|].
  change (default 0 (Some ?x)) with x. cbn [Nat.add].
  split; [done|]. split; [done|intros; exfalso; auto].
Qed.

(** ** Category popularity prior *)

Lemma num_or0_Fin r : num_or0 (Some (Fin r)) = Fin r.
Proof. done. Qed.

Lemma tally_inner p cats : forall (t : gmap string num) c r,
  num_or0 (t !! c) = Fin r ->
  num_or0 (foldl (fun t c => <[c := num_add (num_or0 (t !! c)) (Fin p)]> t)
                 t cats !! c)
  = Fin (r + INR (occurrences c cats) * p).
Proof.
  induction cats as [|c' cats IH]; intros t c r Hr.
  { cbn. rewrite Hr. f_equal. lra. }
  cbn [foldl]. rewrite occurrences_cons.
  destruct (decide (c' = c)) as [->|Hne].
  - rewrite (IH _ _ (r + p)%R).
    + f_equal. rewrite plus_INR. simpl. lra.
    + rewrite lookup_insert_eq, Hr. done.
  - rewrite (IH _ _ r); [done|]. by rewrite lookup_insert_ne.
Qed.

Lemma numeric_popularity_cons e events :
  numeric_popularity (e :: events) ->
  (exists p, clampedPopularity (e ≫= ev_popularity) = Fin p /\ (0 <= p <= 1)%R)
  /\ numeric_popularity events.
Proof.
  intros H. split.
  - apply clampedPopularity_range. destruct e as [ev|]; [|done].
    apply H. left.
  - intros ev Hev. apply H. by right.
Qed.

Lemma categoryMass_cons c e events :
  categoryMass c (e :: events)
  = (INR (occurrences c (categoriesOf e))
     * realOf (clampedPopularity (e ≫= ev_popularity))
     + categoryMass c events)%R.
Proof. done. Qed.

Lemma buildCategoryPopularityMap_acc events : forall (t : gmap string num) c r,
  numeric_popularity events ->
  num_or0 (t !! c) = Fin r ->
  num_or0 (foldl (fun tally e =>
                    let pop := clampedPopularity (e ≫= ev_popularity) in
                    foldl (fun t c => <[c := num_add (num_or0 (t !! c)) pop]> t)
                          tally (categoriesOf e)) t events !! c)
  = Fin (r + categoryMass c events).
Proof.
  induction events as [|e events IH]; intros t c r Hnum Hr.
  { cbn. rewrite Hr. f_equal. lra. }
  apply numeric_popularity_cons in Hnum as [(p & Hp & _) Hnum].
  cbn [foldl]. cbv zeta. rewrite categoryMass_cons, Hp.
  rewrite (IH _ _ (r + INR (occurrences c (categoriesOf e)) * p)%R Hnum).
  - f_equal. cbn [realOf]. lra.
  - by apply tally_inner.
Qed.

Lemma categoryMass_nonneg c events :
  numeric_popularity events -> (0 <= categoryMass c events)%R.
Proof.
  induction events as [|e events IH]; intros Hnum; [simpl; lra|].
  apply numeric_popularity_cons in Hnum as [(p & Hp & Hp01) Hnum].
  rewrite categoryMass_cons, Hp. cbn [realOf].
  specialize (IH Hnum).
  pose proof (pos_INR (occurrences c (categoriesOf e))). nra.
Qed.


Lemma buildCategoryPopularityMap_tallies events :
  numeric_popularity events -> tallies (buildCategoryPopularityMap events).
Proof.
  intros Hnum c. exists (categoryMass c events).
  split; [|by apply categoryMass_nonneg].
  unfold buildCategoryPopularityMap.
  rewrite (buildCategoryPopularityMap_acc events ∅ c 0%R Hnum).
  - f_equal. lra.
  - by rewrite lookup_empty.
Qed.

(** ** The largest prior *)

Lemma priorSum_acc m cats : tallies m -> forall s,
  (0 <= s)%R ->
  exists r, foldl (fun s c => num_add s (num_or0 (m !! c))) (Fin s) cats = Fin r
            /\ (s <= r)%R.
Proof.
  intros Hm. induction cats as [|c cats IH]; intros s Hs.
  { exists s. split; [done|lra]. }
  cbn [foldl]. destruct (Hm c) as (r & -> & Hr). cbn [num_add].
  destruct (IH (s + r)%R) as (r' & -> & Hr'); [lra|].
  exists r'. split; [done|lra].
Qed.

Lemma priorSum_nonneg m cats :
  tallies m -> exists r, priorSum m cats = Fin r /\ (0 <= r)%R.
Proof. intros Hm. apply (priorSum_acc m cats Hm 0%R). lra. Qed.

Lemma computeMaxPrior_acc m events : tallies m -> forall mx0,
  (0 <= mx0)%R ->
  exists mx,
    foldl (fun maxPrior e =>
             let sum := priorSum m (categoriesOf e) in
             if num_gt sum maxPrior then sum else maxPrior)
          (Fin mx0) events = Fin mx /\
    (mx0 <= mx)%R /\
    (forall e, e ∈ events ->
       exists s, priorSum m (categoriesOf e) = Fin s /\ (0 <= s <= mx)%R) /\
    (mx = mx0 \/
     exists e, e ∈ events /\ priorSum m (categoriesOf e) = Fin mx).
Proof.
  intros Hm. induction events as [|e events IH]; intros mx0 Hmx0.
  { exists mx0. split_and!; [done|lra| |by left].
    intros e He. by apply not_elem_of_nil in He. }
  cbn [foldl]. cbv zeta.
  destruct (priorSum_nonneg m (categoriesOf e) Hm) as (s & Hs & Hs0).
  rewrite Hs. unfold num_gt, num_lt.
  case_bool_decide as Hgt.
  - destruct (IH s Hs0) as (mx & Hrun & Hle & Hall & Hatt).
    exists mx. split_and!; [done|lra| |].
    + intros e' [->|He']%elem_of_cons; [|by apply Hall].
      exists s. split; [done|lra].
    + right. destruct Hatt as [->|(e' & He' & Hatt)].
      * exists e. split; [left|done].
      * exists e'. split; [by right|done].
  - destruct (IH mx0 Hmx0) as (mx & Hrun & Hle & Hall & Hatt).
    exists mx. split_and!; [done|lra| |].
    + intros e' [->|He']%elem_of_cons; [|by apply Hall].
      exists s. split; [done|lra].
    + destruct Hatt as [->|(e' & He' & Hatt)]; [by left|].
      right. exists e'. split; [by right|done].
Qed.

Lemma computeMaxPrior_spec events m :
  tallies m ->
  exists mx,
    computeMaxPriorAcrossEvents events m = Fin mx /\ (0 <= mx)%R /\
    (forall e, e ∈ events ->
       exists s, priorSum m (categoriesOf e) = Fin s /\ (0 <= s <= mx)%R) /\
    (mx = 0%R \/
     exists e, e ∈ events /\ priorSum m (categoriesOf e) = Fin mx).
Proof.
  intros Hm. unfold computeMaxPriorAcrossEvents.
  destruct (computeMaxPrior_acc m events Hm 0%R) as (mx & H1 & H2 & H3 & H4);
    [lra|].
  exists mx. split_and!; done.
Qed.

(** X15: On finite non-negative tallies [computeMaxPriorAcrossEvents] is the
    largest prior sum of an event, or 0 when there is no event: it
    bounds every event's sum and is attained. *)
Theorem X15_maxPrior_is_maximum (events : list (option Event))
    (popByCat : gmap string num) :
  tallies popByCat ->
  exists mx,
    computeMaxPriorAcrossEvents events popByCat = Fin mx /\ (0 <= mx)%R /\
    (forall e, e ∈ events ->
       exists s, priorSum popByCat (categoriesOf e) = Fin s /\
                 (0 <= s <= mx)%R) /\
    (mx = 0%R \/
     exists e, e ∈ events /\ priorSum popByCat (categoriesOf e) = Fin mx).
Proof. apply computeMaxPrior_spec. Qed.


Lemma priorEvents_numeric : numeric_popularity priorEvents.
Proof.
  intros ev Hev. unfold priorEvents in Hev.
  repeat (apply elem_of_cons in Hev as [[= ->]|Hev]; [discriminate|]).
  by apply not_elem_of_nil in Hev.
Qed.

(** Witness of X15. *)
Lemma X15_witness :
  exists mx,
    computeMaxPriorAcrossEvents priorEvents
      (buildCategoryPopularityMap priorEvents) = Fin mx /\ (0 <= mx)%R /\
    (forall e, e ∈ priorEvents ->
       exists s,
         priorSum (buildCategoryPopularityMap priorEvents) (categoriesOf e)
         = Fin s /\ (0 <= s <= mx)%R) /\
    (mx = 0%R \/
     exists e, e ∈ priorEvents /\
               priorSum (buildCategoryPopularityMap priorEvents)
                 (categoriesOf e) = Fin mx).
Proof.
  apply (X15_maxPrior_is_maximum priorEvents
           (buildCategoryPopularityMap priorEvents)).
  apply buildCategoryPopularityMap_tallies, priorEvents_numeric.
Defined.

(** ** Every score lies between 0 and 1 *)

Lemma Rdiv_unit n w : (0 <= n <= w)%R -> (0 < w)%R -> (0 <= n / w <= 1)%R.
Proof.
  intros [Hn Hnw] Hw. split.
  - apply Rmult_le_pos; [done|]. left. by apply Rinv_0_lt_compat.
  - apply (Rmult_le_reg_r w); [done|].
    unfold Rdiv. rewrite Rmult_assoc, Rinv_l by lra. lra.
Qed.

Section ScoreRange.

Variable cfg : Config.
Variable user : User.
Variable events : list (option Event).
Variable eventSimilarity : gmap string (list string).

Lemma prefScore_range ev :
  exists r, prefScore user ev = Fin r /\ (0 <= r <= 1)%R.
Proof.
  unfold prefScore. destruct (hasPrefs user); [apply jaccard_range|].
  exists 0%R. split; [done|lra].
Qed.

Lemma simScore_range eid :
  exists r, simScore user eventSimilarity eid = Fin r /\ (0 <= r <= 1)%R.
Proof.
  unfold simScore, hasHistory.
  destruct (Nat.ltb_spec 0 (length (attended user))) as [Hlt|];
    [|exists 0%R; split; [done|lra]].
  cbn [num_div]. rewrite bool_decide_eq_false_2 by (apply not_0_INR; lia).
  set (q := (_ / _)%R).
  assert (0 <= q)%R as Hq.
  { apply Rmult_le_pos; [apply pos_INR|].
    left. apply Rinv_0_lt_compat. apply (lt_INR 0). lia. }
  cbn [Math_min num_lt]. case_bool_decide; eexists; (split; [done|lra]).
Qed.

Lemma geoScore_range ev :
  (0 < distanceDecayKm cfg)%R ->
  exists r, geoScore cfg user ev = Fin r /\ (0 <= r <= 1)%R.
Proof.
  intros Hd. unfold geoScore. destruct (act_geo _).
  - by apply proximityScoreFromKm_range.
  - exists 0%R. split; [done|lra].
Qed.

Lemma coldScore_range ev :
  numeric_popularity events -> Some ev ∈ events ->
  exists r, coldScore user events ev = Fin r /\ (0 <= r <= 1)%R.
Proof.
  intros Hnum Hev. unfold coldScore, maxPrior.
  destruct (coldStart user); [|exists 0%R; split; [done|lra]].
  pose proof (buildCategoryPopularityMap_tallies events Hnum) as Hm.
  destruct (computeMaxPrior_spec events (popByCat events) Hm)
    as (mx & Hmx & Hmx0 & Hall & _).
  destruct (Hall _ Hev) as (s & Hs & Hs0). cbn [categoriesOf] in Hs.
  cbv zeta. rewrite Hmx, Hs. unfold num_gt. cbn [num_lt].
  case_bool_decide; [|exists 0%R; split; [done|lra]].
  cbn [num_div]. rewrite bool_decide_eq_false_2 by lra.
  eexists. split; [done|]. apply Rdiv_unit; lra.
Qed.

Lemma combined_range ev eid :
  weights_nonneg cfg -> (0 < distanceDecayKm cfg)%R ->
  numeric_popularity events -> Some ev ∈ events ->
  exists s, combined cfg user events eventSimilarity ev eid = Fin s /\
            (0 <= s <= 1)%R.
Proof.
  intros (W1 & W2 & W3 & W4 & W5) Hd Hnum Hev.
  destruct (prefScore_range ev) as (v1 & E1 & B1).
  destruct (simScore_range eid) as (v2 & E2 & B2).
  destruct (geoScore_range ev Hd) as (v3 & E3 & B3).
  destruct (clampedPopularity_range (ev_popularity ev)) as (v4 & E4 & B4);
    [by apply Hnum|].
  destruct (coldScore_range ev Hnum Hev) as (v5 & E5 & B5).
  unfold combined, weightSum, weightTable. rewrite E1, E2, E3, E4, E5.
  cbn [foldl].
  set (w1 := w_pref (weights cfg)) in *. set (w2 := w_sim (weights cfg)) in *.
  set (w3 := w_geo (weights cfg)) in *. set (w4 := w_pop (weights cfg)) in *.
  set (w5 := w_cold (weights cfg)) in *.
  assert (0 <= w1 * v1 <= w1)%R by nra. assert (0 <= w2 * v2 <= w2)%R by nra.
  assert (0 <= w3 * v3 <= w3)%R by nra. assert (0 <= w4 * v4 <= w4)%R by nra.
  assert (0 <= w5 * v5 <= w5)%R by nra.
  destruct (act_pref (active user)), (act_sim (active user)),
    (act_geo (active user)), (act_cold (active user));
    cbn [act_pop active num_mul num_add num_div];
    match goal with
    | |- context [bool_decide (?s <= 0)%R] =>
        destruct (bool_decide_reflect (s <= 0)%R)
    end;
    rewrite bool_decide_eq_false_2 by lra;
    eexists; (split; [done|]); apply Rdiv_unit; lra.
Qed.

End ScoreRange.

(** X16: With non-negative weights, a positive decay constant and no [NaN]
    popularity, the score of every node built from an event of the list
    lies between 0 and 1, and so does its popularity key. *)
Theorem X16_score_in_unit_interval (cfg : Config) (user : User)
    (events : list (option Event))
    (eventSimilarity : gmap string (list string)) (e : option Event)
    (node : Node) :
  weights_nonneg cfg -> (0 < distanceDecayKm cfg)%R ->
  numeric_popularity events -> e ∈ events ->
  scoreEvent cfg user events eventSimilarity e = Some node ->
  (exists s, score node = Fin s /\ (0 <= s <= 1)%R) /\
  (exists p, popularity node = Fin p /\ (0 <= p <= 1)%R).
Proof.
  intros Hw Hd Hnum He Hs.
  apply scoreEvent_Some in Hs
    as (ev & eid & -> & _ & _ & _ & _ & _ & _ & Hsc & Hpop & _).
  rewrite Hsc, Hpop. split.
  - by apply combined_range.
  - apply clampedPopularity_range. by apply Hnum.
Qed.

(** Witness of X16. *)
Lemma X16_witness :
  (exists s,
     score (plainNode (combined CONFIG fan [Some (plainEvent "e1" (Fin 1))] ∅
                         (plainEvent "e1" (Fin 1)) "e1") "e1" (Fin 1))
     = Fin s /\ (0 <= s <= 1)%R) /\
  (exists p,
     popularity (plainNode (combined CONFIG fan [Some (plainEvent "e1" (Fin 1))] ∅
                              (plainEvent "e1" (Fin 1)) "e1") "e1" (Fin 1))
     = Fin p /\ (0 <= p <= 1)%R).
Proof.
  apply (X16_score_in_unit_interval CONFIG fan [Some (plainEvent "e1" (Fin 1))] ∅
           (Some (plainEvent "e1" (Fin 1)))).
  - apply CONFIG_weights_nonneg.
  - simpl. lra.
  - apply (numeric_popularity_plain [("e1", 1%R)]).
  - left.
  - by apply fan_scoreEvent.
Defined.

(** ** The distance key *)





(** ** Results that are empty *)

Lemma Rtrunc_below_1 x : (x < 1)%R -> (Rtrunc x <= 0)%Z.
Proof.
  intros Hx. destruct (Rle_dec x 0) as [Hle|Hgt]; [by apply Rtrunc_nonpos|].
  destruct (Rtrunc_pos x) as [-> _]; [lra|].
  rewrite <- (Int_part_spec x 0); [done|]. lra.
Qed.

Lemma capacity_0_empty cfg localeCompare user events eventSimilarity limit :
  capacity (default (Fin 5) limit) events = 0 ->
  getRecommendedEvents cfg localeCompare user events eventSimilarity limit
  = Some [].
Proof.
  intros Hk. unfold getRecommendedEvents. cbv zeta.
  destruct (_ || _); [done|]. by rewrite Hk.
Qed.

(** X18: The result is the empty list when there is no event, when the limit
    is [NaN] or an infinity, and when it is below 1. *)
Theorem X18_result_empty_cases (cfg : Config)
    (localeCompare : string -> string -> Z) (user : User)
    (events : list (option Event))
    (eventSimilarity : gmap string (list string)) (limit : num) :
  events = [] \/ Number_isFinite limit = false \/
  (exists x, limit = Fin x /\ (x < 1)%R) ->
  getRecommendedEvents cfg localeCompare user events eventSimilarity
    (Some limit) = Some [].
Proof.
  intros [->|[Hinf|(x & -> & Hx)]]; [done| |].
  - apply capacity_0_empty. by destruct limit.
  - destruct (Rle_dec x 0) as [Hle|Hgt].
    + unfold getRecommendedEvents. simpl default.
      rewrite num_le_Fin_0, bool_decide_eq_true_2 by done.
      by rewrite orb_true_r.
    + apply capacity_0_empty. unfold capacity. simpl default. cbn [toInt32].
      pose proof (Rtrunc_below_1 x Hx) as Ht.
      destruct (Rtrunc_pos x) as [_ H0]; [lra|].
      assert (Rtrunc x = 0%Z) as -> by lia. done.
Qed.

(** Witness of X18. *)
Lemma X18_witness :
  getRecommendedEvents CONFIG codeUnitCompare fan
    [Some (plainEvent "e1" (Fin 1))] ∅ (Some Infinity) = Some [] /\
  getRecommendedEvents CONFIG codeUnitCompare fan
    [Some (plainEvent "e1" (Fin 1))] ∅ (Some (Fin (1 / 2))) = Some [].
Proof.
  split.
  - apply (X18_result_empty_cases CONFIG codeUnitCompare fan
             [Some (plainEvent "e1" (Fin 1))] ∅ Infinity).
    right. left. reflexivity.
  - apply (X18_result_empty_cases CONFIG codeUnitCompare fan
             [Some (plainEvent "e1" (Fin 1))] ∅ (Fin (1 / 2))).
    right. right. exists (1 / 2)%R. split; [reflexivity|lra].
Defined.

(** ** The result is made of eligible input events *)

Lemma events_of_candidates cfg user events sim (evs : list (option Event)) :
  (fun n => Some (event n)) <$> omap (scoreEvent cfg user events sim) evs
  = filter (fun e => eligible cfg user e = true) evs.
Proof.
  induction evs as [|e evs IH]; [done|].
  pose proof (scoreEvent_eligible cfg user events sim e) as He.
  cbn [omap list_omap]. rewrite filter_cons.
  destruct (scoreEvent cfg user events sim e) as [node|] eqn:Hs.
  - rewrite decide_True by (apply He; by eexists).
    apply scoreEvent_Some in Hs as (ev & eid & -> & _ & _ & _ & _ & <- & _).
    cbn [fmap list_fmap]. f_equal. exact IH.
  - rewrite decide_False; [exact IH|].
    intros [? ?]%He. done.
Qed.

Lemma scanEvents_submseteq cfg user events sim k : forall evs heap,
  0 < k -> length heap <= k ->
  exists heap',
    scanEvents cfg user events sim k heap evs = Some heap' /\
    length heap' <= k /\
    heap' ⊆+ heap ++ omap (scoreEvent cfg user events sim) evs.
Proof.
  induction evs as [|e evs IH]; intros heap Hk Hlen; cbn [scanEvents].
  { exists heap. split_and!; [done..|]. by rewrite app_nil_r. }
  destruct (scanStep_cases cfg user events sim k heap e Hk Hlen)
    as (h1 & -> & Hcase). cbn [mbind option_bind].
  cbn [omap list_omap].
  destruct (scoreEvent cfg user events sim e) as [node|] eqn:Hs.
  - assert (length h1 <= k /\ h1 ⊆+ node :: heap) as [Hl1 Hsub1].
    { destruct Hcase as [[Hlt Hp]|(Heq & root & t & -> & [[_ Hp]|[_ ->]])].
      - split; [rewrite Hp; simpl; lia|by rewrite Hp].
      - split; [rewrite Hp; simpl in *; lia|].
        rewrite Hp. apply submseteq_skip. by apply submseteq_cons.
      - split; [done|]. by apply submseteq_cons. }
    destruct (IH h1 Hk Hl1) as (h' & -> & Hl & Hsub).
    exists h'. split_and!; [done..|].
    etrans; [exact Hsub|].
    rewrite <- Permutation_middle.
    by apply (submseteq_app h1 (node :: heap)).
  - subst h1. by apply IH.
Qed.

Lemma getRecommendedEvents_eligible cfg localeCompare user events
    eventSimilarity limit out :
  getRecommendedEvents cfg localeCompare user events eventSimilarity limit
  = Some out ->
  Some <$> out ⊆+ filter (fun e => eligible cfg user e = true) events /\
  length out <= capacity (default (Fin 5) limit) events.
Proof.
  intros Hout.
  apply getRecommendedEvents_Some in Hout
    as [->|(heap & nodes & Hscan & Hk & Hperm & ->)].
  { split; [apply submseteq_nil_l|simpl; lia]. }
  destruct (scanEvents_submseteq cfg user events eventSimilarity
              (capacity (default (Fin 5) limit) events) events [] Hk)
    as (heap' & Hscan' & Hlen & Hsub); [simpl; lia|].
  rewrite Hscan in Hscan'. injection Hscan' as <-.
  split.
  - rewrite <- list_fmap_compose,
      <- (events_of_candidates cfg user events eventSimilarity events).
    apply fmap_submseteq. by rewrite Hperm.
  - by rewrite length_fmap, Hperm.
Qed.

(** X19: Whatever the input, a result lists eligible events of the input,
    each at most as often as the input holds it, and no more events than
    the capacity allows. *)
Theorem X19_result_is_made_of_eligible_input (cfg : Config)
    (localeCompare : string -> string -> Z) (user : User)
    (events : list (option Event))
    (eventSimilarity : gmap string (list string)) (limit : option num)
    (out : list Event) :
  getRecommendedEvents cfg localeCompare user events eventSimilarity limit
  = Some out ->
  Some <$> out ⊆+ events /\
  (forall ev, ev ∈ out -> eligible cfg user (Some ev) = true) /\
  length out <= capacity (default (Fin 5) limit) events.
Proof.
  intros [Hsub Hlen]%getRecommendedEvents_eligible.
  split_and!; [|intros ev Hev|done].
  - etrans; [exact Hsub|]. apply sublist_submseteq, sublist_filter.
  - assert (Some ev ∈ filter (fun e => eligible cfg user e = true) events)
      as Hin.
    { eapply elem_of_submseteq; [|exact Hsub]. by apply list_elem_of_fmap_2. }
    by apply list_elem_of_filter in Hin as [? _].
Qed.

(** ** The comparator of the final sort *)

Lemma num_sub_sign a b :
  a <> NaN -> b <> NaN -> num_neqb b a = true ->
  num_gt (num_sub b a) (Fin 0) = num_lt a b /\
  num_lt (num_sub b a) (Fin 0) = num_lt b a.
Proof.
  unfold num_neqb, num_gt.
  destruct a as [| |x|], b as [| |y|]; simpl; try done.
  intros _ _ Hne. apply negb_true_iff, bool_decide_eq_false in Hne.
  assert (x <> y) by congruence.
  split; apply bool_decide_ext; lra.
Qed.

Lemma codeUnitCompare_collation : codeUnitCollation codeUnitCompare.
Proof.
  intros a b. unfold codeUnitCompare, str_lt, String.ltb.
  rewrite (String.compare_antisym b a).
  destruct (String.compare a b); simpl; split; split; (done || lia).
Qed.

Lemma rankCompare_sign localeCompare a b :
  codeUnitCollation localeCompare -> comparable a -> comparable b ->
  num_gt (rankCompare localeCompare a b) (Fin 0) = heapLess a b /\
  num_lt (rankCompare localeCompare a b) (Fin 0) = betterThan a b.
Proof.
  intros Hlc (Sa & Da & Pa) (Sb & Db & Pb).
  unfold rankCompare, heapLess, betterThan.
  rewrite (num_neqb_sym (score b)), (num_neqb_sym (popularity b)).
  destruct (num_neqb (score a) (score b)) eqn:E1.
  { rewrite num_neqb_sym in E1.
    destruct (num_sub_sign (score a) (score b)) as [-> ->]; done. }
  destruct (num_neqb (distance a) (distance b)) eqn:E2.
  { destruct (num_sub_sign (distance b) (distance a)) as [-> ->]; done. }
  destruct (num_neqb (popularity a) (popularity b)) eqn:E3.
  { rewrite num_neqb_sym in E3.
    destruct (num_sub_sign (popularity a) (popularity b)) as [-> ->]; done. }
  destruct (Hlc (node_id a) (node_id b)) as [Hlt Hgt].
  unfold num_gt. cbn [num_lt]. split.
  - destruct (str_lt (node_id b) (node_id a)) eqn:E.
    + apply bool_decide_eq_true_2. apply (IZR_lt 0). by apply Hgt.
    + apply bool_decide_eq_false_2. intros H%lt_IZR. apply Hgt in H. congruence.
  - destruct (str_lt (node_id a) (node_id b)) eqn:E.
    + apply bool_decide_eq_true_2. apply (IZR_lt _ 0). by apply Hlt.
    + apply bool_decide_eq_false_2. intros H%lt_IZR. apply Hlt in H. congruence.
Qed.

(** X20: Under a collation by code units, the comparator of the final sort is
    positive exactly when [heapLess] holds and negative exactly when
    [betterThan] holds, on nodes whose keys are not [NaN]. *)
Theorem X20_rankCompare_agrees_with_comparators
    (localeCompare : string -> string -> Z) (a b : Node) :
  codeUnitCollation localeCompare -> comparable a -> comparable b ->
  num_gt (rankCompare localeCompare a b) (Fin 0) = heapLess a b /\
  num_lt (rankCompare localeCompare a b) (Fin 0) = betterThan a b.
Proof. apply rankCompare_sign. Qed.

(** Witness of X20. *)
Lemma X20_witness :
  num_gt (rankCompare codeUnitCompare (catNode 1 "e1" "music")
            (catNode 1 "e2" "art")) (Fin 0)
  = heapLess (catNode 1 "e1" "music") (catNode 1 "e2" "art") /\
  num_lt (rankCompare codeUnitCompare (catNode 1 "e1" "music")
            (catNode 1 "e2" "art")) (Fin 0)
  = betterThan (catNode 1 "e1" "music") (catNode 1 "e2" "art").
Proof.
  apply (X20_rankCompare_agrees_with_comparators codeUnitCompare
           (catNode 1 "e1" "music") (catNode 1 "e2" "art")).
  - apply codeUnitCompare_collation.
  - apply catNode_comparable.
  - apply catNode_comparable.
Defined.

(** ** The final sort *)

Lemma sortInsert_ranked localeCompare x l :
  codeUnitCollation localeCompare ->
  comparable x -> Forall comparable l ->
  StronglySorted ranked_ge l ->
  StronglySorted ranked_ge (sortInsert (rankCompare localeCompare) x l).
Proof.
  intros Hlc Hx Hc Hs. induction Hs as [|y l Hs IH Hy]; cbn [sortInsert].
  { repeat constructor. }
  apply Forall_cons in Hc as [Hcy Hc].
  destruct (rankCompare_sign localeCompare x y Hlc Hx Hcy) as [-> _].
  destruct (heapLess x y) eqn:E.
  - constructor; [by apply IH|].
    rewrite sortInsert_perm. constructor; [|done].
    split_and!; [done..|]. by apply heapLess_asym.
  - constructor; [by constructor|].
    constructor; [by split_and!|].
    eapply Forall_impl; [exact Hy|]. intros z (_ & Hz & Hyz).
    split_and!; [done..|].
    by apply (not_heapLess_trans z y x).
Qed.

Lemma Array_sort_ranked localeCompare l :
  codeUnitCollation localeCompare -> Forall comparable l ->
  StronglySorted ranked_ge (Array_sort (rankCompare localeCompare) l).
Proof.
  intros Hlc. induction l as [|x l IH]; intros Hc; [constructor|].
  apply Forall_cons in Hc as [Hx Hc].
  change (Array_sort (rankCompare localeCompare) (x :: l))
    with (sortInsert (rankCompare localeCompare) x
            (Array_sort (rankCompare localeCompare) l)).
  apply sortInsert_ranked; [done..| |by apply IH].
  by rewrite Array_sort_perm.
Qed.

(** Whatever the collation, the sort orders by score. *)

Lemma num_ge_refl a : a <> NaN -> num_ge a a = true.
Proof.
  intros Ha. unfold num_ge, num_le. apply orb_true_iff. right.
  destruct a; simpl; try done; by apply bool_decide_eq_true_2.
Qed.

Lemma num_ge_lt a b : num_lt b a = true -> num_ge a b = true.
Proof. intros H. unfold num_ge, num_le. by rewrite H. Qed.

Lemma num_ge_trans a b c :
  num_ge a b = true -> num_ge b c = true -> num_ge a c = true.
Proof.
  unfold num_ge, num_le.
  intros [H1|H1]%orb_true_iff [H2|H2]%orb_true_iff; apply orb_true_iff.
  - left. by apply (num_lt_trans c b a).
  - assert (c = b) as ->; [|by left].
    destruct c, b; simpl in *; try done; by apply bool_decide_eq_true in H2.
  - assert (b = a) as <-; [|by left].
    destruct a, b; simpl in *; try done; by apply bool_decide_eq_true in H1.
  - right. assert (b = a) as <-; [|done].
    destruct a, b; simpl in *; try done; by apply bool_decide_eq_true in H1.
Qed.

Lemma num_ge_total a b :
  a <> NaN -> b <> NaN -> num_lt a b = false -> num_ge a b = true.
Proof.
  intros Ha Hb Hlt.
  destruct (num_trichotomy a b Ha Hb) as [H|[->|H]]; [congruence| |].
  - by apply num_ge_refl.
  - by apply num_ge_lt.
Qed.

Lemma rankCompare_score localeCompare x y :
  score x <> NaN -> score y <> NaN ->
  if num_gt (rankCompare localeCompare x y) (Fin 0)
  then scoreGe y x else scoreGe x y.
Proof.
  intros Hx Hy. unfold rankCompare, scoreGe.
  destruct (num_neqb (score y) (score x)) eqn:E.
  - destruct (num_sub_sign (score x) (score y) Hx Hy E) as [-> _].
    destruct (num_lt (score x) (score y)) eqn:Hlt.
    + by apply num_ge_lt.
    + by apply num_ge_total.
  - apply num_neqb_false in E as [-> _].
    destruct (num_gt _ _); by apply num_ge_refl.
Qed.

Lemma sortInsert_scores localeCompare x l :
  score x <> NaN -> Forall (fun n => score n <> NaN) l ->
  StronglySorted scoreGe l ->
  StronglySorted scoreGe (sortInsert (rankCompare localeCompare) x l).
Proof.
  intros Hx Hc Hs. induction Hs as [|y l Hs IH Hy]; cbn [sortInsert].
  { repeat constructor. }
  apply Forall_cons in Hc as [Hcy Hc].
  pose proof (rankCompare_score localeCompare x y Hx Hcy) as Hxy.
  destruct (num_gt _ _).
  - constructor; [by apply IH|].
    rewrite sortInsert_perm. by constructor.
  - constructor; [by constructor|].
    constructor; [done|].
    eapply Forall_impl; [exact Hy|]. intros z Hyz.
    by apply (num_ge_trans _ (score y)).
Qed.

Lemma Array_sort_scores localeCompare l :
  Forall (fun n => score n <> NaN) l ->
  StronglySorted scoreGe (Array_sort (rankCompare localeCompare) l).
Proof.
  induction l as [|x l IH]; intros Hc; [constructor|].
  apply Forall_cons in Hc as [Hx Hc].
  change (Array_sort (rankCompare localeCompare) (x :: l))
    with (sortInsert (rankCompare localeCompare) x
            (Array_sort (rankCompare localeCompare) l)).
  apply sortInsert_scores; [done| |by apply IH].
  by rewrite Array_sort_perm.
Qed.

(** ** A run on one event *)


Lemma regular_run :
  getRecommendedEvents CONFIG codeUnitCompare regular
    [Some (plainEvent "e1" (Fin 1)); Some (plainEvent "e2" (Fin (1 / 2)))]
    ∅ (Some (Fin 1))
  = Some [plainEvent "e2" (Fin (1 / 2))].
Proof.
  unfold getRecommendedEvents. simpl default.
  rewrite num_le_Fin_0, bool_decide_eq_false_2 by lra.
  unfold capacity. rewrite (toInt32_small 1) by lia.
  vm_compute. reflexivity.
Qed.

(** Witness of X19. *)
Lemma X19_witness :
  Some <$> [plainEvent "e2" (Fin (1 / 2))]
  ⊆+ [Some (plainEvent "e1" (Fin 1)); Some (plainEvent "e2" (Fin (1 / 2)))] /\
  (forall ev, ev ∈ [plainEvent "e2" (Fin (1 / 2))] ->
     eligible CONFIG regular (Some ev) = true) /\
  length [plainEvent "e2" (Fin (1 / 2))]
  <= capacity (default (Fin 5) (Some (Fin 1)))
       [Some (plainEvent "e1" (Fin 1)); Some (plainEvent "e2" (Fin (1 / 2)))].
Proof.
  apply (X19_result_is_made_of_eligible_input CONFIG codeUnitCompare regular
           [Some (plainEvent "e1" (Fin 1));
            Some (plainEvent "e2" (Fin (1 / 2)))] ∅ (Some (Fin 1))).
  apply regular_run.
Defined.

(** ** The hard geo cutoff *)



(** ** Runs on numeric input *)

Lemma heap_ok_nil : heap_ok [].
Proof. intros j _ x y Hx. done. Qed.

Lemma selects_nil k : selects k [] [].
Proof.
  split_and!; [apply heap_ok_nil|simpl; lia|].
  exists []. split; [done|]. by intros ?? ?%elem_of_nil.
Qed.

Lemma heapLess_false_score a b :
  comparable a -> comparable b -> heapLess a b = false -> scoreGe a b.
Proof.
  intros (Sa & _) (Sb & _). unfold heapLess, scoreGe.
  destruct (num_neqb (score a) (score b)) eqn:E.
  - intros Hlt. by apply num_ge_total.
  - intros _. apply num_neqb_false in E as [-> _]. by apply num_ge_refl.
Qed.

Section NumericRuns.

Variable cfg : Config.
Variable localeCompare : string -> string -> Z.
Variable user : User.
Variable events : list (option Event).
Variable eventSimilarity : gmap string (list string).

Hypothesis Hdecay : distanceDecayKm cfg <> 0%R.
Hypothesis Hnum : numeric_popularity events.

(** The run on a limit that is an integer in (0, 2^31): the heap left by
    the scan holds a best [k] of the candidates, and the result lists the
    events of the sorted heap, re-ranked if the configuration says so. *)
Lemma run_numeric (n : Z) :
  (0 < n < 2 ^ 31)%Z ->
  exists heap final,
    selects (Nat.min (Z.to_nat n) (length events))
            (reverse (candidates cfg user events eventSimilarity)) heap /\
    Forall (fun x => comparable x /\ selectable x) heap /\
    final ≡ₚ heap /\
    (if enabled (diversity cfg) && (1 <? length heap)
     then rerankWithCategoryDiversity
            (Array_sort (rankCompare localeCompare) heap)
            (alpha (diversity cfg)) (perCategoryCap (diversity cfg))
          = Some final
     else final = Array_sort (rankCompare localeCompare) heap) /\
    getRecommendedEvents cfg localeCompare user events eventSimilarity
      (Some (Fin (IZR n))) = Some (event <$> final).
Proof using Hdecay Hnum.
  intros Hn. unfold getRecommendedEvents. simpl default.
  pose proof (candidates_numeric cfg user events eventSimilarity Hdecay Hnum)
    as Hc.
  destruct (Nat.eqb_spec (length events) 0) as [Hlen|Hlen].
  { apply length_zero_iff_nil in Hlen. subst events.
    exists [], []. rewrite Nat.min_0_r, andb_false_r.
    split_and!; [apply selects_nil|done..]. }
  rewrite num_le_IZR_0, bool_decide_eq_false_2 by lia. cbn [orb].
  unfold capacity. rewrite toInt32_small by lia. rewrite Z.max_r by lia.
  set (k := Nat.min (Z.to_nat n) (length events)).
  assert (0 < k) as Hk by lia.
  destruct (Nat.eqb_spec k 0) as [|_]; [lia|].
  assert (Forall comparable (candidates cfg user events eventSimilarity))
    as Hcmp.
  { eapply Forall_impl; [exact Hc|]. by intros x [? _]. }
  destruct (scanEvents_selects cfg user events eventSimilarity k events [] []
              Hk (Forall_nil_2 _) Hcmp (selects_nil k))
    as (heap & -> & Hsel).
  rewrite app_nil_r in Hsel.
  fold (candidates cfg user events eventSimilarity) in Hsel.
  assert (Forall (fun x => comparable x /\ selectable x) heap) as Hheap.
  { destruct Hsel as (_ & _ & rest & Hperm & _).
    rewrite reverse_Permutation in Hperm. rewrite Hperm in Hc.
    by apply Forall_app in Hc as [? _]. }
  cbn [mbind option_bind].
  pose proof (Array_sort_perm (rankCompare localeCompare) heap) as Hsort.
  rewrite (Permutation_length Hsort).
  destruct (Nat.eqb_spec (length heap) 0) as [Hh0|Hh0].
  { apply length_zero_iff_nil in Hh0. subst heap.
    exists [], []. rewrite andb_false_r. split_and!; done. }
  destruct (enabled (diversity cfg) && (1 <? length heap)) eqn:Hdiv.
  - destruct (rerank_permutation (Array_sort (rankCompare localeCompare) heap)
                (alpha (diversity cfg)) (perCategoryCap (diversity cfg)))
      as (d & Hd & Hperm).
    { rewrite Hsort. eapply Forall_impl; [exact Hheap|]. by intros x [_ ?]. }
    rewrite Hd. cbn [mbind option_bind].
    exists heap, d. rewrite Hdiv.
    split_and!; [done..|by rewrite Hperm, Hsort|done|done].
  - exists heap, (Array_sort (rankCompare localeCompare) heap).
    rewrite Hdiv. split_and!; done.
Qed.

End NumericRuns.

(** ** The result is a best k *)

(** X22: On numeric input the result is a best [k] of the candidates: it
    holds min(limit, number of candidates) of them, and no candidate left
    out is better, or has a higher score, than one that is returned. *)
Theorem X22_result_is_a_best_k (cfg : Config)
    (localeCompare : string -> string -> Z) (user : User)
    (events : list (option Event))
    (eventSimilarity : gmap string (list string)) (n : Z) :
  distanceDecayKm cfg <> 0%R -> numeric_popularity events ->
  (0 < n < 2 ^ 31)%Z ->
  exists chosen rest,
    getRecommendedEvents cfg localeCompare user events eventSimilarity
      (Some (Fin (IZR n))) = Some (event <$> chosen) /\
    candidates cfg user events eventSimilarity ≡ₚ chosen ++ rest /\
    length chosen
    = Nat.min (Z.to_nat n)
              (length (candidates cfg user events eventSimilarity)) /\
    forall x y, x ∈ rest -> y ∈ chosen ->
      betterThan x y = false /\ scoreGe y x.
Proof.
  intros Hd Hnum Hn.
  destruct (run_numeric cfg localeCompare user events eventSimilarity
              Hd Hnum n Hn)
    as (heap & final & (Hok & Hlen & rest & Hperm & Hrest) & Hheap & Hfin & _
        & Hrun).
  rewrite reverse_Permutation in Hperm.
  exists final, rest. split_and!; [done|by rewrite Hfin| |].
  - rewrite Hfin, Hlen, length_reverse.
    pose proof (candidates_length cfg user events eventSimilarity) as Hcl.
    pose proof (eligibleCandidateCount_le cfg user events). lia.
  - intros x y Hx Hy. rewrite Hfin in Hy.
    pose proof (candidates_numeric cfg user events eventSimilarity Hd Hnum)
      as Hc.
    rewrite Hperm, Forall_app, !Forall_forall in Hc. destruct Hc as [Hch Hcr].
    rewrite betterThan_heapLess.
    split; [by apply Hrest|].
    apply heapLess_false_score; [by apply Hch|by apply Hcr|by apply Hrest].
Qed.

(** Witness of X22. *)
Lemma X22_witness :
  exists chosen rest,
    getRecommendedEvents CONFIG codeUnitCompare fan
      [Some (plainEvent "e1" (Fin 1)); Some (plainEvent "e2" (Fin (1 / 2)))]
      ∅ (Some (Fin (IZR 1))) = Some (event <$> chosen) /\
    candidates CONFIG fan
      [Some (plainEvent "e1" (Fin 1)); Some (plainEvent "e2" (Fin (1 / 2)))] ∅
    ≡ₚ chosen ++ rest /\
    length chosen
    = Nat.min (Z.to_nat 1)
        (length (candidates CONFIG fan
                   [Some (plainEvent "e1" (Fin 1));
                    Some (plainEvent "e2" (Fin (1 / 2)))] ∅)) /\
    forall x y, x ∈ rest -> y ∈ chosen ->
      betterThan x y = false /\ scoreGe y x.
Proof.
  apply (X22_result_is_a_best_k CONFIG codeUnitCompare fan
           [Some (plainEvent "e1" (Fin 1)); Some (plainEvent "e2" (Fin (1 / 2)))]
           ∅ 1).
  - apply CONFIG_decay.
  - apply (numeric_popularity_plain [("e1", 1%R); ("e2", (1 / 2)%R)]).
  - lia.
Defined.

(** ** A limit that covers every candidate *)

(** X23: On numeric input, a limit at least as large as the number of
    eligible events returns exactly the eligible events, reordered. *)
Theorem X23_large_limit_returns_every_eligible_event (cfg : Config)
    (localeCompare : string -> string -> Z) (user : User)
    (events : list (option Event))
    (eventSimilarity : gmap string (list string)) (n : Z) :
  distanceDecayKm cfg <> 0%R -> numeric_popularity events ->
  (0 < n < 2 ^ 31)%Z ->
  (Z.of_nat (eligibleCandidateCount cfg user events) <= n)%Z ->
  exists out,
    getRecommendedEvents cfg localeCompare user events eventSimilarity
      (Some (Fin (IZR n))) = Some out /\
    Some <$> out ≡ₚ filter (fun e => eligible cfg user e = true) events.
Proof.
  intros Hd Hnum Hn Hcount.
  destruct (run_numeric cfg localeCompare user events eventSimilarity
              Hd Hnum n Hn)
    as (heap & final & (Hok & Hlen & rest & Hperm & Hrest) & Hheap & Hfin & _
        & Hrun).
  exists (event <$> final). split; [done|].
  rewrite <- (events_of_candidates cfg user events eventSimilarity events).
  rewrite <- list_fmap_compose. apply fmap_Permutation.
  assert (rest = []) as ->.
  { pose proof (Permutation_length Hperm) as Hl.
    rewrite length_app, length_reverse in Hl. rewrite length_reverse in Hlen.
    pose proof (candidates_length cfg user events eventSimilarity) as Hcl.
    pose proof (eligibleCandidateCount_le cfg user events).
    apply length_zero_iff_nil. lia. }
  rewrite app_nil_r, reverse_Permutation in Hperm.
  by rewrite Hfin, <- Hperm.
Qed.

(** Witness of X23. *)
Lemma X23_witness :
  exists out,
    getRecommendedEvents CONFIG codeUnitCompare regular
      [Some (plainEvent "e1" (Fin 1)); Some (plainEvent "e2" (Fin (1 / 2)))]
      ∅ (Some (Fin (IZR 5))) = Some out /\
    Some <$> out
    ≡ₚ filter (fun e => eligible CONFIG regular e = true)
         [Some (plainEvent "e1" (Fin 1)); Some (plainEvent "e2" (Fin (1 / 2)))].
Proof.
  apply (X23_large_limit_returns_every_eligible_event CONFIG codeUnitCompare
           regular
           [Some (plainEvent "e1" (Fin 1)); Some (plainEvent "e2" (Fin (1 / 2)))]
           ∅ 5).
  - apply CONFIG_decay.
  - apply (numeric_popularity_plain [("e1", 1%R); ("e2", (1 / 2)%R)]).
  - lia.
  - pose proof (eligibleCandidateCount_le CONFIG regular
                  [Some (plainEvent "e1" (Fin 1));
                   Some (plainEvent "e2" (Fin (1 / 2)))]) as H.
    simpl in H. lia.
Defined.

(** ** Without the re-rank, the result is the head of the full ranking *)

Lemma node_id_inj_on (l : list Node) :
  NoDup (node_id <$> l) ->
  forall x y, x ∈ l -> y ∈ l -> node_id x = node_id y -> x = y.
Proof.
  induction l as [|z l IH]; intros Hnd x y Hx Hy Hid.
  { by apply elem_of_nil in Hx. }
  cbn [fmap list_fmap] in Hnd. apply NoDup_cons in Hnd as [Hz Hnd].
  apply elem_of_cons in Hx as [->|Hx], Hy as [->|Hy]; [done| | |by apply IH].
  - exfalso. apply Hz. rewrite Hid. by apply list_elem_of_fmap_2.
  - exfalso. apply Hz. rewrite <- Hid. by apply list_elem_of_fmap_2.
Qed.

Lemma same_keys_same_nodes (cands : list Node) :
  NoDup (node_id <$> cands) ->
  forall l1 l2,
    Forall (fun x => x ∈ cands) l1 -> Forall (fun x => x ∈ cands) l2 ->
    key <$> l1 = key <$> l2 -> l1 = l2.
Proof.
  intros Hnd l1. induction l1 as [|x l1 IH]; intros [|y l2] H1 H2 Hk;
    try done.
  apply Forall_cons in H1 as [Hx H1]. apply Forall_cons in H2 as [Hy H2].
  injection Hk as Hkey Hk.
  f_equal; [|by apply IH].
  apply (node_id_inj_on cands Hnd); [done..|].
  unfold key in Hkey. congruence.
Qed.

(** X24: With the diversity re-rank switched off and a collation by code
    units, the result on numeric input lists the events of scored
    candidates that carry, in order, the keys of the first [limit]
    candidates of the full ranking; when the identifiers of the
    candidates are distinct, the result is exactly the events of those
    first candidates. *)
Theorem X24_result_is_head_of_full_ranking (cfg : Config)
    (localeCompare : string -> string -> Z) (user : User)
    (events : list (option Event))
    (eventSimilarity : gmap string (list string)) (n : Z) :
  enabled (diversity cfg) = false -> codeUnitCollation localeCompare ->
  distanceDecayKm cfg <> 0%R -> numeric_popularity events ->
  (0 < n < 2 ^ 31)%Z ->
  (exists nodes,
     getRecommendedEvents cfg localeCompare user events eventSimilarity
       (Some (Fin (IZR n))) = Some (event <$> nodes) /\
     nodes ⊆+ candidates cfg user events eventSimilarity /\
     key <$> nodes
     = key <$> sortThenTruncate (Z.to_nat n)
                 (candidates cfg user events eventSimilarity)) /\
  (NoDup (node_id <$> candidates cfg user events eventSimilarity) ->
   getRecommendedEvents cfg localeCompare user events eventSimilarity
     (Some (Fin (IZR n)))
   = Some (event <$> sortThenTruncate (Z.to_nat n)
                       (candidates cfg user events eventSimilarity))).
Proof.
  intros Hoff Hlc Hd Hnum Hn.
  destruct (run_numeric cfg localeCompare user events eventSimilarity
              Hd Hnum n Hn)
    as (heap & final & Hsel & Hheap & Hfin & Hfinal & Hrun).
  rewrite Hoff in Hfinal. cbn [andb] in Hfinal. subst final.
  set (nodes := Array_sort (rankCompare localeCompare) heap) in *.
  assert (nodes ⊆+ candidates cfg user events eventSimilarity) as Hsub.
  { destruct Hsel as (_ & _ & rest & Hperm & _).
    rewrite reverse_Permutation in Hperm.
    rewrite Hfin, Hperm. by apply submseteq_inserts_r. }
  assert (key <$> nodes
          = key <$> sortThenTruncate (Z.to_nat n)
                      (candidates cfg user events eventSimilarity)) as Hkeys.
  { pose proof (candidates_numeric cfg user events eventSimilarity Hd Hnum)
      as Hc.
    assert (Forall comparable (candidates cfg user events eventSimilarity))
      as Hcmp.
    { eapply Forall_impl; [exact Hc|]. by intros x [? _]. }
    assert (Forall comparable heap) as Hch.
    { eapply Forall_impl; [exact Hheap|]. by intros x [? _]. }
    unfold nodes.
    rewrite (ranking_unique (Array_sort (rankCompare localeCompare) heap)
               (sortRanked heap)).
    2:{ by apply Array_sort_ranked. }
    2:{ by apply sortRanked_sorted. }
    2:{ by rewrite Array_sort_perm, sortRanked_perm. }
    assert (Forall comparable
              (reverse (candidates cfg user events eventSimilarity))) as Hrev
      by (by rewrite reverse_Permutation).
    rewrite (selects_sortThenTruncate _ _ _ Hrev Hsel).
    unfold sortThenTruncate. rewrite !fmap_take.
    rewrite (ranking_unique (sortRanked (reverse _))
               (sortRanked (candidates cfg user events eventSimilarity))).
    2:{ apply sortRanked_sorted. by rewrite reverse_Permutation. }
    2:{ by apply sortRanked_sorted. }
    2:{ by rewrite !sortRanked_perm, reverse_Permutation. }
    rewrite <- take_take.
    f_equal. apply take_ge.
    rewrite length_fmap, sortRanked_length, candidates_length.
    apply eligibleCandidateCount_le. }
  split; [by exists nodes|].
  intros Hnd. rewrite Hrun. do 2 f_equal.
  apply (same_keys_same_nodes _ Hnd); [| |done].
  - apply Forall_forall. intros x Hx. by eapply elem_of_submseteq.
  - apply Forall_forall. intros x Hx. unfold sortThenTruncate in Hx.
    apply elem_of_take in Hx as (i & Hx & _).
    apply list_elem_of_lookup_2 in Hx. by rewrite sortRanked_perm in Hx.
Qed.

(** Witness of X24. *)
Lemma X24_witness :
  (exists nodes,
     getRecommendedEvents plainConfig codeUnitCompare fan
       [Some (plainEvent "e1" (Fin 1)); Some (plainEvent "e2" (Fin (1 / 2)))]
       ∅ (Some (Fin (IZR 1))) = Some (event <$> nodes) /\
     nodes ⊆+ candidates plainConfig fan
                [Some (plainEvent "e1" (Fin 1));
                 Some (plainEvent "e2" (Fin (1 / 2)))] ∅ /\
     key <$> nodes
     = key <$> sortThenTruncate (Z.to_nat 1)
                 (candidates plainConfig fan
                    [Some (plainEvent "e1" (Fin 1));
                     Some (plainEvent "e2" (Fin (1 / 2)))] ∅)) /\
  (NoDup (node_id <$> candidates plainConfig fan
                        [Some (plainEvent "e1" (Fin 1));
                         Some (plainEvent "e2" (Fin (1 / 2)))] ∅) ->
   getRecommendedEvents plainConfig codeUnitCompare fan
     [Some (plainEvent "e1" (Fin 1)); Some (plainEvent "e2" (Fin (1 / 2)))]
     ∅ (Some (Fin (IZR 1)))
   = Some (event <$> sortThenTruncate (Z.to_nat 1)
                       (candidates plainConfig fan
                          [Some (plainEvent "e1" (Fin 1));
                           Some (plainEvent "e2" (Fin (1 / 2)))] ∅))).
Proof.
  apply (X24_result_is_head_of_full_ranking plainConfig codeUnitCompare fan
           [Some (plainEvent "e1" (Fin 1)); Some (plainEvent "e2" (Fin (1 / 2)))]
           ∅ 1).
  - reflexivity.
  - apply codeUnitCompare_collation.
  - apply CONFIG_decay.
  - apply (numeric_popularity_plain [("e1", 1%R); ("e2", (1 / 2)%R)]).
  - lia.
Defined.

(** ** The diversity re-rank *)

Lemma num_ge_not_lt a b : num_ge a b = true -> num_lt a b = false.
Proof.
  unfold num_ge, num_le. intros [H|H]%orb_true_iff.
  - by apply num_lt_asym.
  - assert (b = a) as ->; [|apply num_lt_irrefl].
    destruct a, b; simpl in *; try done; by apply bool_decide_eq_true in H.
Qed.

Lemma num_sub_0 a p : p = 0%R -> num_sub a (Fin p) = a.
Proof.
  intros ->. destruct a; simpl; try done. f_equal. lra.
Qed.

Section RerankSteps.

Variable alpha : R.
Variable perCategoryCap : num.

#[local] Abbreviation value := (rerankValue alpha perCategoryCap).

Lemma scanBest_keep catCounts ns : forall us i best,
  (forall m, m ∈ ns -> num_gt (value catCounts m) (snd best) = false) ->
  scanBest alpha perCategoryCap catCounts i ns us best = best.
Proof.
  induction ns as [|n ns IH]; intros us i best Hle; [done|].
  destruct us as [|u us]; [done|]. cbn [scanBest].
  destruct u.
  - apply IH. intros m Hm. apply Hle. by right.
  - fold (value catCounts n). rewrite (Hle n) by left.
    apply IH. intros m Hm. apply Hle. by right.
Qed.

(** The inner loop selects the first node that is not used yet when no
    later node has a larger value. *)
Lemma scanBest_first_unused catCounts n post usp : forall pre i,
  selectable n ->
  (forall m, m ∈ post ->
     num_gt (value catCounts m) (value catCounts n) = false) ->
  scanBest alpha perCategoryCap catCounts i (pre ++ n :: post)
    (replicate (length pre) true ++ false :: usp) (None, NegInfinity)
  = (Some (i + length pre), value catCounts n).
Proof.
  intros pre. induction pre as [|p pre IH]; intros i Hn Hpost.
  - cbn [app length replicate scanBest snd]. fold (value catCounts n).
    unfold rerankValue at 1. rewrite selectable_val by done.
    rewrite scanBest_keep by done. by rewrite Nat.add_0_r.
  - cbn [app length replicate scanBest].
    rewrite IH by done. do 2 f_equal. lia.
Qed.

Lemma rerankLoop_prefix nodes steps : forall used out catCounts res,
  rerankLoop nodes alpha perCategoryCap steps used out catCounts = Some res ->
  exists tail, res = out ++ tail.
Proof.
  induction steps as [|steps IH]; intros used out catCounts res; cbn [rerankLoop].
  { intros [= <-]. exists []. by rewrite app_nil_r. }
  destruct (scanBest _ _ _ _ _ _ _).1 as [bestIdx|]; [|done].
  destruct (nodes !! bestIdx) as [chosen|]; [|done]. cbn [mbind option_bind].
  intros (tail & ->)%IH. exists (chosen :: tail). by rewrite <- app_assoc.
Qed.

End RerankSteps.

Lemma maxCount_empty cats :
  foldl (fun m c => Nat.max m (default 0 ((∅ : gmap string nat) !! c))) 0 cats
  = 0.
Proof.
  induction cats as [|c cats IH]; [done|].
  cbn [foldl]. by rewrite lookup_empty.
Qed.

Lemma penaltyFor_first alpha cap ev :
  capAboveZero cap ->
  exists p, penaltyFor alpha cap ∅ ev = Fin p /\ p = 0%R.
Proof.
  intros Hcap. unfold penaltyFor.
  destruct (length _ =? 0); [by exists 0%R|].
  rewrite maxCount_empty. cbn [INR]. unfold capAboveZero in Hcap.
  rewrite Hcap. cbn [num_mul num_add]. eexists. split; [done|]. lra.
Qed.

Lemma penaltyFor_off cap catCounts ev :
  Number_isFinite cap = false ->
  exists p, penaltyFor 0 cap catCounts ev = Fin p /\ p = 0%R.
Proof.
  intros Hcap. unfold penaltyFor.
  destruct (length _ =? 0); [by exists 0%R|].
  rewrite Hcap. cbn [andb num_mul num_add]. eexists. split; [done|]. lra.
Qed.

Lemma sorted_head_value alpha cap catCounts n post :
  (forall m, rerankValue alpha cap catCounts m = score m) ->
  Forall (scoreGe n) post ->
  forall m, m ∈ post ->
    num_gt (rerankValue alpha cap catCounts m)
           (rerankValue alpha cap catCounts n) = false.
Proof.
  intros Hval Hpost m Hm. rewrite !Hval.
  rewrite Forall_forall in Hpost. unfold num_gt.
  apply num_ge_not_lt. by apply Hpost.
Qed.

(** The first pick of the re-rank is the head of a list that is sorted
    by score, when the soft cap is above 0: the penalties are all 0
    before any category was chosen. *)
Lemma rerank_head n0 tl alpha cap :
  capAboveZero cap -> Forall selectable (n0 :: tl) ->
  StronglySorted scoreGe (n0 :: tl) ->
  exists tail,
    rerankWithCategoryDiversity (n0 :: tl) alpha cap = Some (n0 :: tail) /\
    tail ≡ₚ tl.
Proof.
  intros Hcap Hsel Hsorted.
  destruct (rerank_permutation (n0 :: tl) alpha cap Hsel) as (out & Hrun & Hperm).
  rewrite Hrun. unfold rerankWithCategoryDiversity in Hrun.
  cbn [length replicate rerankLoop] in Hrun.
  apply StronglySorted_inv in Hsorted as [_ Hhead].
  apply Forall_cons in Hsel as Hsel'. destruct Hsel' as [Hn0 _].
  rewrite (scanBest_first_unused alpha cap ∅ n0 tl
             (replicate (length tl) false) [] 0 Hn0) in Hrun.
  2:{ apply sorted_head_value; [|done]. intros m. unfold rerankValue.
      destruct (penaltyFor_first alpha cap (event m) Hcap) as (p & -> & Hp).
      by apply num_sub_0. }
  cbn [fst Nat.add length lookup list_lookup mbind option_bind app] in Hrun.
  apply rerankLoop_prefix in Hrun as (tail & ->).
  exists tail. split; [done|].
  cbn [app] in Hperm. by apply Permutation_cons_inv in Hperm.
Qed.

(** When the re-rank is switched off by [alpha = 0] and a cap that is
    not finite, every step picks the next node of the sorted list. *)
Lemma rerankLoop_off nodes cap :
  Number_isFinite cap = false -> Forall selectable nodes ->
  StronglySorted scoreGe nodes ->
  forall post pre out catCounts,
    nodes = pre ++ post ->
    rerankLoop nodes 0 cap (length post)
      (replicate (length pre) true ++ replicate (length post) false)
      out catCounts
    = Some (out ++ post).
Proof.
  intros Hcap Hsel Hsorted post.
  induction post as [|n post IH]; intros pre out catCounts Hnodes.
  { cbn. by rewrite app_nil_r. }
  cbn [length rerankLoop replicate].
  assert (selectable n) as Hn.
  { rewrite Forall_forall in Hsel. apply Hsel. rewrite Hnodes.
    apply elem_of_app. right. left. }
  assert (Forall (scoreGe n) post) as Hhead.
  { rewrite Hnodes in Hsorted.
    apply StronglySorted_app_1_r in Hsorted.
    by apply StronglySorted_inv in Hsorted as [_ ?]. }
  rewrite Hnodes at 1.
  rewrite (scanBest_first_unused 0 cap catCounts n post
             (replicate (length post) false) pre 0 Hn).
  2:{ apply sorted_head_value; [|done]. intros m. unfold rerankValue.
      destruct (penaltyFor_off cap catCounts (event m) Hcap) as (p & -> & Hp).
      by apply num_sub_0. }
  cbn [fst Nat.add].
  assert (nodes !! length pre = Some n) as ->.
  { rewrite Hnodes. by apply list_lookup_middle. }
  cbn [mbind option_bind].
  rewrite insert_app_r_alt by (rewrite length_replicate; lia).
  rewrite length_replicate, Nat.sub_diag. cbn [insert list_insert].
  specialize (IH (pre ++ [n]) (out ++ [n])
                (foldl (fun m c => <[c := default 0 (m !! c) + 1]> m)
                   catCounts (default [] (ev_categories (event n))))).
  rewrite length_app, replicate_add in IH. cbn [length replicate] in IH.
  rewrite <- !app_assoc in IH. cbn [app] in IH.
  by apply IH.
Qed.


Lemma catNode_selectable s eid cat : selectable (catNode s eid cat).
Proof. by split. Qed.


(** X26: With [alpha = 0] and a cap that is not finite, the re-rank returns
    a list sorted by score unchanged. *)
Theorem X26_rerank_off_is_identity (nodes : list Node) (perCategoryCap : num) :
  Number_isFinite perCategoryCap = false -> Forall selectable nodes ->
  StronglySorted scoreGe nodes ->
  rerankWithCategoryDiversity nodes 0 perCategoryCap = Some nodes.
Proof.
  intros Hcap Hsel Hsorted. unfold rerankWithCategoryDiversity. cbv zeta.
  apply (rerankLoop_off nodes perCategoryCap Hcap Hsel Hsorted nodes [] [] ∅).
  done.
Qed.

Lemma scoreGe_catNode s s' e e' c c' :
  (s' <= s)%R -> scoreGe (catNode s e c) (catNode s' e' c').
Proof.
  intros H. unfold scoreGe, num_ge, num_le. cbn [catNode score num_lt num_eqb].
  destruct H as [H| ->].
  - by rewrite (bool_decide_eq_true_2 (s' < s)%R).
  - rewrite (bool_decide_eq_true_2 (Fin s = Fin s)) by done.
    by rewrite orb_true_r.
Qed.

(** Witness of X26. *)
Lemma X26_witness :
  rerankWithCategoryDiversity
    [catNode 1 "e1" "music"; catNode (1 / 2) "e2" "music"] 0 Infinity
  = Some [catNode 1 "e1" "music"; catNode (1 / 2) "e2" "music"].
Proof.
  apply (X26_rerank_off_is_identity
           [catNode 1 "e1" "music"; catNode (1 / 2) "e2" "music"] Infinity).
  - reflexivity.
  - repeat constructor; discriminate.
  - repeat constructor. apply scoreGe_catNode. lra.
Defined.



(** ** The final sort orders by score *)

(** X28: Whatever the collation of the host, the final sort returns a
    permutation of the heap in which the scores never increase, when no
    score is [NaN]. *)
Theorem X28_final_sort_orders_by_score
    (localeCompare : string -> string -> Z) (heap : list Node) :
  Forall (fun n => score n <> NaN) heap ->
  Array_sort (rankCompare localeCompare) heap ≡ₚ heap /\
  StronglySorted scoreGe (Array_sort (rankCompare localeCompare) heap).
Proof.
  intros Hc. split; [apply Array_sort_perm|by apply Array_sort_scores].
Qed.

(** Witness of X28. *)
Lemma X28_witness :
  Array_sort (rankCompare codeUnitCompare)
    [catNode (1 / 2) "e2" "music"; catNode 1 "e1" "music"]
  ≡ₚ [catNode (1 / 2) "e2" "music"; catNode 1 "e1" "music"] /\
  StronglySorted scoreGe
    (Array_sort (rankCompare codeUnitCompare)
       [catNode (1 / 2) "e2" "music"; catNode 1 "e1" "music"]).
Proof.
  apply (X28_final_sort_orders_by_score codeUnitCompare
           [catNode (1 / 2) "e2" "music"; catNode 1 "e1" "music"]).
  repeat constructor; discriminate.
Defined.

(** ** The first result *)

(** X29: On numeric input with at least one eligible event, and a soft cap
    above 0, the first event of the result is a candidate of the highest
    score: the diversity re-rank never moves the top of the ranking. *)
Theorem X29_first_result_has_top_score (cfg : Config)
    (localeCompare : string -> string -> Z) (user : User)
    (events : list (option Event))
    (eventSimilarity : gmap string (list string)) (n : Z) :
  distanceDecayKm cfg <> 0%R -> numeric_popularity events ->
  (0 < n < 2 ^ 31)%Z ->
  capAboveZero (perCategoryCap (diversity cfg)) ->
  0 < eligibleCandidateCount cfg user events ->
  exists best others,
    getRecommendedEvents cfg localeCompare user events eventSimilarity
      (Some (Fin (IZR n))) = Some (event best :: others) /\
    best ∈ candidates cfg user events eventSimilarity /\
    forall x, x ∈ candidates cfg user events eventSimilarity ->
      scoreGe best x.
Proof.
  intros Hd Hnum Hn Hcap Hcount.
  destruct (run_numeric cfg localeCompare user events eventSimilarity
              Hd Hnum n Hn)
    as (heap & final & (Hok & Hlen & rest & Hperm & Hrest) & Hheap & Hfin
        & Hfinal & Hrun).
  rewrite reverse_Permutation in Hperm. rewrite length_reverse in Hlen.
  pose proof (candidates_length cfg user events eventSimilarity) as Hcl.
  pose proof (eligibleCandidateCount_le cfg user events) as Hle.
  pose proof (Array_sort_perm (rankCompare localeCompare) heap) as Hsort.
  assert (Forall (fun x => score x <> NaN) heap) as Hscores.
  { eapply Forall_impl; [exact Hheap|]. by intros x [[? _] _]. }
  pose proof (Array_sort_scores localeCompare heap Hscores) as Hsorted.
  destruct (Array_sort (rankCompare localeCompare) heap) as [|n0 tl] eqn:Es.
  { apply Permutation_length in Hsort. simpl in Hsort. lia. }
  assert (exists tail, final = n0 :: tail) as (tail & ->).
  { destruct (enabled (diversity cfg) && (1 <? length heap)).
    - destruct (rerank_head n0 tl (alpha (diversity cfg))
                  (perCategoryCap (diversity cfg)) Hcap)
        as (tail & Hrr & _); [|done|].
      + rewrite Hsort. eapply Forall_impl; [exact Hheap|]. by intros x [_ ?].
      + rewrite Hrr in Hfinal. injection Hfinal as <-. by exists tail.
    - by exists tl. }
  exists n0, (event <$> tail). split_and!; [done| |].
  - rewrite Hperm. apply elem_of_app. left. rewrite <- Hsort. left.
  - intros x Hx. rewrite Hperm in Hx.
    pose proof (candidates_numeric cfg user events eventSimilarity Hd Hnum)
      as Hc.
    rewrite Hperm, Forall_app, !Forall_forall in Hc. destruct Hc as [Hch Hcr].
    assert (n0 ∈ heap) as Hn0 by (rewrite <- Hsort; left).
    apply elem_of_app in Hx as [Hx|Hx].
    + rewrite <- Hsort in Hx. apply elem_of_cons in Hx as [->|Hx].
      * apply num_ge_refl. by apply Hch.
      * apply StronglySorted_inv in Hsorted as [_ Hhead].
        rewrite Forall_forall in Hhead. by apply Hhead.
    + apply heapLess_false_score; [by apply Hch|by apply Hcr|by apply Hrest].
Qed.

(** Witness of X29. *)
Lemma X29_witness :
  exists best others,
    getRecommendedEvents CONFIG codeUnitCompare fan
      [Some (plainEvent "e1" (Fin 1)); Some (plainEvent "e2" (Fin (1 / 2)))]
      ∅ (Some (Fin (IZR 2))) = Some (event best :: others) /\
    best ∈ candidates CONFIG fan
             [Some (plainEvent "e1" (Fin 1));
              Some (plainEvent "e2" (Fin (1 / 2)))] ∅ /\
    forall x,
      x ∈ candidates CONFIG fan
            [Some (plainEvent "e1" (Fin 1));
             Some (plainEvent "e2" (Fin (1 / 2)))] ∅ ->
      scoreGe best x.
Proof.
  apply (X29_first_result_has_top_score CONFIG codeUnitCompare fan
           [Some (plainEvent "e1" (Fin 1)); Some (plainEvent "e2" (Fin (1 / 2)))]
           ∅ 2).
  - apply CONFIG_decay.
  - apply (numeric_popularity_plain [("e1", 1%R); ("e2", (1 / 2)%R)]).
  - lia.
  - unfold capAboveZero, num_ge, num_le.
    cbn [CONFIG diversity perCategoryCap Number_isFinite andb num_lt num_eqb].
    rewrite (bool_decide_eq_false_2 (3 < 0)%R) by lra.
    rewrite bool_decide_eq_false_2 by (intros [= ?]; lra). reflexivity.
  - vm_compute. lia.
Defined.

(** ** A user without history *)

Lemma scanEvents_ext cfg user events sim sim' k :
  (forall e, scoreEvent cfg user events sim e
             = scoreEvent cfg user events sim' e) ->
  forall evs heap,
    scanEvents cfg user events sim k heap evs
    = scanEvents cfg user events sim' k heap evs.
Proof.
  intros Hext evs. induction evs as [|e evs IH]; intros heap; [done|].
  cbn [scanEvents]. unfold scanStep. rewrite (Hext e).
  destruct (match scoreEvent cfg user events sim' e with
            | Some node => _ | None => _ end) as [heap'|]; [|done].
  cbn [mbind option_bind]. apply IH.
Qed.

(** X30: For a user without attended events the similarity index plays no
    part: the result is the same under any two indexes. *)
Theorem X30_similarity_ignored_without_history (cfg : Config)
    (localeCompare : string -> string -> Z) (user : User)
    (events : list (option Event))
    (eventSimilarity eventSimilarity' : gmap string (list string))
    (limit : option num) :
  default [] (attendedEvents user) = [] ->
  getRecommendedEvents cfg localeCompare user events eventSimilarity limit
  = getRecommendedEvents cfg localeCompare user events eventSimilarity' limit.
Proof.
  intros Hatt.
  assert (forall e, scoreEvent cfg user events eventSimilarity e
                    = scoreEvent cfg user events eventSimilarity' e) as Hext.
  { intros [ev|]; [|done]. unfold scoreEvent.
    destruct (ev_id ev) as [eid|]; [|done].
    destruct (String.eqb eid ""); [done|].
    case_bool_decide; [done|].
    destruct (beyondCutoff cfg user ev); [done|].
    do 2 f_equal. unfold combined, simScore, hasHistory, active, hasHistory,
      attended.
    rewrite Hatt. done. }
  unfold getRecommendedEvents. cbv zeta.
  destruct (_ || _); [done|]. destruct (_ =? 0); [done|].
  by rewrite (scanEvents_ext cfg user events eventSimilarity eventSimilarity'
                _ Hext).
Qed.

(** Witness of X30. *)
Lemma X30_witness :
  getRecommendedEvents CONFIG codeUnitCompare fan
    [Some (plainEvent "e1" (Fin 1))] ∅ (Some (Fin 1))
  = getRecommendedEvents CONFIG codeUnitCompare fan
      [Some (plainEvent "e1" (Fin 1))] {[ "e9" := ["e1"] ]} (Some (Fin 1)).
Proof.
  apply (X30_similarity_ignored_without_history CONFIG codeUnitCompare fan
           [Some (plainEvent "e1" (Fin 1))] ∅ {[ "e9" := ["e1"] ]}
           (Some (Fin 1))).
  reflexivity.
Defined.
